(** * Phỏm score keeping: the scoring engine and the session aggregator

    A shallow embedding of the pure scoring code of [src/app/page.tsx]
    ([computeGamePoints], [getTopStat], [sessionTotals], [sessionBalance],
    [funStats]) together with the properties the specification states
    about it.

    Modelling conventions.
    - The engine and the aggregator are given in two readings.  The
      reading of the data model ([computeGamePoints], [sessionTotals],
      [sessionBalance]) takes scores, counts and amounts as integers
      without bound and a score table as its own properties.  The
      reading with JavaScript's numbers and property lookup
      ([Js.computeGamePoints], [Js.sessionTotals], [Js.sessionBalance])
      runs the same statements on doubles and on objects that inherit
      from [Object.prototype].  The two agree on rounds of four players
      whose slots and endpoints are player ids or empty and whose
      amounts are safe ([rounds_agree], [sessions_agree]); they differ
      past [2^53] and on names such as ["toString"].
    - In the reading of the data model a [number] that holds a score is
      a [num]: an integer or [NaN], where [NaN] arises only from
      arithmetic on a missing property ([undefined - 4]).
    - In the reading with doubles a [number] is a [Double.t]: an integer
      that is a double, an infinity or [NaN]; a sum or difference is
      rounded to the nearest double, ties to the even significand, and
      is an infinity from [2^1024] on.  Amounts are integers, as the
      data model has them; the sign of zero is not modelled, the engine
      cannot observe it.  A value of the table is a [Js.value]: a
      number, or a string once [+=] has met a member of
      [Object.prototype].
    - A JavaScript object used as a dictionary ([Record<string, number>])
      is an association list holding the own properties in creation
      order; enumeration ([Object.keys], [Object.values]) follows the
      language's order: array-index keys in ascending order first, then
      the other keys in creation order.  In the reading of the data model
      a read of a name that is not an own property is [undefined]
      ([None]); [Js.get] and [Js.set] add the members of
      [Object.prototype] and the setter of [__proto__].
    - A JavaScript [Set] of strings is a duplicate-free list in insertion
      order.
    - The closure state of [computeGamePoints] ([points], [warnings]) is
      threaded explicitly through commands of type [Cmd].

    The development then covers the code around the engine: the round
    editors ([handleDropPlacement], [handleDropChay], [clearPlacement],
    [removeChayPlayer], [createTransfer], the updaters written in the
    JSX), the drop targets ([parseDropTarget], [handleDragEndEvent]), the
    rounds of a session and their cursor ([updateGame], [addGame],
    [removeGame], the previous, next and reset buttons) and the players
    and sessions as they are made and renamed ([createPlayers],
    [createSession], [saveEditSession], [updateSession],
    [createNewSession]).
    - A handler that calls [updateGame] or [updateSession] is modelled by
      the updater it passes, a function from the old value to the new
      one.
    - The results of [makeId()] and [Date.now()] are parameters of the
      functions that call them; [String.prototype.trim] is a parameter
      too, and nothing is assumed about it.
    - An [Edit] is one use of a control of the round screen; [offered]
      tells which controls the JSX renders for a round and which values
      they can send. *)

From Stdlib Require Import String Ascii List ZArith NArith Bool Lia Permutation.
From Stdlib Require Import Decimal DecimalString.
Import ListNotations.
Open Scope string_scope.
Open Scope list_scope.

(** ** Numbers *)

Inductive num : Type :=
| Int (z : Z)
| NaN.

Definition nadd (a b : num) : num :=
  match a, b with
  | Int x, Int y => Int (x + y)%Z
  | _, _ => NaN
  end.

Definition nsub (a b : num) : num :=
  match a, b with
  | Int x, Int y => Int (x - y)%Z
  | _, _ => NaN
  end.

(** [ToNumber] of the result of a property read: [undefined] is [NaN]. *)
Definition to_num (v : option num) : num :=
  match v with
  | Some n => n
  | None => NaN
  end.

(** [Boolean(s)] for a string: only the empty string is falsy. *)
Definition truthy (s : string) : bool := negb (s =? "").

(** ** Objects used as dictionaries *)

Module JsObj.

Section Obj.
Context {V : Type}.

Definition t : Type := list (string * V).

Fixpoint get (k : string) (o : t) : option V :=
  match o with
  | [] => None
  | (k', v) :: r => if k =? k' then Some v else get k r
  end.

(** [o[k] = v]: an existing property keeps its place, a new one is
    created last. *)
Fixpoint set (k : string) (v : V) (o : t) : t :=
  match o with
  | [] => [(k, v)]
  | (k', v') :: r => if k =? k' then (k, v) :: r else (k', v') :: set k v r
  end.

Definition fromEntries (es : list (string * V)) : t :=
  fold_left (fun o e => set (fst e) (snd e) o) es [].

(** Array-index keys: canonical decimal numerals below [2^32 - 1]. *)
Definition digit (c : ascii) : option N :=
  let n := N_of_ascii c in
  if ((48 <=? n) && (n <=? 57))%N then Some (n - 48)%N else None.

Fixpoint digits (s : string) (acc : N) : option N :=
  match s with
  | EmptyString => Some acc
  | String c r =>
      match digit c with
      | Some d => digits r (10 * acc + d)%N
      | None => None
      end
  end.

Definition array_index (s : string) : option N :=
  match s with
  | EmptyString => None
  | String c r =>
      if (c =? "0")%char && negb (r =? "") then None
      else match digits s 0%N with
           | Some n => if (n <? 4294967295)%N then Some n else None
           | None => None
           end
  end.

Definition is_index (s : string) : bool :=
  match array_index s with Some _ => true | None => false end.

Fixpoint insert_index (e : N * (string * V)) (l : list (N * (string * V)))
  : list (N * (string * V)) :=
  match l with
  | [] => [e]
  | h :: r => if (fst e <=? fst h)%N then e :: l else h :: insert_index e r
  end.

Fixpoint indexed (o : t) : list (N * (string * V)) :=
  match o with
  | [] => []
  | kv :: r =>
      match array_index (fst kv) with
      | Some n => insert_index (n, kv) (indexed r)
      | None => indexed r
      end
  end.

(** The own properties in enumeration order. *)
Definition entries (o : t) : list (string * V) :=
  map snd (indexed o) ++ filter (fun kv => negb (is_index (fst kv))) o.

Definition keys (o : t) : list string := map fst (entries o).
Definition values (o : t) : list V := map snd (entries o).

End Obj.

Arguments t : clear implicits.

End JsObj.

(** ** Sets of strings *)

Definition Set_has (x : string) (s : list string) : bool :=
  existsb (String.eqb x) s.

Definition Set_add (s : list string) (x : string) : list string :=
  if Set_has x s then s else s ++ [x].

Definition new_Set (l : list string) : list string :=
  fold_left Set_add l [].

(** ** Data model *)

Module Player.
Record t : Type := { id : string; name : string }.
End Player.

Module Transfer.
Record t : Type := { id : string; from : string; to : string; points : Z }.
End Transfer.

Module Placements.
Record t : Type :=
    { first : string; second : string; third : string; fourth : string }.
End Placements.

Module Game.
Record t : Type :=
    { id : string;
      u : bool;
      placements : Placements.t;
      anChot : list Transfer.t;
      chay : list Transfer.t }.
End Game.

Module Session.
Record t : Type :=
    { id : string;
      name : string;
      players : list Player.t;
      games : list Game.t;
      currentGameIndex : Z;
      createdAt : Z }.
End Session.

Definition ids (players : list Player.t) : list string :=
  map Player.id players.

(** ** The scoring engine *)

Record St : Type := { points : JsObj.t num; warnings : list string }.

Definition Cmd : Type := St -> St.

Definition skip : Cmd := fun st => st.

Definition seq (a b : Cmd) : Cmd := fun st => b (a st).

Notation "a ;; b" := (seq a b) (at level 61, right associativity).

Definition when (c : bool) (body : Cmd) : Cmd := if c then body else skip.

Definition forEach {A : Type} (l : list A) (body : A -> Cmd) : Cmd :=
  fun st => fold_left (fun s x => body x s) l st.

(** [warnings.push(w)] *)
Definition push (w : string) : Cmd :=
  fun st => {| points := points st; warnings := warnings st ++ [w] |}.

(** [points[k] = v] *)
Definition assign (k : string) (v : num) : Cmd :=
  fun st => {| points := JsObj.set k v (points st); warnings := warnings st |}.

(** [points[k] -= n] *)
Definition sub_assign (k : string) (n : Z) : Cmd :=
  fun st => assign k (nsub (to_num (JsObj.get k (points st))) (Int n)) st.

(** [points[k] += n] *)
Definition add_assign (k : string) (n : Z) : Cmd :=
  fun st => assign k (nadd (to_num (JsObj.get k (points st))) (Int n)) st.

Definition applyTransfer (transfer : Transfer.t) : Cmd :=
  if negb (truthy (Transfer.from transfer))
     || negb (truthy (Transfer.to transfer))
     || (Transfer.from transfer =? Transfer.to transfer)
  then push "Chuyển điểm chưa hợp lệ"
  else sub_assign (Transfer.from transfer) (Transfer.points transfer) ;;
       add_assign (Transfer.to transfer) (Transfer.points transfer).

Definition chaySetOf (game : Game.t) : list string :=
  new_Set (filter truthy (map Transfer.from (Game.chay game))).

Definition nonChayOf (game : Game.t) (players : list Player.t) : list string :=
  filter (fun id => negb (Set_has id (chaySetOf game))) (ids players).

(** The branch taken when [game.u] holds. *)
Definition scoreU (game : Game.t) (players : list Player.t) : Cmd :=
  let winner := Placements.first (Game.placements game) in
  if negb (truthy winner) then push "Chưa chọn người Ù"
  else forEach players (fun player =>
         assign (Player.id player)
           (if Player.id player =? winner then Int 15 else Int (-5))).

(** The branch taken when [hasChay] holds. *)
Definition scoreChay (game : Game.t) (players : list Player.t) : Cmd :=
  let winner := Placements.first (Game.placements game) in
  let chaySet := chaySetOf game in
  if negb (truthy winner) then push "Cần chọn người thắng để tính cháy"
  else if Set_has winner chaySet then push "Người thắng không thể bị cháy"
  else
    forEach chaySet (fun playerId =>
      if playerId =? winner then skip
      else sub_assign playerId 4 ;; add_assign winner 4) ;;
    let second := Placements.second (Game.placements game) in
    let third := Placements.third (Game.placements game) in
    when (truthy second && negb (Set_has second chaySet) && negb (second =? winner))
      (sub_assign second 1 ;; add_assign winner 1) ;;
    when (truthy third && negb (Set_has third chaySet) && negb (third =? winner)
          && negb (third =? second))
      (sub_assign third 2 ;; add_assign winner 2) ;;
    let nonChay := nonChayOf game players in
    when ((2 <=? length nonChay)%nat
          && (negb (truthy second) || (second =? winner) || Set_has second chaySet))
      (push "Thiếu người về nhì") ;;
    when ((3 <=? length nonChay)%nat
          && (negb (truthy third) || (third =? winner) || (third =? second)
              || Set_has third chaySet))
      (push "Thiếu người về ba").

(** The branch taken when there is no burn. *)
Definition scoreRanking (game : Game.t) : Cmd :=
  let picks :=
    [ Placements.first (Game.placements game);
      Placements.second (Game.placements game);
      Placements.third (Game.placements game);
      Placements.fourth (Game.placements game) ] in
  let unique := new_Set (filter truthy picks) in
  if negb (length unique =? 4)%nat then push "Chưa đủ xếp hạng 1-4"
  else
    add_assign (Placements.first (Game.placements game)) 6 ;;
    sub_assign (Placements.second (Game.placements game)) 1 ;;
    sub_assign (Placements.third (Game.placements game)) 2 ;;
    sub_assign (Placements.fourth (Game.placements game)) 3.

(** The state before any statement of the body has run. *)
Definition initial (players : list Player.t) : St :=
  {| points := JsObj.fromEntries (map (fun player => (Player.id player, Int 0)) players);
     warnings := [] |}.

(** Lines 137-205: the scoring by mode. *)
Definition scoreMode (game : Game.t) (players : list Player.t) : Cmd :=
  if Game.u game then scoreU game players
  else
    let hasChay := (0 <? length (chaySetOf game))%nat in
    if hasChay then scoreChay game players
    else scoreRanking game.

Module Summary.
Record t : Type :=
    { points : JsObj.t num; total : num; warnings : list string }.
End Summary.

Definition sum_values (o : JsObj.t num) : num :=
  fold_left nadd (JsObj.values o) (Int 0).

Definition computeGamePoints (game : Game.t) (players : list Player.t) : Summary.t :=
  let st := (scoreMode game players ;; forEach (Game.anChot game) applyTransfer)
              (initial players) in
  {| Summary.points := points st;
     Summary.total := sum_values (points st);
     Summary.warnings := warnings st |}.

(** The state of [computeGamePoints] when line 207 is reached. *)
Definition beforeTransfers (game : Game.t) (players : list Player.t) : St :=
  scoreMode game players (initial players).

(** ** The session aggregator *)

(** [v ?? d] on the result of a property read. *)
Definition nullish {A : Type} (v : option A) (d : A) : A :=
  match v with
  | Some x => x
  | None => d
  end.

Definition gameSummaries (activeSession : option Session.t) : list Summary.t :=
  match activeSession with
  | None => []
  | Some session =>
      map (fun game => computeGamePoints game (Session.players session))
          (Session.games session)
  end.

Definition sessionTotals (activeSession : option Session.t) : JsObj.t num :=
  match activeSession with
  | None => []
  | Some session =>
      let totals :=
        JsObj.fromEntries
          (map (fun player => (Player.id player, Int 0)) (Session.players session)) in
      fold_left
        (fun totals summary =>
           fold_left
             (fun totals player =>
                JsObj.set (Player.id player)
                  (nadd (to_num (JsObj.get (Player.id player) totals))
                        (nullish (JsObj.get (Player.id player) (Summary.points summary))
                                 (Int 0)))
                  totals)
             (Session.players session) totals)
        (gameSummaries activeSession) totals
  end.

Definition sessionBalance (activeSession : option Session.t) : num :=
  sum_values (sessionTotals activeSession).

Module TopStat.
Record t : Type := { names : list string; count : Z }.
End TopStat.

(** [xs.filter(Boolean)] on the results of [find(...)?.name]. *)
Fixpoint filterBoolean (xs : list (option string)) : list string :=
  match xs with
  | [] => []
  | Some s :: r => if truthy s then s :: filterBoolean r else filterBoolean r
  | None :: r => filterBoolean r
  end.

Definition getTopStat (players : list Player.t) (counts : JsObj.t Z) : TopStat.t :=
  let max := fold_left Z.max (JsObj.values counts) 0%Z in
  if (max =? 0)%Z then {| TopStat.names := ["Chưa có"]; TopStat.count := 0 |}
  else
    let ids :=
      filter (fun id => match JsObj.get id counts with
                        | Some c => (c =? max)%Z
                        | None => false
                        end)
             (JsObj.keys counts) in
    let names :=
      filterBoolean
        (map (fun id =>
                option_map Player.name
                  (find (fun player => Player.id player =? id) players))
             ids) in
    {| TopStat.names := names; TopStat.count := max |}.

(** [counts[k] = (counts[k] ?? 0) + 1], guarded by [if (transfer.from)]. *)
Definition countFrom (counts : JsObj.t Z) (transfer : Transfer.t) : JsObj.t Z :=
  if truthy (Transfer.from transfer)
  then JsObj.set (Transfer.from transfer)
         (nullish (JsObj.get (Transfer.from transfer) counts) 0 + 1)%Z counts
  else counts.

Module FunStats.
Record t : Type := { mostChay : TopStat.t; mostAnChot : TopStat.t }.
End FunStats.

Definition chayCountsOf (session : Session.t) : JsObj.t Z :=
  fold_left (fun counts game => fold_left countFrom (Game.chay game) counts)
    (Session.games session)
    (JsObj.fromEntries (map (fun player => (Player.id player, 0%Z)) (Session.players session))).

Definition anChotCountsOf (session : Session.t) : JsObj.t Z :=
  fold_left (fun counts game => fold_left countFrom (Game.anChot game) counts)
    (Session.games session)
    (JsObj.fromEntries (map (fun player => (Player.id player, 0%Z)) (Session.players session))).

Definition funStats (activeSession : option Session.t) : FunStats.t :=
  match activeSession with
  | None =>
      {| FunStats.mostChay := {| TopStat.names := ["Chưa có"]; TopStat.count := 0 |};
         FunStats.mostAnChot := {| TopStat.names := ["Chưa có"]; TopStat.count := 0 |} |}
  | Some session =>
      {| FunStats.mostChay := getTopStat (Session.players session) (chayCountsOf session);
         FunStats.mostAnChot := getTopStat (Session.players session) (anChotCountsOf session) |}
  end.

(** ** Predicates of the data model *)

Definition mem (x : string) (l : list string) : bool :=
  existsb (String.eqb x) l.

Fixpoint distinct (l : list string) : bool :=
  match l with
  | [] => true
  | x :: r => negb (mem x r) && distinct r
  end.

(** A slot or transfer endpoint: a player id of the session, or empty. *)
Definition valid_id (players : list Player.t) (s : string) : bool :=
  negb (truthy s) || mem s (ids players).

Definition valid_transfer (players : list Player.t) (transfer : Transfer.t) : bool :=
  valid_id players (Transfer.from transfer) && valid_id players (Transfer.to transfer).

Definition valid_round (players : list Player.t) (game : Game.t) : bool :=
  valid_id players (Placements.first (Game.placements game))
  && valid_id players (Placements.second (Game.placements game))
  && valid_id players (Placements.third (Game.placements game))
  && valid_id players (Placements.fourth (Game.placements game))
  && forallb (valid_transfer players) (Game.chay game)
  && forallb (valid_transfer players) (Game.anChot game).

(** Exactly four players, told apart by their ids. *)
Definition four_players (players : list Player.t) : bool :=
  (length players =? 4)%nat && distinct (ids players).

(** The four ranking slots, in order. *)
Definition picksOf (game : Game.t) : list string :=
  [ Placements.first (Game.placements game);
    Placements.second (Game.placements game);
    Placements.third (Game.placements game);
    Placements.fourth (Game.placements game) ].

(** ** Sample data: the four seats of [createPlayers] and some rounds *)

Definition seat (id name : string) : Player.t :=
  {| Player.id := id; Player.name := name |}.

Definition seats : list Player.t :=
  [ seat "p1" "Người chơi 1"; seat "p2" "Người chơi 2";
    seat "p3" "Người chơi 3"; seat "p4" "Người chơi 4" ].

Definition slots (a b c d : string) : Placements.t :=
  {| Placements.first := a; Placements.second := b;
     Placements.third := c; Placements.fourth := d |}.

Definition transfer (id from to : string) (points : Z) : Transfer.t :=
  {| Transfer.id := id; Transfer.from := from; Transfer.to := to;
     Transfer.points := points |}.

Definition round (u : bool) (placements : Placements.t)
    (anChot chay : list Transfer.t) : Game.t :=
  {| Game.id := "g"; Game.u := u; Game.placements := placements;
     Game.anChot := anChot; Game.chay := chay |}.

(** The four slots are filled with four distinct ids. *)
Definition filled4 (game : Game.t) : bool :=
  forallb truthy (picksOf game) && distinct (picksOf game).

(** ** The burn rules in the words of the specification *)

(** [q] is the [from] side of some burn entry. *)
Definition burned (game : Game.t) (q : string) : bool :=
  truthy q && mem q (map Transfer.from (Game.chay game)).

(** The number of distinct burned players. *)
Definition burnedCount (game : Game.t) : Z :=
  Z.of_nat (length (nodup string_dec
                      (filter truthy (map Transfer.from (Game.chay game))))).

(** Burn mode: no self-win and at least one burn entry. *)
Definition burnMode (game : Game.t) : bool :=
  negb (Game.u game)
  && existsb (fun entry => truthy (Transfer.from entry)) (Game.chay game).

(** Slot second is set, is not the winner and is not burned. *)
Definition secondPays (game : Game.t) : bool :=
  let winner := Placements.first (Game.placements game) in
  let second := Placements.second (Game.placements game) in
  truthy second && negb (second =? winner) && negb (burned game second).

(** Slot third is set, is not the winner, is not second and is not burned. *)
Definition thirdPays (game : Game.t) : bool :=
  let winner := Placements.first (Game.placements game) in
  let second := Placements.second (Game.placements game) in
  let third := Placements.third (Game.placements game) in
  truthy third && negb (third =? winner) && negb (third =? second)
  && negb (burned game third).

(** Every burned player pays 4 to the winner, second pays 1 and third
    pays 2 when they qualify. *)
Definition burnDelta (game : Game.t) (q : string) : Z :=
  let winner := Placements.first (Game.placements game) in
  let second := Placements.second (Game.placements game) in
  let third := Placements.third (Game.placements game) in
  ((if (q =? winner)%string
    then 4 * burnedCount game
         + (if secondPays game then 1 else 0)
         + (if thirdPays game then 2 else 0)
    else 0)
   - (if burned game q then 4 else 0)
   - (if secondPays game && (q =? second)%string then 1 else 0)
   - (if thirdPays game && (q =? third)%string then 2 else 0))%Z.

(** ** The warnings in the words of the specification *)

(** The number of players who are not burned, the winner included. *)
Definition nonBurnedPlayers (game : Game.t) (players : list Player.t) : nat :=
  length (filter (fun q => negb (burned game q)) (ids players)).

(** The number of players who are neither burned nor the winner. *)
Definition nonBurnedNonWinners (game : Game.t) (players : list Player.t) : nat :=
  length (filter (fun q => negb (burned game q)
                           && negb (q =? Placements.first (Game.placements game)))
                 (ids players)).

(** Slot second is empty, the winner, or burned. *)
Definition secondMissing (game : Game.t) : bool :=
  let winner := Placements.first (Game.placements game) in
  let second := Placements.second (Game.placements game) in
  negb (truthy second) || (second =? winner) || burned game second.

(** Slot third is empty, the winner, equal to second, or burned. *)
Definition thirdMissing (game : Game.t) : bool :=
  let winner := Placements.first (Game.placements game) in
  let second := Placements.second (Game.placements game) in
  let third := Placements.third (Game.placements game) in
  negb (truthy third) || (third =? winner) || (third =? second)
  || burned game third.

(** A manual transfer with [from] equal to [to] or with an empty endpoint. *)
Definition invalidTransfer (entry : Transfer.t) : bool :=
  (Transfer.from entry =? Transfer.to entry)
  || negb (truthy (Transfer.from entry))
  || negb (truthy (Transfer.to entry)).

(** The warnings of the mode-specific step. *)
Definition modeWarnings (game : Game.t) (players : list Player.t) : list string :=
  let winner := Placements.first (Game.placements game) in
  if Game.u game then
    if truthy winner then [] else ["Chưa chọn người Ù"]
  else if existsb (fun entry => truthy (Transfer.from entry)) (Game.chay game) then
    if negb (truthy winner) then ["Cần chọn người thắng để tính cháy"]
    else if burned game winner then ["Người thắng không thể bị cháy"]
    else
      (if (2 <=? nonBurnedPlayers game players)%nat && secondMissing game
       then ["Thiếu người về nhì"] else [])
      ++ (if (3 <=? nonBurnedPlayers game players)%nat && thirdMissing game
          then ["Thiếu người về ba"] else [])
  else if filled4 game then [] else ["Chưa đủ xếp hạng 1-4"].

(** All the warnings of a round, in order. *)
Definition expectedWarnings (game : Game.t) (players : list Player.t) : list string :=
  modeWarnings game players
  ++ repeat "Chuyển điểm chưa hợp lệ"
       (length (filter invalidTransfer (Game.anChot game))).

(** One of the conditions the engine reports holds. *)
Definition flagged (game : Game.t) (players : list Player.t) : bool :=
  let winner := Placements.first (Game.placements game) in
  (if Game.u game then negb (truthy winner)
   else if existsb (fun entry => truthy (Transfer.from entry)) (Game.chay game) then
     negb (truthy winner)
     || burned game winner
     || ((2 <=? nonBurnedPlayers game players)%nat && secondMissing game)
     || ((3 <=? nonBurnedPlayers game players)%nat && thirdMissing game)
   else negb (filled4 game))
  || existsb invalidTransfer (Game.anChot game).

(** ** The invariants of the data model *)

(** Slots and endpoints are player ids or empty, no player holds two
    slots, burns occur only without self-win, the winner is not burned,
    and no burn or manual transfer has [from] equal to [to]. *)
Definition wellFormedRound (players : list Player.t) (game : Game.t) : bool :=
  valid_round players game
  && distinct (filter truthy (picksOf game))
  && negb (Game.u game && (0 <? length (Game.chay game))%nat)
  && negb (burned game (Placements.first (Game.placements game)))
  && forallb (fun entry => negb (Transfer.from entry =? Transfer.to entry))
       (Game.chay game ++ Game.anChot game).

(** Two burn entries that agree on everything but [to] and [points]. *)
Definition sameBurnSource (a b : Transfer.t) : Prop :=
  Transfer.id a = Transfer.id b /\ Transfer.from a = Transfer.from b.

(** Two rounds that agree on everything but the [to] and [points] fields
    of their burn entries. *)
Definition sameButBurnTargets (g1 g2 : Game.t) : Prop :=
  Game.id g1 = Game.id g2
  /\ Game.u g1 = Game.u g2
  /\ Game.placements g1 = Game.placements g2
  /\ Game.anChot g1 = Game.anChot g2
  /\ Forall2 sameBurnSource (Game.chay g1) (Game.chay g2).

(** A command that never removes a key of the score table. *)
Definition keeps_keys (c : Cmd) : Prop :=
  forall k st, In k (map fst (points st)) -> In k (map fst (points (c st))).

(** One round of the outer loop of [sessionTotals]: the summary of one
    round added to the running totals, player by player. *)
Definition addSummary (players : list Player.t) (totals : JsObj.t num)
    (summary : Summary.t) : JsObj.t num :=
  fold_left
    (fun totals player =>
       JsObj.set (Player.id player)
         (nadd (to_num (JsObj.get (Player.id player) totals))
               (nullish (JsObj.get (Player.id player) (Summary.points summary))
                        (Int 0)))
         totals)
    players totals.

(** ** The aggregates in the words of the specification *)

Definition nsum (l : list num) : num := fold_left nadd l (Int 0).

(** [computeGamePoints(game, players).points[p]] as a number. *)
Definition deltaOf (game : Game.t) (players : list Player.t) (p : string) : num :=
  to_num (JsObj.get p (Summary.points (computeGamePoints game players))).

(** [sessionTotals[p]] as a number. *)
Definition totalOf (session : Session.t) (p : string) : num :=
  to_num (JsObj.get p (sessionTotals (Some session))).

(** The label shown when nothing has been counted. *)
Definition noneYet : TopStat.t :=
  {| TopStat.names := ["Chưa có"]; TopStat.count := 0 |}.

(** How many entries of the chosen kind, over all rounds, have [q] as
    their [from] side. *)
Definition timesFrom (kind : Game.t -> list Transfer.t) (games : list Game.t)
    (q : string) : Z :=
  Z.of_nat (length (filter (fun entry => Transfer.from entry =? q)
                           (flat_map kind games))).

(** The largest count over the players, 0 when there is none. *)
Definition maxTimes (kind : Game.t -> list Transfer.t) (games : list Game.t)
    (players : list Player.t) : Z :=
  fold_left Z.max (map (timesFrom kind games) (ids players)) 0%Z.

(** The names of all the players whose count is the largest. *)
Definition tiedNames (kind : Game.t -> list Transfer.t) (games : list Game.t)
    (players : list Player.t) : list string :=
  map Player.name
    (filter (fun player =>
               (timesFrom kind games (Player.id player) =? maxTimes kind games players)%Z)
            players).

(** What the specification says of one "top" statistic. *)
Definition topStatSpec (kind : Game.t -> list Transfer.t) (games : list Game.t)
    (players : list Player.t) (r : TopStat.t) : Prop :=
  (maxTimes kind games players = 0%Z -> r = noneYet)
  /\ (maxTimes kind games players <> 0%Z ->
      TopStat.count r = maxTimes kind games players
      /\ Permutation (TopStat.names r) (tiedNames kind games players))
  /\ ((forall game, In game games -> kind game = []) -> r = noneYet).

(** Players with distinct non-empty ids and non-empty names. *)
Definition namedPlayers (players : list Player.t) : bool :=
  distinct (ids players)
  && forallb truthy (ids players)
  && forallb (fun player => truthy (Player.name player)) players.

(** Every [from] of the chosen kind is a player id or empty. *)
Definition validSources (kind : Game.t -> list Transfer.t)
    (players : list Player.t) (games : list Game.t) : bool :=
  forallb (fun entry => valid_id players (Transfer.from entry))
          (flat_map kind games).

(** The counting loop of [funStats] for one kind of entry. *)
Definition countsOf (kind : Game.t -> list Transfer.t) (session : Session.t)
  : JsObj.t Z :=
  fold_left (fun counts game => fold_left countFrom (kind game) counts)
    (Session.games session)
    (JsObj.fromEntries
       (map (fun player => (Player.id player, 0%Z)) (Session.players session))).

Definition sampleSession : Session.t :=
  {| Session.id := "s1";
     Session.name := "Phiên 01";
     Session.players := seats;
     Session.games :=
       [ round false (slots "p1" "p3" "p4" "") [transfer "t1" "p3" "p1" 4]
           [transfer "c1" "p2" "p1" 4];
         round false (slots "p1" "" "p4" "") [transfer "t2" "p4" "p1" 4]
           [transfer "c2" "p2" "p1" 4; transfer "c3" "p3" "p1" 4] ];
     Session.currentGameIndex := 1;
     Session.createdAt := 0 |}.

(** ** Round editing: the updaters that write the burn list *)

Module PlacementKey.
Inductive t : Type := first | second | third | fourth.
End PlacementKey.

(** [{ ...placements, [key]: value }] *)
Definition setPlacement (placements : Placements.t) (key : PlacementKey.t)
    (value : string) : Placements.t :=
  match key with
  | PlacementKey.first =>
      {| Placements.first := value;
         Placements.second := Placements.second placements;
         Placements.third := Placements.third placements;
         Placements.fourth := Placements.fourth placements |}
  | PlacementKey.second =>
      {| Placements.first := Placements.first placements;
         Placements.second := value;
         Placements.third := Placements.third placements;
         Placements.fourth := Placements.fourth placements |}
  | PlacementKey.third =>
      {| Placements.first := Placements.first placements;
         Placements.second := Placements.second placements;
         Placements.third := value;
         Placements.fourth := Placements.fourth placements |}
  | PlacementKey.fourth =>
      {| Placements.first := Placements.first placements;
         Placements.second := Placements.second placements;
         Placements.third := Placements.third placements;
         Placements.fourth := value |}
  end.

(** The updater of [clearPlacement]: the slot is emptied and the burn
    list is left as it is. *)
Definition clearPlacement (current : Game.t) (key : PlacementKey.t) : Game.t :=
  {| Game.id := Game.id current;
     Game.u := Game.u current;
     Game.placements := setPlacement (Game.placements current) key "";
     Game.anChot := Game.anChot current;
     Game.chay := Game.chay current |}.

(** [handleDropChay] on the current round; [newId] stands for the result
    of [makeId()]. *)
Definition handleDropChay (newId : string) (game : Game.t) (playerId : string)
  : Game.t :=
  if Game.u game || (playerId =? Placements.first (Game.placements game)) then game
  else if existsb (fun item => Transfer.from item =? playerId) (Game.chay game)
  then game
  else
    let keep := fun slot => if slot =? playerId then "" else slot in
    {| Game.id := Game.id game;
       Game.u := Game.u game;
       Game.placements :=
         {| Placements.first := Placements.first (Game.placements game);
            Placements.second := keep (Placements.second (Game.placements game));
            Placements.third := keep (Placements.third (Game.placements game));
            Placements.fourth := keep (Placements.fourth (Game.placements game)) |};
       Game.anChot := Game.anChot game;
       Game.chay :=
         Game.chay game
         ++ [ {| Transfer.id := newId;
                 Transfer.from := playerId;
                 Transfer.to := Placements.first (Game.placements game);
                 Transfer.points := 4 |} ] |}.

(** Every burn entry rewritten to pay [target] the amount [amount]. *)
Definition retargetChay (target : string) (amount : Z) (game : Game.t) : Game.t :=
  {| Game.id := Game.id game;
     Game.u := Game.u game;
     Game.placements := Game.placements game;
     Game.anChot := Game.anChot game;
     Game.chay :=
       map (fun item =>
              {| Transfer.id := Transfer.id item;
                 Transfer.from := Transfer.from item;
                 Transfer.to := target;
                 Transfer.points := amount |})
           (Game.chay game) |}.

(** ** Integer view of a score table *)

Definition is_int (v : num) : bool :=
  match v with
  | Int _ => true
  | NaN => false
  end.

Definition zval (v : num) : Z :=
  match v with
  | Int z => z
  | NaN => 0%Z
  end.

Definition all_int (o : JsObj.t num) : bool :=
  forallb (fun kv => is_int (snd kv)) o.

Definition zsum (o : JsObj.t num) : Z :=
  fold_right (fun kv acc => (zval (snd kv) + acc)%Z) 0%Z o.

(** A score table over the keys [K] whose integer entries add up to [c]. *)
Definition Bal (K : list string) (c : Z) (st : St) : Prop :=
  map fst (points st) = K /\ all_int (points st) = true /\ zsum (points st) = c.

(** ** Round editing: the remaining updaters *)

Definition getPlacement (placements : Placements.t) (key : PlacementKey.t) : string :=
  match key with
  | PlacementKey.first => Placements.first placements
  | PlacementKey.second => Placements.second placements
  | PlacementKey.third => Placements.third placements
  | PlacementKey.fourth => Placements.fourth placements
  end.

Definition keyEqb (a b : PlacementKey.t) : bool :=
  match a, b with
  | PlacementKey.first, PlacementKey.first => true
  | PlacementKey.second, PlacementKey.second => true
  | PlacementKey.third, PlacementKey.third => true
  | PlacementKey.fourth, PlacementKey.fourth => true
  | _, _ => false
  end.

(** [Object.keys(placements)] of a round made by [createGame]. *)
Definition placementKeys : list PlacementKey.t :=
  [ PlacementKey.first; PlacementKey.second; PlacementKey.third; PlacementKey.fourth ].

(** [createGame()]; [newId] stands for the result of [makeId()]. *)
Definition createGame (newId : string) : Game.t :=
  {| Game.id := newId;
     Game.u := false;
     Game.placements :=
       {| Placements.first := ""; Placements.second := "";
          Placements.third := ""; Placements.fourth := "" |};
     Game.anChot := [];
     Game.chay := [] |}.

(** The updater of [handleDropPlacement] (lines 568-580). *)
Definition handleDropPlacement (current : Game.t) (key : PlacementKey.t)
    (playerId : string) : Game.t :=
  let placements :=
    fold_left
      (fun placements placementKey =>
         if negb (keyEqb placementKey key)
            && (getPlacement placements placementKey =? playerId)
         then setPlacement placements placementKey ""
         else placements)
      placementKeys
      (setPlacement (Game.placements current) key playerId) in
  let chay :=
    filter (fun item => negb (Transfer.from item =? playerId)) (Game.chay current) in
  let updatedChay :=
    if keyEqb key PlacementKey.first
    then map (fun item =>
                {| Transfer.id := Transfer.id item;
                   Transfer.from := Transfer.from item;
                   Transfer.to := playerId;
                   Transfer.points := Transfer.points item |})
             chay
    else chay in
  {| Game.id := Game.id current;
     Game.u := Game.u current;
     Game.placements := placements;
     Game.anChot := Game.anChot current;
     Game.chay := updatedChay |}.

(** The updater of [removeChayPlayer] (lines 613-616). *)
Definition removeChayPlayer (current : Game.t) (playerId : string) : Game.t :=
  {| Game.id := Game.id current;
     Game.u := Game.u current;
     Game.placements := Game.placements current;
     Game.anChot := Game.anChot current;
     Game.chay :=
       filter (fun item => negb (Transfer.from item =? playerId)) (Game.chay current) |}.

(** The updater of the self-win checkbox (lines 826-830). *)
Definition toggleU (current : Game.t) (checked : bool) : Game.t :=
  {| Game.id := Game.id current;
     Game.u := checked;
     Game.placements := Game.placements current;
     Game.anChot := Game.anChot current;
     Game.chay := if checked then [] else Game.chay current |}.

(** The updater of the self-win winner select (lines 851-857). *)
Definition selectWinner (current : Game.t) (value : string) : Game.t :=
  {| Game.id := Game.id current;
     Game.u := Game.u current;
     Game.placements :=
       {| Placements.first := value;
          Placements.second := Placements.second (Game.placements current);
          Placements.third := Placements.third (Game.placements current);
          Placements.fourth := Placements.fourth (Game.placements current) |};
     Game.anChot := Game.anChot current;
     Game.chay := Game.chay current |}.

Definition getDistinctPlayer (players : list Player.t) (exclude : string) : string :=
  match find (fun player => negb (Player.id player =? exclude)) players with
  | Some player => Player.id player
  | None => exclude
  end.

(** [createTransfer]; [None] is the [TypeError] of [players[0].id] on an
    empty list, which is reached only when the operand before it is
    falsy. *)
Definition createTransfer (newId : string) (players : list Player.t) (game : Game.t)
  : option Transfer.t :=
  let first0 := option_map Player.id (nth_error players 0) in
  match (if truthy (Placements.first (Game.placements game))
         then Some (Placements.first (Game.placements game))
         else first0) with
  | None => None
  | Some winner =>
      match (if truthy (Placements.fourth (Game.placements game))
             then Some (Placements.fourth (Game.placements game))
             else match nth_error players 3 with
                  | Some player =>
                      if truthy (Player.id player) then Some (Player.id player)
                      else first0
                  | None => first0
                  end) with
      | None => None
      | Some from =>
          Some {| Transfer.id := newId;
                  Transfer.from := from;
                  Transfer.to := if from =? winner
                                 then getDistinctPlayer players from
                                 else winner;
                  Transfer.points := 4 |}
      end
  end.

(** The updaters of the manual transfer list (lines 988-991, 1021-1028,
    1058-1065, 1093-1096). *)
Definition setTransferFrom (current : Game.t) (transferId value : string) : Game.t :=
  {| Game.id := Game.id current;
     Game.u := Game.u current;
     Game.placements := Game.placements current;
     Game.anChot :=
       map (fun item =>
              if Transfer.id item =? transferId
              then {| Transfer.id := Transfer.id item;
                      Transfer.from := value;
                      Transfer.to := Transfer.to item;
                      Transfer.points := Transfer.points item |}
              else item)
           (Game.anChot current);
     Game.chay := Game.chay current |}.

Definition setTransferTo (current : Game.t) (transferId value : string) : Game.t :=
  {| Game.id := Game.id current;
     Game.u := Game.u current;
     Game.placements := Game.placements current;
     Game.anChot :=
       map (fun item =>
              if Transfer.id item =? transferId
              then {| Transfer.id := Transfer.id item;
                      Transfer.from := Transfer.from item;
                      Transfer.to := value;
                      Transfer.points := Transfer.points item |}
              else item)
           (Game.anChot current);
     Game.chay := Game.chay current |}.

Definition removeTransfer (current : Game.t) (transferId : string) : Game.t :=
  {| Game.id := Game.id current;
     Game.u := Game.u current;
     Game.placements := Game.placements current;
     Game.anChot :=
       filter (fun item => negb (Transfer.id item =? transferId)) (Game.anChot current);
     Game.chay := Game.chay current |}.

Definition addTransfer (newId : string) (players : list Player.t) (current : Game.t)
  : option Game.t :=
  match createTransfer newId players current with
  | None => None
  | Some created =>
      Some {| Game.id := Game.id current;
              Game.u := Game.u current;
              Game.placements := Game.placements current;
              Game.anChot := Game.anChot current ++ [created];
              Game.chay := Game.chay current |}
  end.

(** ** The edits the round screen offers *)

Inductive Edit : Type :=
| DropPlacement (key : PlacementKey.t) (playerId : string)
| DropChay (newId : string) (playerId : string)
| ClearPlacement (key : PlacementKey.t)
| RemoveChay (playerId : string)
| ToggleU (checked : bool)
| SelectWinner (value : string)
| AddTransfer (newId : string)
| SetTransferFrom (transferId value : string)
| SetTransferTo (transferId value : string)
| RemoveTransfer (transferId : string).

(** What the screen renders for the round: the drag-and-drop zones, their
    chips and trash buttons only without self-win, the winner select only
    with self-win; chips and select options carry ids of the session's
    players. *)
Definition offered (players : list Player.t) (game : Game.t) (edit : Edit) : bool :=
  match edit with
  | DropPlacement _ playerId => negb (Game.u game) && mem playerId (ids players)
  | DropChay _ playerId => negb (Game.u game) && mem playerId (ids players)
  | ClearPlacement _ => negb (Game.u game)
  | RemoveChay playerId => negb (Game.u game) && mem playerId (ids players)
  | ToggleU _ => true
  | SelectWinner value => Game.u game && mem value (ids players)
  | AddTransfer _ => true
  | SetTransferFrom _ value => mem value (ids players)
  | SetTransferTo _ value => mem value (ids players)
  | RemoveTransfer _ => true
  end.

Definition applyEdit (players : list Player.t) (game : Game.t) (edit : Edit)
  : option Game.t :=
  match edit with
  | DropPlacement key playerId => Some (handleDropPlacement game key playerId)
  | DropChay newId playerId => Some (handleDropChay newId game playerId)
  | ClearPlacement key => Some (clearPlacement game key)
  | RemoveChay playerId => Some (removeChayPlayer game playerId)
  | ToggleU checked => Some (toggleU game checked)
  | SelectWinner value => Some (selectWinner game value)
  | AddTransfer newId => addTransfer newId players game
  | SetTransferFrom transferId value => Some (setTransferFrom game transferId value)
  | SetTransferTo transferId value => Some (setTransferTo game transferId value)
  | RemoveTransfer transferId => Some (removeTransfer game transferId)
  end.

(** A sequence of edits, each one offered in the state it is applied to. *)
Fixpoint applyEdits (players : list Player.t) (edits : list Edit) (game : Game.t)
  : option Game.t :=
  match edits with
  | [] => Some game
  | edit :: rest =>
      if offered players game edit
      then match applyEdit players game edit with
           | Some next => applyEdits players rest next
           | None => None
           end
      else None
  end.

(** What the edits keep true of a round. *)
Definition edited (players : list Player.t) (game : Game.t) : Prop :=
  valid_round players game = true
  /\ (Game.u game = true -> Game.chay game = [])
  /\ (forall slot, In slot (picksOf game) -> burned game slot = false)
  /\ NoDup (map Transfer.from (Game.chay game)).

(** A sample of edits: ranks, two burns, a manual transfer, a cleared
    winner and a visit to self-win mode. *)
Definition sampleEdits : list Edit :=
  [ DropPlacement PlacementKey.first "p1";
    DropPlacement PlacementKey.second "p2";
    DropChay "c1" "p2";
    DropChay "c2" "p3";
    DropPlacement PlacementKey.third "p4";
    AddTransfer "t1";
    SetTransferTo "t1" "p4";
    ClearPlacement PlacementKey.first;
    ToggleU true;
    SelectWinner "p2";
    ToggleU false ].

(** No player holds two ranking slots. *)
Definition exclusive (game : Game.t) : Prop :=
  forall k1 k2,
    k1 <> k2 ->
    truthy (getPlacement (Game.placements game) k1) = true ->
    getPlacement (Game.placements game) k1 <> getPlacement (Game.placements game) k2.

(** ** Net effect of the manual transfers *)

(** What the accepted manual transfers bring to [q]: the amounts sent to
    [q] minus the amounts sent by [q]. *)
Definition netTransfers (entries : list Transfer.t) (q : string) : Z :=
  fold_right
    (fun entry acc =>
       (acc
        + (if invalidTransfer entry then 0
           else (if (q =? Transfer.to entry)%string then Transfer.points entry else 0)
                - (if (q =? Transfer.from entry)%string then Transfer.points entry
                   else 0)))%Z)
    0%Z entries.

(** The session with another list of rounds. *)
Definition withGames (session : Session.t) (games : list Game.t) : Session.t :=
  {| Session.id := Session.id session;
     Session.name := Session.name session;
     Session.players := Session.players session;
     Session.games := games;
     Session.currentGameIndex := Session.currentGameIndex session;
     Session.createdAt := Session.createdAt session |}.

(** The round the sample edits build, and a session that holds it. *)
Definition editedRound : Game.t :=
  Eval cbv in
    match applyEdits seats sampleEdits (createGame "g1") with
    | Some game => game
    | None => createGame "g1"
    end.

Definition editedSession : Session.t :=
  {| Session.id := "s2";
     Session.name := "Phiên 02";
     Session.players := seats;
     Session.games := [editedRound; createGame "g2"];
     Session.currentGameIndex := 0;
     Session.createdAt := 0 |}.

(** ** Drop targets *)

Definition DROP_CHAY_ID : string := "drop-chay".

Definition keyName (key : PlacementKey.t) : string :=
  match key with
  | PlacementKey.first => "first"
  | PlacementKey.second => "second"
  | PlacementKey.third => "third"
  | PlacementKey.fourth => "fourth"
  end.

Definition placementDropId (key : PlacementKey.t) : string :=
  ("placement-" ++ keyName key)%string.

(** [s.replace(pattern, replacement)] with a string pattern: the first
    occurrence only; the replacement is taken as it is (no [$] pattern). *)
Fixpoint replaceFirst (pattern replacement s : string) : string :=
  if String.prefix pattern s
  then (replacement ++ substring (String.length pattern)
                         (String.length s - String.length pattern) s)%string
  else match s with
       | EmptyString => EmptyString
       | String c rest => String c (replaceFirst pattern replacement rest)
       end.

(** [["first", "second", "third", "fourth"].includes(key)], with the key
    it names. *)
Definition keyOfName (name : string) : option PlacementKey.t :=
  find (fun key => keyName key =? name) placementKeys.

Module DropTarget.
Inductive t : Type :=
| placement (key : PlacementKey.t)
| chay.
End DropTarget.

Definition parseDropTarget (id : string) : option DropTarget.t :=
  if id =? DROP_CHAY_ID then Some DropTarget.chay
  else if String.prefix "placement-" id
       then match keyOfName (replaceFirst "placement-" "" id) with
            | Some key => Some (DropTarget.placement key)
            | None => None
            end
       else None.

(** The part of [handleDragEndEvent] that changes the round: [over] is
    the id of the zone under the chip, if any. *)
Definition handleDragEnd (newId : string) (currentGame : Game.t)
    (over : option string) (playerId : string) : Game.t :=
  match over with
  | None => currentGame
  | Some overId =>
      match parseDropTarget overId with
      | None => currentGame
      | Some (DropTarget.placement key) => handleDropPlacement currentGame key playerId
      | Some DropTarget.chay => handleDropChay newId currentGame playerId
      end
  end.

(** ** Sessions: rounds and cursor *)

Fixpoint findIndexFrom {A : Type} (f : A -> bool) (l : list A) (i : Z) : Z :=
  match l with
  | [] => (-1)%Z
  | x :: r => if f x then i else findIndexFrom f r (i + 1)%Z
  end.

(** [l.findIndex(f)] *)
Definition findIndex {A : Type} (f : A -> bool) (l : list A) : Z :=
  findIndexFrom f l 0%Z.

(** [activeSession.games[activeSession.currentGameIndex]] *)
Definition currentGame (session : Session.t) : option Game.t :=
  if (Session.currentGameIndex session <? 0)%Z then None
  else nth_error (Session.games session) (Z.to_nat (Session.currentGameIndex session)).

Definition withCursor (session : Session.t) (games : list Game.t) (index : Z)
  : Session.t :=
  {| Session.id := Session.id session;
     Session.name := Session.name session;
     Session.players := Session.players session;
     Session.games := games;
     Session.currentGameIndex := index;
     Session.createdAt := Session.createdAt session |}.

(** The updater of [addGame] (lines 527-534). *)
Definition addGame (newId : string) (session : Session.t) : Session.t :=
  let games := Session.games session ++ [createGame newId] in
  withCursor session games (Z.of_nat (length games) - 1)%Z.

(** The updater of [removeGame] (lines 541-561). *)
Definition removeGame (session : Session.t) (gameId : string) : Session.t :=
  if (length (Session.games session) =? 1)%nat then session
  else
    let removedIndex :=
      findIndex (fun game => Game.id game =? gameId) (Session.games session) in
    let nextGames :=
      filter (fun game => negb (Game.id game =? gameId)) (Session.games session) in
    let nextIndex := Session.currentGameIndex session in
    let nextIndex :=
      if negb (removedIndex =? -1)%Z
      then if (nextIndex >? removedIndex)%Z then (nextIndex - 1)%Z
           else if (nextIndex =? removedIndex)%Z then Z.max 0 (nextIndex - 1)
                else nextIndex
      else nextIndex in
    let nextIndex := Z.min nextIndex (Z.of_nat (length nextGames) - 1) in
    withCursor session nextGames nextIndex.

Definition canGoPrev (session : Session.t) : bool :=
  (Session.currentGameIndex session >? 0)%Z.

Definition canGoNext (session : Session.t) : bool :=
  (Session.currentGameIndex session <? Z.of_nat (length (Session.games session)) - 1)%Z.

(** The updater of the "previous" button (lines 1250-1254). *)
Definition goPrev (session : Session.t) : Session.t :=
  withCursor session (Session.games session)
    (Z.max 0 (Session.currentGameIndex session - 1)).

(** The "next" button (lines 1265-1277): one step forward, or a new
    round after the last one. *)
Definition nextButton (newId : string) (session : Session.t) : Session.t :=
  if canGoNext session
  then withCursor session (Session.games session)
         (Z.min (Z.of_nat (length (Session.games session)) - 1)
                (Session.currentGameIndex session + 1))
  else addGame newId session.

(** The updater of "Làm lại phiên" (lines 1228-1232). *)
Definition resetSession (newId : string) (session : Session.t) : Session.t :=
  withCursor session [createGame newId] 0.

(** The updater that [updateGame] hands to [updateSession] (lines
    517-520). *)
Definition updateGame (session : Session.t) (gameId : string)
    (updater : Game.t -> Game.t) : Session.t :=
  withCursor session
    (map (fun game => if Game.id game =? gameId then updater game else game)
         (Session.games session))
    (Session.currentGameIndex session).

(** [updateSession] on the list of sessions (line 406). *)
Definition updateSession (sessions : list Session.t) (id : string)
    (updater : Session.t -> Session.t) : list Session.t :=
  map (fun session => if Session.id session =? id then updater session else session)
      sessions.

(** What the session screen does to the list of rounds. *)
Inductive SessionEdit : Type :=
| AddGame (newId : string)
| RemoveGame (gameId : string)
| GoPrev
| NextButton (newId : string)
| ResetSession (newId : string)
| UpdateCurrent (updater : Game.t -> Game.t).

(** Ids made by [makeId()] are new, and an updater spreads its round, so
    it keeps the id. *)
Definition sessionOffered (session : Session.t) (edit : SessionEdit) : Prop :=
  match edit with
  | AddGame newId | NextButton newId =>
      ~ In newId (map Game.id (Session.games session))
  | UpdateCurrent updater => forall game, Game.id (updater game) = Game.id game
  | _ => True
  end.

Definition applySessionEdit (session : Session.t) (edit : SessionEdit) : Session.t :=
  match edit with
  | AddGame newId => addGame newId session
  | RemoveGame gameId => removeGame session gameId
  | GoPrev => goPrev session
  | NextButton newId => nextButton newId session
  | ResetSession newId => resetSession newId session
  | UpdateCurrent updater =>
      match currentGame session with
      | Some game => updateGame session (Game.id game) updater
      | None => session
      end
  end.

(** The rounds have distinct ids and the cursor points at one of them. *)
Definition cursorValid (session : Session.t) : Prop :=
  NoDup (map Game.id (Session.games session))
  /\ (0 <= Session.currentGameIndex session
      < Z.of_nat (length (Session.games session)))%Z.

(** ** Players and sessions as they are created *)

(** [String(n)] for a natural number. *)
Definition String_of_nat (n : nat) : string :=
  NilEmpty.string_of_uint (Nat.to_uint n).

(** [s.padStart(targetLength, fill)] *)
Definition padStart (targetLength : nat) (fill s : string) : string :=
  let fillLen := (targetLength - String.length s)%nat in
  if (fillLen =? 0)%nat || (fill =? "") then s
  else (substring 0 fillLen (String.concat "" (repeat fill fillLen)) ++ s)%string.

Fixpoint mapi_from {A B : Type} (f : A -> nat -> B) (l : list A) (index : nat)
  : list B :=
  match l with
  | [] => []
  | x :: r => f x index :: mapi_from f r (S index)
  end.

(** [l.map((x, index) => f(x, index))] *)
Definition mapi {A B : Type} (f : A -> nat -> B) (l : list A) : list B :=
  mapi_from f l 0.

Section Names.

(** [String.prototype.trim], left abstract: what follows holds whatever
    it removes. *)
Variable trim : string -> string.

(** [names?.[index]?.trim() || fallback] *)
Definition trimmedOr (names : option (list string)) (index : nat) (fallback : string)
  : string :=
  match names with
  | None => fallback
  | Some l =>
      match nth_error l index with
      | None => fallback
      | Some name => if truthy (trim name) then trim name else fallback
      end
  end.

Definition createPlayers (names : option (list string)) : list Player.t :=
  mapi (fun id index =>
          {| Player.id := id;
             Player.name :=
               trimmedOr names index
                 ("Người chơi " ++ String_of_nat (index + 1))%string |})
       ["p1"; "p2"; "p3"; "p4"].

(** [createSession]; [sessionId] and [gameId] stand for the two results
    of [makeId()], [now] for [Date.now()]. *)
Definition createSession (sessionId gameId : string) (now : Z) (index : nat)
    (names : option (list string)) : Session.t :=
  {| Session.id := sessionId;
     Session.name := ("Phiên " ++ padStart 2 "0" (String_of_nat index))%string;
     Session.players := createPlayers names;
     Session.games := [createGame gameId];
     Session.currentGameIndex := 0;
     Session.createdAt := now |}.

(** The updater of [saveEditSession] (lines 429-435). *)
Definition saveEditSession (editNames : list string) (session : Session.t)
  : Session.t :=
  {| Session.id := Session.id session;
     Session.name := Session.name session;
     Session.players :=
       mapi (fun player index =>
               {| Player.id := Player.id player;
                  Player.name :=
                    trimmedOr (Some editNames) index (Player.name player) |})
            (Session.players session);
     Session.games := Session.games session;
     Session.currentGameIndex := Session.currentGameIndex session;
     Session.createdAt := Session.createdAt session |}.

End Names.

(** The id of the zone of a target. *)
Definition dropId (target : DropTarget.t) : string :=
  match target with
  | DropTarget.placement key => placementDropId key
  | DropTarget.chay => DROP_CHAY_ID
  end.

(** A run of session edits, each one offered in the session it meets. *)
Definition applySessionEdits (session : Session.t) (edits : list SessionEdit)
  : Session.t :=
  fold_left applySessionEdit edits session.

Fixpoint sessionEditsOffered (session : Session.t) (edits : list SessionEdit) : Prop :=
  match edits with
  | [] => True
  | edit :: rest =>
      sessionOffered session edit
      /\ sessionEditsOffered (applySessionEdit session edit) rest
  end.

(** ** The session screen as a whole *)

(** The updater an edit of the current round hands to [updateGame].
    [createTransfer] raises when there is no player at all; the round is
    then left as it is. *)
Definition roundEdit (players : list Player.t) (edit : Edit) : Game.t -> Game.t :=
  fun current =>
    match applyEdit players current edit with
    | Some next => next
    | None => current
    end.

(** What can be done on the session screen: change the list of rounds or
    the cursor, or edit the current round. *)
Inductive ScreenEdit : Type :=
| OnRounds (edit : SessionEdit)
| OnCurrent (edit : Edit).

(** The edits of the current round come in through [OnCurrent], each
    one offered by the round on screen. *)
Definition screenOffered (session : Session.t) (edit : ScreenEdit) : Prop :=
  match edit with
  | OnRounds (UpdateCurrent _) => False
  | OnRounds edit => sessionOffered session edit
  | OnCurrent edit =>
      exists game,
        currentGame session = Some game
        /\ offered (Session.players session) game edit = true
  end.

Definition applyScreenEdit (session : Session.t) (edit : ScreenEdit) : Session.t :=
  match edit with
  | OnRounds edit => applySessionEdit session edit
  | OnCurrent edit =>
      applySessionEdit session
        (UpdateCurrent (roundEdit (Session.players session) edit))
  end.

Definition applyScreenEdits (session : Session.t) (edits : list ScreenEdit)
  : Session.t :=
  fold_left applyScreenEdit edits session.

Fixpoint screenEditsOffered (session : Session.t) (edits : list ScreenEdit) : Prop :=
  match edits with
  | [] => True
  | edit :: rest =>
      screenOffered session edit
      /\ screenEditsOffered (applyScreenEdit session edit) rest
  end.

(** What the screen keeps true of a session. *)
Definition sessionEdited (session : Session.t) : Prop :=
  cursorValid session
  /\ forall game, In game (Session.games session) ->
       edited (Session.players session) game.

(** [startEditSession]: the names the editor opens with. *)
Definition startEditSession (session : Session.t) : list string :=
  map Player.name (Session.players session).

(** ** The list of sessions *)

(** [sessions.find((session) => session.id === activeSessionId) ?? null];
    [null] is the id of no session. *)
Definition activeSession (sessions : list Session.t) (activeSessionId : option string)
  : option Session.t :=
  match activeSessionId with
  | None => None
  | Some id => find (fun session => Session.id session =? id) sessions
  end.

(** [createNewSession]: the new list of sessions and the new
    [activeSessionId]; [newSessionNames] is the state of the four name
    fields. *)
Definition createNewSession (trim : string -> string) (sessionId gameId : string)
    (now : Z) (newSessionNames : list string) (sessions : list Session.t)
  : list Session.t * option string :=
  let nextIndex := (length sessions + 1)%nat in
  let session :=
    createSession trim sessionId gameId now nextIndex (Some newSessionNames) in
  (sessions ++ [session], Some (Session.id session)).

(** ** The engine with JavaScript's numbers and property lookup *)

Module Double.

(** A [number] that holds an integer, an infinity or [NaN].  [Fin z] is
    a double when [z] has a significand of at most 53 bits and is below
    [2^1024] in absolute value; the results of [ofZ], [add] and [sub]
    are of this kind.  The two zeros are one value: the engine starts
    from [+0] and can never tell them apart. *)
Inductive t : Type :=
| Fin (z : Z)
| PosInf
| NegInf
| NaN.

(** The nearest integer with a significand of 53 bits, ties to the even
    significand. *)
Definition round53 (z : Z) : Z :=
  let a := Z.abs z in
  if (a <? 2 ^ 53)%Z then z
  else
    let ulp := (2 ^ (Z.log2 a - 52))%Z in
    let q := (a / ulp)%Z in
    let r := (a mod ulp)%Z in
    let q' :=
      if (2 * r <? ulp)%Z then q
      else if (ulp <? 2 * r)%Z then (q + 1)%Z
           else if Z.even q then q else (q + 1)%Z in
    (Z.sgn z * (q' * ulp))%Z.

(** Rounding to a double: what rounds to [2^1024] or beyond is an
    infinity. *)
Definition ofZ (z : Z) : t :=
  let y := round53 z in
  if (2 ^ 1024 <=? Z.abs y)%Z
  then if (0 <? y)%Z then PosInf else NegInf
  else Fin y.

Definition neg (a : t) : t :=
  match a with
  | Fin z => Fin (- z)
  | PosInf => NegInf
  | NegInf => PosInf
  | NaN => NaN
  end.

(** [a + b] on numbers. *)
Definition add (a b : t) : t :=
  match a, b with
  | NaN, _ => NaN
  | _, NaN => NaN
  | Fin x, Fin y => ofZ (x + y)
  | PosInf, NegInf => NaN
  | NegInf, PosInf => NaN
  | PosInf, _ => PosInf
  | _, PosInf => PosInf
  | NegInf, _ => NegInf
  | _, NegInf => NegInf
  end.

(** [a - b] on numbers. *)
Definition sub (a b : t) : t := add a (neg b).

End Double.

Module Js.

(** What a property of the score table can hold, and what a read of it
    can give.  [Inherited] is a member of [Object.prototype] (a built-in
    function, or the prototype itself for [__proto__]).  [Str] is a
    string made by [+] from such a member: it holds the member's text
    ([function toString() { [native code] }], [[object Object]]), which
    depends on the host and is never the text of a number. *)
Inductive value : Type :=
| Undefined
| Num (d : Double.t)
| Str
| Inherited.

Definition ToNumber (v : value) : Double.t :=
  match v with
  | Num d => d
  | Undefined => Double.NaN
  | Str => Double.NaN
  | Inherited => Double.NaN
  end.

(** [a + b]: concatenation as soon as one side is not a number or
    [undefined]. *)
Definition plus (a b : value) : value :=
  match a, b with
  | Str, _ => Str
  | Inherited, _ => Str
  | _, Str => Str
  | _, Inherited => Str
  | _, _ => Num (Double.add (ToNumber a) (ToNumber b))
  end.

(** [a - b] *)
Definition minus (a b : value) : value :=
  Num (Double.sub (ToNumber a) (ToNumber b)).

(** [v ?? d] *)
Definition nullish (v d : value) : value :=
  match v with
  | Undefined => d
  | _ => v
  end.

(** The property names of [Object.prototype]. *)
Definition prototypeNames : list string :=
  [ "constructor"; "__defineGetter__"; "__defineSetter__"; "hasOwnProperty";
    "__lookupGetter__"; "__lookupSetter__"; "isPrototypeOf";
    "propertyIsEnumerable"; "toString"; "valueOf"; "__proto__";
    "toLocaleString" ].

Definition inherited (k : string) : bool :=
  existsb (String.eqb k) prototypeNames.

(** An object literal or the result of [Object.fromEntries]: its own
    properties; its prototype is [Object.prototype]. *)
Definition obj : Type := JsObj.t value.

(** [o[k]]: the own property, else the member of [Object.prototype] of
    that name, else [undefined]. *)
Definition get (k : string) (o : obj) : value :=
  match JsObj.get k o with
  | Some v => v
  | None => if inherited k then Inherited else Undefined
  end.

(** [o[k] = v] for a number or a string [v]: an own property is
    overwritten; otherwise the name [__proto__] reaches the setter of
    [Object.prototype], which ignores such a value, and any other name
    becomes a new own property. *)
Definition set (k : string) (v : value) (o : obj) : obj :=
  match JsObj.get k o with
  | Some _ => JsObj.set k v o
  | None => if k =? "__proto__" then o else JsObj.set k v o
  end.

Record St : Type := { points : obj; warnings : list string }.

Definition Cmd : Type := St -> St.

Definition skip : Cmd := fun st => st.

Definition seq (a b : Cmd) : Cmd := fun st => b (a st).

Definition when (c : bool) (body : Cmd) : Cmd := if c then body else skip.

Definition forEach {A : Type} (l : list A) (body : A -> Cmd) : Cmd :=
  fun st => fold_left (fun s x => body x s) l st.

(** [warnings.push(w)] *)
Definition push (w : string) : Cmd :=
  fun st => {| points := points st; warnings := warnings st ++ [w] |}.

(** [points[k] = n] *)
Definition assign (k : string) (v : value) : Cmd :=
  fun st => {| points := set k v (points st); warnings := warnings st |}.

(** [points[k] -= n] *)
Definition sub_assign (k : string) (n : Z) : Cmd :=
  fun st => assign k (minus (get k (points st)) (Num (Double.ofZ n))) st.

(** [points[k] += n] *)
Definition add_assign (k : string) (n : Z) : Cmd :=
  fun st => assign k (plus (get k (points st)) (Num (Double.ofZ n))) st.

Definition applyTransfer (transfer : Transfer.t) : Cmd :=
  if negb (truthy (Transfer.from transfer))
     || negb (truthy (Transfer.to transfer))
     || (Transfer.from transfer =? Transfer.to transfer)
  then push "Chuyển điểm chưa hợp lệ"
  else seq (sub_assign (Transfer.from transfer) (Transfer.points transfer))
           (add_assign (Transfer.to transfer) (Transfer.points transfer)).

(** The branch taken when [game.u] holds. *)
Definition scoreU (game : Game.t) (players : list Player.t) : Cmd :=
  let winner := Placements.first (Game.placements game) in
  if negb (truthy winner) then push "Chưa chọn người Ù"
  else forEach players (fun player =>
         assign (Player.id player)
           (Num (Double.Fin (if Player.id player =? winner then 15 else (-5))))).

(** The branch taken when [hasChay] holds. *)
Definition scoreChay (game : Game.t) (players : list Player.t) : Cmd :=
  let winner := Placements.first (Game.placements game) in
  let chaySet := chaySetOf game in
  if negb (truthy winner) then push "Cần chọn người thắng để tính cháy"
  else if Set_has winner chaySet then push "Người thắng không thể bị cháy"
  else
    seq (forEach chaySet (fun playerId =>
           if playerId =? winner then skip
           else seq (sub_assign playerId 4) (add_assign winner 4)))
    (let second := Placements.second (Game.placements game) in
     let third := Placements.third (Game.placements game) in
     seq (when (truthy second && negb (Set_has second chaySet)
                && negb (second =? winner))
            (seq (sub_assign second 1) (add_assign winner 1)))
    (seq (when (truthy third && negb (Set_has third chaySet)
                && negb (third =? winner) && negb (third =? second))
            (seq (sub_assign third 2) (add_assign winner 2)))
    (let nonChay := nonChayOf game players in
     seq (when ((2 <=? length nonChay)%nat
                && (negb (truthy second) || (second =? winner)
                    || Set_has second chaySet))
            (push "Thiếu người về nhì"))
         (when ((3 <=? length nonChay)%nat
                && (negb (truthy third) || (third =? winner) || (third =? second)
                    || Set_has third chaySet))
            (push "Thiếu người về ba"))))).

(** The branch taken when there is no burn. *)
Definition scoreRanking (game : Game.t) : Cmd :=
  let picks :=
    [ Placements.first (Game.placements game);
      Placements.second (Game.placements game);
      Placements.third (Game.placements game);
      Placements.fourth (Game.placements game) ] in
  let unique := new_Set (filter truthy picks) in
  if negb (length unique =? 4)%nat then push "Chưa đủ xếp hạng 1-4"
  else
    seq (add_assign (Placements.first (Game.placements game)) 6)
   (seq (sub_assign (Placements.second (Game.placements game)) 1)
   (seq (sub_assign (Placements.third (Game.placements game)) 2)
        (sub_assign (Placements.fourth (Game.placements game)) 3))).

(** [Object.fromEntries(players.map((player) => [player.id, 0]))]: every
    entry becomes an own property, whatever its name. *)
Definition initial (players : list Player.t) : St :=
  {| points :=
       JsObj.fromEntries
         (map (fun player => (Player.id player, Num (Double.Fin 0))) players);
     warnings := [] |}.

Definition scoreMode (game : Game.t) (players : list Player.t) : Cmd :=
  if Game.u game then scoreU game players
  else
    let hasChay := (0 <? length (chaySetOf game))%nat in
    if hasChay then scoreChay game players
    else scoreRanking game.

(** The state when line 207 is reached. *)
Definition beforeTransfers (game : Game.t) (players : list Player.t) : St :=
  scoreMode game players (initial players).

Module Summary.
Record t : Type :=
    { points : obj; total : value; warnings : list string }.
End Summary.

(** [Object.values(o).reduce((sum, value) => sum + value, 0)] *)
Definition sum_values (o : obj) : value :=
  fold_left plus (JsObj.values o) (Num (Double.Fin 0)).

Definition computeGamePoints (game : Game.t) (players : list Player.t) : Summary.t :=
  let st := seq (scoreMode game players) (forEach (Game.anChot game) applyTransfer)
              (initial players) in
  {| Summary.points := points st;
     Summary.total := sum_values (points st);
     Summary.warnings := warnings st |}.

Definition gameSummaries (activeSession : option Session.t) : list Summary.t :=
  match activeSession with
  | None => []
  | Some session =>
      map (fun game => computeGamePoints game (Session.players session))
          (Session.games session)
  end.

Definition sessionTotals (activeSession : option Session.t) : obj :=
  match activeSession with
  | None => []
  | Some session =>
      let totals :=
        JsObj.fromEntries
          (map (fun player => (Player.id player, Num (Double.Fin 0)))
               (Session.players session)) in
      fold_left
        (fun totals summary =>
           fold_left
             (fun totals player =>
                set (Player.id player)
                  (plus (get (Player.id player) totals)
                        (nullish (get (Player.id player) (Summary.points summary))
                                 (Num (Double.Fin 0))))
                  totals)
             (Session.players session) totals)
        (gameSummaries activeSession) totals
  end.

Definition sessionBalance (activeSession : option Session.t) : value :=
  sum_values (sessionTotals activeSession).

(** One round of the outer loop of [sessionTotals]. *)
Definition addSummary (players : list Player.t) (totals : obj) (summary : Summary.t)
  : obj :=
  fold_left
    (fun totals player =>
       set (Player.id player)
         (plus (get (Player.id player) totals)
               (nullish (get (Player.id player) (Summary.points summary))
                        (Num (Double.Fin 0))))
         totals)
    players totals.

(** A result in which every delta and the total are numbers. *)
Definition isNum (v : value) : bool :=
  match v with
  | Num _ => true
  | _ => false
  end.

Definition wellTyped (r : Summary.t) : bool :=
  forallb (fun kv => isNum (snd kv)) (Summary.points r) && isNum (Summary.total r).

End Js.

(** ** The two readings of the engine side by side *)

(** An integer of the data model as a double, a score table of integers
    as a table of doubles. *)
Definition inj (v : num) : Double.t :=
  match v with
  | Int z => Double.Fin z
  | NaN => Double.NaN
  end.

Definition emb (o : JsObj.t num) : Js.obj :=
  map (fun kv => (fst kv, Js.Num (inj (snd kv)))) o.

Definition embSt (st : St) : Js.St :=
  {| Js.points := emb (points st); Js.warnings := warnings st |}.

Definition embSummary (r : Summary.t) : Js.Summary.t :=
  {| Js.Summary.points := emb (Summary.points r);
     Js.Summary.total := Js.Num (inj (Summary.total r));
     Js.Summary.warnings := Summary.warnings r |}.

(** The absolute amounts of a list of transfers, added up. *)
Definition sumAbs (entries : list Transfer.t) : Z :=
  fold_right (fun entry acc => (Z.abs (Transfer.points entry) + acc)%Z) 0%Z entries.

(** Amounts small enough for every number the engine computes on a round
    of four players to stay below [2^53] in absolute value, where the
    arithmetic of doubles is exact. *)
Definition safeAmounts (game : Game.t) : bool :=
  (sumAbs (Game.anChot game) <=? 2 ^ 49)%Z.

(** The same for all the rounds of a session together: the amounts, and
    30 for the rule-based points of each round. *)
Definition sessionWeight (games : list Game.t) : Z :=
  fold_right (fun game acc => (30 + sumAbs (Game.anChot game) + acc)%Z) 0%Z games.

Definition safeSession (session : Session.t) : bool :=
  (sessionWeight (Session.games session) <=? 2 ^ 49)%Z.

(** A score table of the data model over the keys [K] whose entries are
    integers of absolute value at most [b]. *)
Definition Good (K : list string) (b : Z) (st : St) : Prop :=
  map fst (points st) = K
  /\ forall k v, JsObj.get k (points st) = Some v ->
       exists z, v = Int z /\ (Z.abs z <= b)%Z.

(** [c'] does on the embedded table what [c] does on a table of the data
    model, as long as [cost] more in absolute value keeps the entries
    below [2^53]. *)
Definition Refines (K : list string) (cost : Z) (c : Cmd) (c' : Js.Cmd) : Prop :=
  (0 <= cost)%Z
  /\ forall st b, (0 <= b)%Z -> Good K b st -> (b + cost < 2 ^ 53)%Z ->
       c' (embSt st) = embSt (c st) /\ Good K (b + cost) (c st).

Definition sumCost {A : Type} (f : A -> Z) (l : list A) : Z :=
  fold_right (fun x acc => (f x + acc)%Z) 0%Z l.

(** A relation between the states of the two readings that a pair of
    commands keeps. *)
Definition Rel2 (R : St -> Js.St -> Prop) (c : Cmd) (c' : Js.Cmd) : Prop :=
  forall st js, R st js -> R (c st) (c' js).

(** The keys that can receive [+=]: the winner and the [to] side of the
    manual transfers.  Each is a player id or no member of
    [Object.prototype]. *)
Definition plainTargets (game : Game.t) (players : list Player.t) : bool :=
  forallb (fun k => negb (Js.inherited k) || mem k (ids players))
    (Placements.first (Game.placements game)
     :: map Transfer.to (Game.anChot game)).

(** The own properties of the table include [K], and all hold numbers. *)
Definition Owns (K : list string) (js : Js.St) : Prop :=
  forall k, In k K -> In k (map fst (Js.points js)).

Definition AllNum (js : Js.St) : Prop :=
  forallb (fun kv => Js.isNum (snd kv)) (Js.points js) = true.

(** ** Facts about dictionaries *)

Module JsObjFacts.
Import JsObj.

Section Facts.
Context {V : Type}.
Implicit Types (o : JsObj.t V) (k : string) (v : V).

Lemma get_set_eq k v o : get k (set k v o) = Some v.
Proof.
  induction o as [|[k' v'] r IH]; simpl.
  - now rewrite String.eqb_refl.
  - destruct (k =? k') eqn:E; simpl; rewrite ?String.eqb_refl, ?E; auto.
Qed.

Lemma get_set_ne k k' v o : k <> k' -> get k (set k' v o) = get k o.
Proof.
  intros Hne. induction o as [|[k0 v0] r IH]; simpl.
  - apply String.eqb_neq in Hne. now rewrite Hne.
  - destruct (k' =? k0) eqn:E; simpl.
    + apply String.eqb_eq in E. subst k0.
      apply String.eqb_neq in Hne. now rewrite Hne.
    + destruct (k =? k0); auto.
Qed.

Lemma get_set k k' v o :
  get k (set k' v o) = if k =? k' then Some v else get k o.
Proof.
  destruct (String.eqb_spec k k') as [-> |Hne].
  - apply get_set_eq.
  - now apply get_set_ne.
Qed.

Lemma get_In k o : In k (map fst o) -> exists v, get k o = Some v.
Proof.
  induction o as [|[k' v'] r IH]; simpl; [tauto|].
  intros [-> |Hin].
  - rewrite String.eqb_refl. eauto.
  - destruct (k =? k'); eauto.
Qed.

Lemma get_Some_In k v o : get k o = Some v -> In k (map fst o).
Proof.
  induction o as [|[k' v'] r IH]; simpl; [discriminate|].
  destruct (String.eqb_spec k k') as [-> |Hne]; auto.
Qed.

(** Writing an existing property changes one cell and nothing else. *)
Lemma set_split k a v o :
  get k o = Some a ->
  exists l1 l2, o = l1 ++ (k, a) :: l2 /\ set k v o = l1 ++ (k, v) :: l2.
Proof.
  induction o as [|[k' v'] r IH]; simpl; [discriminate|].
  destruct (String.eqb_spec k k') as [-> |Hne].
  - intros [= ->]. now exists [], r.
  - intros Hg. destruct (IH Hg) as (l1 & l2 & -> & ->).
    now exists ((k', v') :: l1), l2.
Qed.

Lemma keys_set_In k v o :
  In k (map fst o) -> map fst (set k v o) = map fst o.
Proof.
  intros Hin. destruct (get_In _ _ Hin) as [a Ha].
  destruct (set_split k a v o Ha) as (l1 & l2 & E1 & E2).
  rewrite E2. subst o. now rewrite !map_app.
Qed.

Lemma set_fresh k v o : ~ In k (map fst o) -> set k v o = o ++ [(k, v)].
Proof.
  induction o as [|[k' v'] r IH]; simpl; auto.
  intros Hn. destruct (String.eqb_spec k k') as [-> |Hne]; [tauto|].
  rewrite IH; tauto.
Qed.

Lemma In_keys_set k k' v o :
  In k (map fst (set k' v o)) <-> k = k' \/ In k (map fst o).
Proof.
  split.
  - intros Hin. destruct (get_In _ _ Hin) as [a Ha].
    rewrite get_set in Ha. destruct (String.eqb_spec k k'); auto.
    right. eapply get_Some_In; eauto.
  - intros H. assert (exists a, get k (set k' v o) = Some a) as [a Ha].
    { rewrite get_set. destruct (String.eqb_spec k k'); eauto.
      destruct H as [?|Hin]; [contradiction|]. now apply get_In. }
    eapply get_Some_In; eauto.
Qed.

(** Building an object from entries with distinct keys keeps them as
    they are. *)
Lemma fromEntries_NoDup (es : list (string * V)) :
  NoDup (map fst es) -> fromEntries es = es.
Proof.
  unfold fromEntries.
  assert (G : forall acc,
             NoDup (map fst (acc ++ es)) ->
             fold_left (fun o e => set (fst e) (snd e) o) es acc = acc ++ es).
  { induction es as [|[k v] r IH]; intros acc Hnd; simpl.
    - now rewrite app_nil_r.
    - rewrite set_fresh.
      + rewrite IH; rewrite <- app_assoc; simpl; auto.
      + rewrite map_app in Hnd. simpl in Hnd.
        apply NoDup_remove_2 in Hnd. intros Hin. apply Hnd.
        apply in_or_app. now left. }
  intros Hnd. now apply (G []).
Qed.

Lemma In_keys_fromEntries k (es : list (string * V)) :
  In k (map fst (fromEntries es)) <-> In k (map fst es).
Proof.
  unfold fromEntries.
  assert (G : forall acc,
             In k (map fst (fold_left (fun o e => set (fst e) (snd e) o) es acc))
             <-> In k (map fst acc) \/ In k (map fst es)).
  { induction es as [|[k' v] r IH]; intros acc; simpl.
    - tauto.
    - rewrite IH, In_keys_set. simpl. intuition congruence. }
  rewrite G. simpl. tauto.
Qed.

(** Enumeration order is a rearrangement of creation order. *)
Lemma insert_index_perm (e : N * (string * V)) l :
  Permutation (insert_index e l) (e :: l).
Proof.
  induction l as [|h r IH]; simpl; auto.
  destruct (fst e <=? fst h)%N; auto.
  rewrite IH. apply perm_swap.
Qed.

Lemma entries_perm o : Permutation (entries o) o.
Proof.
  unfold entries, is_index.
  induction o as [|kv r IH]; simpl; auto.
  destruct (array_index (fst kv)) as [n|]; simpl.
  - rewrite insert_index_perm. simpl. now constructor.
  - rewrite <- Permutation_middle. now constructor.
Qed.

Lemma keys_perm o : Permutation (keys o) (map fst o).
Proof. unfold keys. apply Permutation_map, entries_perm. Qed.

Lemma values_perm o : Permutation (values o) (map snd o).
Proof. unfold values. apply Permutation_map, entries_perm. Qed.

End Facts.

End JsObjFacts.

(** ** Facts about sums of scores *)

Lemma nadd_swap a x y : nadd (nadd a x) y = nadd (nadd a y) x.
Proof. destruct a, x, y; simpl; auto. f_equal. lia. Qed.

Lemma fold_nadd_perm l l' :
  Permutation l l' -> forall acc, fold_left nadd l acc = fold_left nadd l' acc.
Proof.
  induction 1; intros acc; simpl; auto.
  - now rewrite nadd_swap.
  - now rewrite IHPermutation1.
Qed.

Lemma fold_nadd_int (o : JsObj.t num) :
  all_int o = true ->
  forall a, fold_left nadd (map snd o) (Int a) = Int (a + zsum o).
Proof.
  induction o as [|[k v] r IH]; simpl; intros Hall a.
  - f_equal. lia.
  - apply andb_true_iff in Hall as [Hv Hr].
    destruct v as [z|]; [|discriminate]. simpl.
    rewrite IH by assumption. f_equal. lia.
Qed.

Lemma sum_values_int (o : JsObj.t num) :
  all_int o = true -> sum_values o = Int (zsum o).
Proof.
  intros Hall. unfold sum_values.
  rewrite (fold_nadd_perm _ _ (JsObjFacts.values_perm o)).
  now rewrite fold_nadd_int.
Qed.

Lemma all_int_app (l1 l2 : JsObj.t num) :
  all_int (l1 ++ l2) = all_int l1 && all_int l2.
Proof. unfold all_int. apply forallb_app. Qed.

Lemma zsum_app (l1 l2 : JsObj.t num) : zsum (l1 ++ l2) = (zsum l1 + zsum l2)%Z.
Proof. induction l1 as [|kv r IH]; simpl; lia. Qed.

Lemma all_int_get k (o : JsObj.t num) :
  all_int o = true -> In k (map fst o) -> exists z, JsObj.get k o = Some (Int z).
Proof.
  induction o as [|[k' v] r IH]; simpl; [tauto|].
  intros Hall Hin. apply andb_true_iff in Hall as [Hv Hr].
  destruct (String.eqb_spec k k') as [-> |Hne].
  - destruct v; [eauto|discriminate].
  - destruct Hin as [-> |Hin]; [contradiction|]. auto.
Qed.

(** Writing an integer into an existing cell of a balanced table. *)
Lemma Bal_set K c st k a b :
  Bal K c st ->
  JsObj.get k (points st) = Some (Int a) ->
  Bal K (c - a + b) (assign k (Int b) st).
Proof.
  intros (HK & Hall & Hsum) Hget. unfold Bal, assign. simpl.
  destruct (JsObjFacts.set_split k (Int a) (Int b) _ Hget) as (l1 & l2 & E1 & E2).
  rewrite E2. rewrite E1 in HK, Hall, Hsum.
  rewrite map_app in *. rewrite all_int_app in *. rewrite zsum_app in *.
  simpl in *. repeat split; auto. lia.
Qed.

Lemma Bal_sub_assign K c st k n :
  In k K -> Bal K c st -> Bal K (c - n) (sub_assign k n st).
Proof.
  intros Hin HB. pose proof HB as (HK & Hall & _).
  destruct (all_int_get k _ Hall) as [a Ha]; [now rewrite HK|].
  unfold sub_assign. rewrite Ha. simpl.
  replace (c - n)%Z with (c - a + (a - n))%Z by lia.
  now apply Bal_set.
Qed.

Lemma Bal_add_assign K c st k n :
  In k K -> Bal K c st -> Bal K (c + n) (add_assign k n st).
Proof.
  intros Hin HB. pose proof HB as (HK & Hall & _).
  destruct (all_int_get k _ Hall) as [a Ha]; [now rewrite HK|].
  unfold add_assign. rewrite Ha. simpl.
  replace (c + n)%Z with (c - a + (a + n))%Z by lia.
  now apply Bal_set.
Qed.

(** Moving points between two existing cells keeps the balance. *)
Lemma Bal_move K c st a b n :
  In a K -> In b K -> Bal K c st ->
  Bal K c ((sub_assign a n ;; add_assign b n) st).
Proof.
  intros Ha Hb HB. unfold seq.
  pose proof (Bal_add_assign K (c - n) _ b n Hb (Bal_sub_assign K c st a n Ha HB)) as H.
  now replace (c - n + n)%Z with c in H by lia.
Qed.

Lemma Bal_push K c st w : Bal K c st -> Bal K c (push w st).
Proof. auto. Qed.

(** ** Facts about sets and the validity predicates *)

Lemma mem_In x l : mem x l = true <-> In x l.
Proof.
  unfold mem. rewrite existsb_exists. split.
  - intros (y & Hy & E). apply String.eqb_eq in E. now subst.
  - intros H. exists x. split; auto. apply String.eqb_refl.
Qed.

Lemma mem_false x l : mem x l = false <-> ~ In x l.
Proof.
  rewrite <- mem_In. destruct (mem x l); split; congruence.
Qed.

Lemma distinct_NoDup l : distinct l = true <-> NoDup l.
Proof.
  induction l as [|x r IH]; simpl.
  - split; auto using NoDup_nil.
  - rewrite andb_true_iff, negb_true_iff, mem_false, IH. split.
    + intros [? ?]. now constructor.
    + inversion 1; auto.
Qed.

Lemma In_Set_add x s y : In x (Set_add s y) <-> In x s \/ x = y.
Proof.
  unfold Set_add. change (Set_has y s) with (mem y s).
  destruct (mem y s) eqn:E.
  - apply mem_In in E. split; [now left|]. intros [?| ->]; auto.
  - rewrite in_app_iff. simpl. intuition.
Qed.

Lemma NoDup_Set_add s y : NoDup s -> NoDup (Set_add s y).
Proof.
  intros Hnd. unfold Set_add. change (Set_has y s) with (mem y s).
  destruct (mem y s) eqn:E; auto.
  apply mem_false in E.
  apply NoDup_rev in Hnd. rewrite <- (rev_involutive (s ++ [y])).
  apply NoDup_rev. rewrite rev_app_distr. simpl.
  constructor; auto. now rewrite <- in_rev.
Qed.

Lemma new_Set_spec l : NoDup (new_Set l) /\ forall x, In x (new_Set l) <-> In x l.
Proof.
  unfold new_Set.
  assert (G : forall acc, NoDup acc ->
            NoDup (fold_left Set_add l acc)
            /\ forall x, In x (fold_left Set_add l acc) <-> In x acc \/ In x l).
  { induction l as [|y r IH]; intros acc Hacc; simpl.
    - split; auto. intros x. tauto.
    - destruct (IH (Set_add acc y) (NoDup_Set_add _ _ Hacc)) as [H1 H2].
      split; auto. intros x. rewrite H2, In_Set_add. intuition. }
  destruct (G [] (NoDup_nil _)) as [H1 H2]. split; auto.
  intros x. rewrite H2. simpl. tauto.
Qed.

Lemma NoDup_new_Set l : NoDup (new_Set l).
Proof. apply new_Set_spec. Qed.

Lemma In_new_Set x l : In x (new_Set l) <-> In x l.
Proof. apply new_Set_spec. Qed.

Lemma Set_has_In x s : Set_has x s = true <-> In x s.
Proof. apply mem_In. Qed.

Lemma Set_has_false x s : Set_has x s = false <-> ~ In x s.
Proof. apply mem_false. Qed.

Lemma valid_id_In players s :
  valid_id players s = true -> truthy s = true -> In s (ids players).
Proof.
  unfold valid_id. intros H Ht. rewrite Ht in H. simpl in H. now apply mem_In.
Qed.

(** Every burned id of a valid round is a player. *)
Lemma chaySet_valid players game x :
  forallb (valid_transfer players) (Game.chay game) = true ->
  In x (chaySetOf game) -> In x (ids players).
Proof.
  intros Hall Hin. unfold chaySetOf in Hin.
  rewrite In_new_Set in Hin. apply filter_In in Hin as [Hin Ht].
  apply in_map_iff in Hin as (t & <- & Hin).
  rewrite forallb_forall in Hall. specialize (Hall t Hin).
  apply andb_true_iff in Hall as [Hf _].
  now apply valid_id_In.
Qed.

(** ** Facts about the initial table and the loops over it *)

Lemma In_set_inv {V : Type} (kv : string * V) k v (o : JsObj.t V) :
  In kv (JsObj.set k v o) -> kv = (k, v) \/ In kv o.
Proof.
  induction o as [|[k' v'] r IH]; simpl.
  - intros [<-|[]]. now left.
  - destruct (k =? k'); simpl; intros [<-|Hin]; auto.
    destruct (IH Hin); auto.
Qed.

Lemma get_Some_In_entry {V : Type} k (v : V) (o : JsObj.t V) :
  JsObj.get k o = Some v -> In (k, v) o.
Proof.
  induction o as [|[k' v'] r IH]; simpl; [discriminate|].
  destruct (String.eqb_spec k k') as [-> |Hne].
  - intros [= ->]. now left.
  - auto.
Qed.

Lemma fromEntries_const {V : Type} (c : V) (es : list (string * V)) kv :
  (forall e, In e es -> snd e = c) -> In kv (JsObj.fromEntries es) -> snd kv = c.
Proof.
  unfold JsObj.fromEntries.
  assert (G : forall acc,
            (forall e, In e acc -> snd e = c) ->
            (forall e, In e es -> snd e = c) ->
            In kv (fold_left (fun o e => JsObj.set (fst e) (snd e) o) es acc) ->
            snd kv = c).
  { induction es as [|[k v] r IH]; intros acc Hacc Hes; simpl; auto.
    apply IH.
    - intros e He. apply In_set_inv in He as [-> |He]; auto.
      simpl. apply (Hes (k, v)). now left.
    - intros e He. apply Hes. now right. }
  intros Hes. apply G; auto. intros e [].
Qed.

Lemma const_zero_Bal (o : JsObj.t num) :
  (forall kv, In kv o -> snd kv = Int 0) -> all_int o = true /\ zsum o = 0%Z.
Proof.
  induction o as [|[k v] r IH]; simpl; intros H; auto.
  pose proof (H (k, v) (or_introl eq_refl)) as E. simpl in E. subst v.
  destruct IH as [H1 H2]; [intros kv Hkv; apply H; now right|].
  simpl. split; auto.
Qed.

Lemma initial_zero players kv : In kv (points (initial players)) -> snd kv = Int 0.
Proof.
  apply fromEntries_const. intros e He.
  apply in_map_iff in He as (p & <- & _). reflexivity.
Qed.

Lemma initial_keys players k :
  In k (map fst (points (initial players))) <-> In k (ids players).
Proof.
  unfold initial. simpl. rewrite JsObjFacts.In_keys_fromEntries.
  unfold ids. now rewrite map_map.
Qed.

Lemma initial_get players k :
  In k (ids players) -> JsObj.get k (points (initial players)) = Some (Int 0).
Proof.
  intros Hin. apply initial_keys in Hin.
  destruct (JsObjFacts.get_In _ _ Hin) as [v Hv]. rewrite Hv.
  apply get_Some_In_entry, initial_zero in Hv. simpl in Hv. now subst.
Qed.

Lemma initial_Bal players :
  Bal (map fst (points (initial players))) 0 (initial players).
Proof.
  destruct (const_zero_Bal (points (initial players)) (initial_zero players))
    as [H1 H2].
  now repeat split.
Qed.

Lemma initial_distinct players :
  distinct (ids players) = true ->
  points (initial players) = map (fun player => (Player.id player, Int 0)) players.
Proof.
  intros Hd. apply JsObjFacts.fromEntries_NoDup.
  rewrite map_map. simpl. now apply distinct_NoDup.
Qed.

Lemma forEach_cons {A : Type} (x : A) l (body : A -> Cmd) st :
  forEach (x :: l) body st = forEach l body (body x st).
Proof. reflexivity. Qed.

(** An invariant kept by every round of a loop is kept by the loop. *)
Lemma forEach_inv {A : Type} (I : St -> Prop) (l : list A) (body : A -> Cmd) :
  (forall x st, In x l -> I st -> I (body x st)) ->
  forall st, I st -> I (forEach l body st).
Proof.
  induction l as [|x r IH]; intros Hb st Hst; [exact Hst|].
  rewrite forEach_cons. apply IH.
  - intros y s Hy. apply Hb. now right.
  - apply Hb; auto. now left.
Qed.

(** Two tables with the same distinct keys and the same reads are equal. *)
Lemma obj_ext {V : Type} (o o' : JsObj.t V) :
  map fst o = map fst o' ->
  NoDup (map fst o) ->
  (forall k, In k (map fst o) -> JsObj.get k o = JsObj.get k o') ->
  o = o'.
Proof.
  revert o'. induction o as [|[k v] r IH]; intros [|[k' v'] r']; simpl;
    try discriminate; auto.
  intros [= <- Hk] Hnd Hget. inversion Hnd as [|? ? Hnin Hnd']; subst.
  pose proof (Hget k (or_introl eq_refl)) as Hk0.
  rewrite String.eqb_refl in Hk0. injection Hk0 as <-.
  f_equal. apply IH; auto.
  intros k0 Hin. specialize (Hget k0 (or_intror Hin)).
  destruct (String.eqb_spec k0 k) as [E|Hne]; [subst k0; contradiction|].
  exact Hget.
Qed.

(** The loop of the self-win branch, read key by key. *)
Lemma get_forEach_assign (f : string -> num) players k st :
  JsObj.get k
    (points (forEach players
               (fun player => assign (Player.id player) (f (Player.id player))) st))
  = if mem k (ids players) then Some (f k) else JsObj.get k (points st).
Proof.
  revert st. induction players as [|p r IH]; intros st; [reflexivity|].
  rewrite forEach_cons, IH. unfold assign. simpl.
  rewrite JsObjFacts.get_set.
  destruct (String.eqb_spec k (Player.id p)) as [-> |Hne]; simpl.
  - now destruct (mem (Player.id p) (ids r)).
  - reflexivity.
Qed.

Lemma keys_forEach_assign (f : string -> num) players st :
  (forall k, In k (ids players) -> In k (map fst (points st))) ->
  map fst (points (forEach players
                     (fun player => assign (Player.id player) (f (Player.id player))) st))
  = map fst (points st).
Proof.
  revert st. induction players as [|p r IH]; intros st Hin; [reflexivity|].
  rewrite forEach_cons, IH; unfold assign; simpl.
  - apply JsObjFacts.keys_set_In. apply Hin. now left.
  - intros k Hk. rewrite JsObjFacts.keys_set_In; apply Hin; simpl; auto.
Qed.

Lemma warnings_forEach_assign (f : string -> num) players st :
  warnings (forEach players
              (fun player => assign (Player.id player) (f (Player.id player))) st)
  = warnings st.
Proof.
  revert st. induction players as [|p r IH]; intros st; [reflexivity|].
  now rewrite forEach_cons, IH.
Qed.

(** ** Balance of the three scoring branches *)

Lemma selfwin_table_sum w ks :
  NoDup ks ->
  let o := map (fun k => (k, if k =? w then Int 15 else Int (-5))) ks in
  all_int o = true
  /\ zsum o = (- 5 * Z.of_nat (length ks) + if mem w ks then 20 else 0)%Z.
Proof.
  induction 1 as [|k r Hnin Hnd IH]; cbn zeta in *.
  - split; reflexivity.
  - destruct IH as [IH1 IH2].
    cbn [map all_int forallb zsum fold_right snd length mem existsb].
    fold (zsum (map (fun k => (k, if k =? w then Int 15 else Int (-5))) r)).
    fold (all_int (map (fun k => (k, if k =? w then Int 15 else Int (-5))) r)).
    fold (mem w r).
    rewrite IH1, IH2, Nat2Z.inj_succ, (String.eqb_sym w k).
    destruct (String.eqb_spec k w) as [E|Hne].
    + subst k. apply mem_false in Hnin. rewrite Hnin. split; [reflexivity|].
      cbn [zval orb]. lia.
    + split; [reflexivity|]. cbn [zval orb]. destruct (mem w r); lia.
Qed.

Lemma scoreU_table game players :
  distinct (ids players) = true ->
  truthy (Placements.first (Game.placements game)) = true ->
  points (scoreU game players (initial players))
  = map (fun k => (k, if k =? Placements.first (Game.placements game)
                      then Int 15 else Int (-5)))
        (ids players).
Proof.
  intros Hd Ht. unfold scoreU. rewrite Ht. simpl.
  set (w := Placements.first (Game.placements game)).
  set (f := fun k => if k =? w then Int 15 else Int (-5)).
  assert (Hk0 : map fst (points (initial players)) = ids players).
  { rewrite initial_distinct by assumption. now rewrite map_map. }
  assert (Hk : map fst (points (forEach players
                 (fun player => assign (Player.id player) (f (Player.id player)))
                 (initial players))) = ids players).
  { rewrite keys_forEach_assign; auto. intros k Hin. now rewrite Hk0. }
  apply obj_ext.
  - rewrite map_map. simpl. rewrite map_id. exact Hk.
  - unfold f in Hk. rewrite Hk. now apply distinct_NoDup.
  - intros k Hin. unfold f in Hk. rewrite Hk in Hin.
    rewrite (get_forEach_assign f).
    apply mem_In in Hin as Hm. rewrite Hm.
    clear - Hin. induction (ids players) as [|k' r IH]; simpl in *; [tauto|].
    destruct (String.eqb_spec k k') as [-> |Hne]; auto.
    destruct Hin as [-> |Hin]; [contradiction|auto].
Qed.

Lemma scoreU_Bal game players :
  four_players players = true ->
  valid_id players (Placements.first (Game.placements game)) = true ->
  Bal (ids players) 0 (scoreU game players (initial players)).
Proof.
  intros H4 Hv. apply andb_true_iff in H4 as [Hlen Hd].
  apply Nat.eqb_eq in Hlen.
  destruct (truthy (Placements.first (Game.placements game))) eqn:Ht.
  - pose proof (scoreU_table game players Hd Ht) as Htab.
    pose proof (valid_id_In _ _ Hv Ht) as Hin.
    apply distinct_NoDup in Hd.
    destruct (selfwin_table_sum (Placements.first (Game.placements game)) _ Hd)
      as [Hall Hsum].
    unfold Bal. rewrite Htab. repeat split; auto.
    + rewrite map_map. simpl. apply map_id.
    + rewrite Hsum. apply mem_In in Hin. rewrite Hin.
      unfold ids. rewrite length_map, Hlen. reflexivity.
  - unfold scoreU. rewrite Ht. simpl. apply Bal_push.
    pose proof (initial_Bal players) as HB.
    rewrite initial_distinct in HB at 1 by assumption.
    now rewrite map_map in HB.
Qed.

Lemma Bal_when K c b body st :
  (b = true -> Bal K c st -> Bal K c (body st)) ->
  Bal K c st -> Bal K c (when b body st).
Proof. unfold when, skip. destruct b; auto. Qed.

Lemma scoreChay_Bal K game players st :
  valid_round players game = true ->
  (forall k, In k (ids players) -> In k K) ->
  Bal K 0 st -> Bal K 0 (scoreChay game players st).
Proof.
  intros Hv HK HB. unfold valid_round in Hv.
  apply andb_true_iff in Hv as [Hv _].
  apply andb_true_iff in Hv as [Hv Hchay].
  apply andb_true_iff in Hv as [Hv _].
  apply andb_true_iff in Hv as [Hv H3].
  apply andb_true_iff in Hv as [H1 H2].
  unfold scoreChay.
  destruct (truthy (Placements.first (Game.placements game))) eqn:Hw; simpl;
    [|now apply Bal_push].
  destruct (Set_has _ _) eqn:Hb; [now apply Bal_push|].
  assert (HwK : In (Placements.first (Game.placements game)) K)
    by (apply HK; now apply valid_id_In).
  unfold seq.
  apply Bal_when; [intros _; apply Bal_push|].
  apply Bal_when; [intros _; apply Bal_push|].
  apply Bal_when.
  { intros Hc. apply andb_true_iff in Hc as [Hc _].
    apply andb_true_iff in Hc as [Hc _].
    apply andb_true_iff in Hc as [Hc _].
    apply Bal_move; auto. apply HK. now apply valid_id_In. }
  apply Bal_when.
  { intros Hc. apply andb_true_iff in Hc as [Hc _].
    apply andb_true_iff in Hc as [Hc _].
    apply Bal_move; auto. apply HK. now apply valid_id_In. }
  apply forEach_inv; auto.
  intros x s Hx Hs. destruct (x =? _); auto.
  apply Bal_move; auto. apply HK. eapply chaySet_valid; eauto.
Qed.

(** The test [unique.size !== 4] of the ranking branch. *)
Lemma filter_length_all {A : Type} (f : A -> bool) (l : list A) :
  length (filter f l) = length l -> forallb f l = true.
Proof.
  induction l as [|x r IH]; simpl; auto.
  pose proof (filter_length_le f r) as Hle.
  destruct (f x); simpl; intros H.
  - apply IH. lia.
  - lia.
Qed.

Lemma filter_all {A : Type} (f : A -> bool) (l : list A) :
  forallb f l = true -> filter f l = l.
Proof.
  induction l as [|x r IH]; simpl; auto.
  intros H. apply andb_true_iff in H as [Hx Hr]. rewrite Hx. f_equal. auto.
Qed.

Lemma new_Set_length_le l : (length (new_Set l) <= length l)%nat.
Proof.
  apply NoDup_incl_length; [apply NoDup_new_Set|].
  intros x. apply In_new_Set.
Qed.

Lemma unique_size l :
  length (new_Set (filter truthy l)) = length l
  <-> forallb truthy l = true /\ NoDup l.
Proof.
  split.
  - intros H.
    pose proof (new_Set_length_le (filter truthy l)) as H1.
    pose proof (filter_length_le truthy l) as H2.
    assert (Hall : forallb truthy l = true) by (apply filter_length_all; lia).
    split; auto.
    rewrite (filter_all _ _ Hall) in H.
    apply (@NoDup_incl_NoDup _ (new_Set l) l); [apply NoDup_new_Set|lia|].
    intros x. apply In_new_Set.
  - intros [Hall Hnd]. rewrite (filter_all _ _ Hall).
    apply Nat.le_antisymm; [apply new_Set_length_le|].
    apply NoDup_incl_length; auto.
    intros x. apply In_new_Set.
Qed.

Lemma scoreRanking_Bal K game st :
  (forall k, In k (picksOf game) -> truthy k = true -> In k K) ->
  Bal K 0 st -> Bal K 0 (scoreRanking game st).
Proof.
  intros HK HB.
  unfold scoreRanking. fold (picksOf game).
  destruct (Nat.eqb_spec (length (new_Set (filter truthy (picksOf game)))) 4)
    as [E|E]; simpl; [|now apply Bal_push].
  apply (unique_size (picksOf game)) in E as [Hall _].
  rewrite forallb_forall in Hall.
  unfold seq.
  change 0%Z with (0 + 6 - 1 - 2 - 3)%Z.
  apply Bal_sub_assign; [apply HK; [|apply Hall]; simpl; tauto|].
  apply Bal_sub_assign; [apply HK; [|apply Hall]; simpl; tauto|].
  apply Bal_sub_assign; [apply HK; [|apply Hall]; simpl; tauto|].
  apply Bal_add_assign; [apply HK; [|apply Hall]; simpl; tauto|].
  exact HB.
Qed.

Lemma valid_round_picks players game k :
  valid_round players game = true ->
  In k (picksOf game) -> truthy k = true -> In k (ids players).
Proof.
  intros Hv Hin Ht. unfold valid_round in Hv.
  apply andb_true_iff in Hv as [Hv _].
  apply andb_true_iff in Hv as [Hv _].
  apply andb_true_iff in Hv as [Hv H4].
  apply andb_true_iff in Hv as [Hv H3].
  apply andb_true_iff in Hv as [H1 H2].
  simpl in Hin.
  destruct Hin as [<-|[<-|[<-|[<-|[]]]]]; now apply valid_id_In.
Qed.

Lemma applyTransfer_Bal K c players transfer st :
  valid_transfer players transfer = true ->
  (forall k, In k (ids players) -> In k K) ->
  Bal K c st -> Bal K c (applyTransfer transfer st).
Proof.
  intros Hv HK HB. apply andb_true_iff in Hv as [Hf Ht].
  unfold applyTransfer.
  destruct (truthy (Transfer.from transfer)) eqn:Tf; simpl; [|now apply Bal_push].
  destruct (truthy (Transfer.to transfer)) eqn:Tt; simpl; [|now apply Bal_push].
  destruct (Transfer.from transfer =? Transfer.to transfer); [now apply Bal_push|].
  apply Bal_move; auto; apply HK; now apply valid_id_In.
Qed.

(** On a valid round of four players the table stays balanced through
    the whole computation, with or without warnings. *)
Lemma scoreMode_Bal game players :
  four_players players = true ->
  valid_round players game = true ->
  Bal (ids players) 0 (beforeTransfers game players).
Proof.
  intros H4 Hv. unfold beforeTransfers, scoreMode.
  assert (H0 : Bal (ids players) 0 (initial players)).
  { apply andb_true_iff in H4 as [_ Hd].
    pose proof (initial_Bal players) as HB.
    rewrite initial_distinct in HB at 1 by assumption.
    now rewrite map_map in HB. }
  destruct (Game.u game).
  - apply scoreU_Bal; auto.
    unfold valid_round in Hv.
    repeat (apply andb_true_iff in Hv as [Hv _]). exact Hv.
  - destruct (0 <? _)%nat.
    + eapply scoreChay_Bal; eauto.
    + apply scoreRanking_Bal; auto.
      intros k Hk Ht. eapply valid_round_picks; eauto.
Qed.

Lemma valid_round_Bal game players :
  four_players players = true ->
  valid_round players game = true ->
  Bal (ids players) 0
    ((scoreMode game players ;; forEach (Game.anChot game) applyTransfer)
       (initial players)).
Proof.
  intros H4 Hv. unfold seq.
  apply forEach_inv; [|now apply scoreMode_Bal].
  intros t st Hin HB.
  eapply applyTransfer_Bal; eauto.
  unfold valid_round in Hv. apply andb_true_iff in Hv as [_ Hv].
  rewrite forallb_forall in Hv. auto.
Qed.

Lemma valid_round_total game players :
  four_players players = true ->
  valid_round players game = true ->
  Summary.total (computeGamePoints game players) = Int 0.
Proof.
  intros H4 Hv. destruct (valid_round_Bal game players H4 Hv) as (_ & Hall & Hsum).
  unfold computeGamePoints. simpl.
  rewrite sum_values_int by assumption. now rewrite Hsum.
Qed.

(** ** The two stages of [computeGamePoints] *)

Lemma computeGamePoints_points game players :
  Summary.points (computeGamePoints game players)
  = points (forEach (Game.anChot game) applyTransfer (beforeTransfers game players)).
Proof. reflexivity. Qed.

Lemma computeGamePoints_warnings game players :
  Summary.warnings (computeGamePoints game players)
  = warnings (forEach (Game.anChot game) applyTransfer (beforeTransfers game players)).
Proof. reflexivity. Qed.

Lemma computeGamePoints_total game players :
  Summary.total (computeGamePoints game players)
  = sum_values (Summary.points (computeGamePoints game players)).
Proof. reflexivity. Qed.

(** ** Reads after the elementary commands *)

Lemma get_assign q k v st :
  JsObj.get q (points (assign k v st))
  = if q =? k then Some v else JsObj.get q (points st).
Proof. unfold assign. simpl. apply JsObjFacts.get_set. Qed.

Lemma get_sub_assign q k n st :
  JsObj.get q (points (sub_assign k n st))
  = if q =? k then Some (nsub (to_num (JsObj.get k (points st))) (Int n))
    else JsObj.get q (points st).
Proof. unfold sub_assign. apply get_assign. Qed.

Lemma get_add_assign q k n st :
  JsObj.get q (points (add_assign k n st))
  = if q =? k then Some (nadd (to_num (JsObj.get k (points st))) (Int n))
    else JsObj.get q (points st).
Proof. unfold add_assign. apply get_assign. Qed.

Lemma get_move q a b n st :
  a <> b ->
  JsObj.get q (points ((sub_assign a n ;; add_assign b n) st))
  = if q =? b then Some (nadd (to_num (JsObj.get b (points st))) (Int n))
    else if q =? a then Some (nsub (to_num (JsObj.get a (points st))) (Int n))
    else JsObj.get q (points st).
Proof.
  intros Hne. unfold seq. rewrite get_add_assign, !get_sub_assign.
  apply not_eq_sym in Hne. apply String.eqb_neq in Hne. now rewrite Hne.
Qed.

Lemma filter_neq_length (w : string) l :
  NoDup l -> In w l ->
  S (length (filter (fun q => negb (q =? w)) l)) = length l.
Proof.
  induction 1 as [|k r Hnin Hnd IH]; simpl; [tauto|].
  intros [-> |Hin].
  - rewrite String.eqb_refl. simpl. f_equal.
    rewrite filter_all; auto.
    apply forallb_forall. intros x Hx. apply negb_true_iff, String.eqb_neq.
    intros ->. contradiction.
  - destruct (String.eqb_spec k w) as [E|Hne]; simpl.
    + subst k. contradiction.
    + f_equal. auto.
Qed.

(** ** Self-win *)

(** C3. In self-win mode with a winner W in slot first, the deltas before
    the manual transfers are +15 for W and -5 for each of the other three
    players, and the table holds nothing else. *)
Theorem self_win_deltas game players W :
  four_players players = true ->
  Game.u game = true ->
  Placements.first (Game.placements game) = W ->
  truthy W = true ->
  mem W (ids players) = true ->
  let st := beforeTransfers game players in
  JsObj.get W (points st) = Some (Int 15)
  /\ (forall q, In q (ids players) -> q <> W ->
                JsObj.get q (points st) = Some (Int (-5)))
  /\ length (filter (fun q => negb (q =? W)) (ids players)) = 3%nat
  /\ Permutation (JsObj.keys (points st)) (ids players)
  /\ warnings st = [].
Proof.
  intros H4 Hu Hw Ht Hm st.
  apply andb_true_iff in H4 as [Hlen Hd]. apply Nat.eqb_eq in Hlen.
  assert (Htab : points st
                 = map (fun k => (k, if k =? W then Int 15 else Int (-5)))
                       (ids players)).
  { subst st W. unfold beforeTransfers, scoreMode. rewrite Hu.
    now apply scoreU_table. }
  assert (Hget : forall q, In q (ids players) ->
            JsObj.get q (points st) = Some (if q =? W then Int 15 else Int (-5))).
  { intros q Hq. subst st W. unfold beforeTransfers, scoreMode, scoreU.
    rewrite Hu, Ht. simpl.
    rewrite (get_forEach_assign
               (fun k => if k =? Placements.first (Game.placements game)
                         then Int 15 else Int (-5))).
    apply mem_In in Hq. now rewrite Hq. }
  repeat split.
  - rewrite Hget by now apply mem_In. now rewrite String.eqb_refl.
  - intros q Hq Hne. rewrite Hget by assumption.
    apply String.eqb_neq in Hne. now rewrite Hne.
  - apply distinct_NoDup in Hd. apply mem_In in Hm.
    pose proof (filter_neq_length W _ Hd Hm) as E.
    unfold ids in E at 2. rewrite length_map, Hlen in E. lia.
  - rewrite JsObjFacts.keys_perm, Htab, map_map. simpl. now rewrite map_id.
  - subst st W. unfold beforeTransfers, scoreMode, scoreU. rewrite Hu, Ht. simpl.
    apply (warnings_forEach_assign
             (fun k => if k =? Placements.first (Game.placements game)
                       then Int 15 else Int (-5))).
Qed.

Lemma self_win_deltas_witness :
  let st := beforeTransfers (round true (slots "p3" "" "" "") [] []) seats in
  JsObj.get "p3" (points st) = Some (Int 15)
  /\ (forall q, In q (ids seats) -> q <> "p3" ->
                JsObj.get q (points st) = Some (Int (-5)))
  /\ length (filter (fun q => negb (q =? "p3")) (ids seats)) = 3%nat
  /\ Permutation (JsObj.keys (points st)) (ids seats)
  /\ warnings st = [].
Proof.
  apply (self_win_deltas (round true (slots "p3" "" "" "") [] []) seats "p3");
    reflexivity.
Defined.

(** ** Ranking mode *)

Lemma chaySetOf_nil game : Game.chay game = [] -> chaySetOf game = [].
Proof. unfold chaySetOf. now intros ->. Qed.

Lemma filled4_unique game :
  filled4 game = (length (new_Set (filter truthy (picksOf game))) =? 4)%nat.
Proof.
  unfold filled4.
  destruct (Nat.eqb_spec (length (new_Set (filter truthy (picksOf game)))) 4)
    as [E|E].
  - apply (unique_size (picksOf game)) in E as [Hall Hnd].
    apply distinct_NoDup in Hnd. now rewrite Hall, Hnd.
  - destruct (forallb truthy (picksOf game)) eqn:Hall; auto.
    destruct (distinct (picksOf game)) eqn:Hd; auto.
    exfalso. apply E. apply (unique_size (picksOf game)).
    split; auto. now apply distinct_NoDup.
Qed.

Ltac decide_keys :=
  repeat match goal with
         | |- context [?a =? ?b] =>
             destruct (String.eqb_spec a b); try congruence
         end.

(** C4. In ranking mode, four slots filled with four distinct player ids
    and no manual transfer give +6, -1, -2, -3, total 0 and no warning;
    slots not so filled give the warning and leave every delta at 0. *)
Theorem ranking_tariff game players :
  Game.u game = false ->
  Game.chay game = [] ->
  (filled4 game = true ->
   forallb (fun k => mem k (ids players)) (picksOf game) = true ->
   Game.anChot game = [] ->
   let r := computeGamePoints game players in
   JsObj.get (Placements.first (Game.placements game)) (Summary.points r) = Some (Int 6)
   /\ JsObj.get (Placements.second (Game.placements game)) (Summary.points r) = Some (Int (-1))
   /\ JsObj.get (Placements.third (Game.placements game)) (Summary.points r) = Some (Int (-2))
   /\ JsObj.get (Placements.fourth (Game.placements game)) (Summary.points r) = Some (Int (-3))
   /\ (forall q, In q (ids players) -> ~ In q (picksOf game) ->
                 JsObj.get q (Summary.points r) = Some (Int 0))
   /\ Summary.total r = Int 0
   /\ Summary.warnings r = [])
  /\ (filled4 game = false ->
      let st := beforeTransfers game players in
      warnings st = ["Chưa đủ xếp hạng 1-4"]
      /\ points st = points (initial players)
      /\ forall q, In q (ids players) -> JsObj.get q (points st) = Some (Int 0)).
Proof.
  intros Hu Hc. split.
  - intros Hf Hin Ha r.
    assert (Hst : forEach (Game.anChot game) applyTransfer (beforeTransfers game players)
                  = scoreRanking game (initial players)).
    { rewrite Ha. unfold beforeTransfers, scoreMode.
      now rewrite Hu, (chaySetOf_nil _ Hc). }
    assert (Hp : Summary.points r = points (scoreRanking game (initial players)))
      by (subst r; now rewrite computeGamePoints_points, Hst).
    assert (Hw : Summary.warnings r = warnings (scoreRanking game (initial players)))
      by (subst r; now rewrite computeGamePoints_warnings, Hst).
    rewrite filled4_unique in Hf.
    pose proof Hf as Hnd. apply Nat.eqb_eq in Hnd.
    apply (unique_size (picksOf game)) in Hnd as [_ Hnd].
    simpl in Hin.
    apply andb_true_iff in Hin as [I1 Hin]. apply andb_true_iff in Hin as [I2 Hin].
    apply andb_true_iff in Hin as [I3 Hin]. apply andb_true_iff in Hin as [I4 _].
    apply mem_In in I1, I2, I3, I4.
    unfold picksOf in Hnd.
    inversion Hnd as [|? ? N1 Hnd1]; subst.
    inversion Hnd1 as [|? ? N2 Hnd2]; subst.
    inversion Hnd2 as [|? ? N3 _]; subst.
    simpl in N1, N2, N3.
    assert (Htot : Summary.total r = Int 0).
    { subst r. rewrite computeGamePoints_total, Hp.
      destruct (scoreRanking_Bal (map fst (points (initial players))) game
                  (initial players)) as (_ & Hall & Hsum).
      - intros k Hk _. apply initial_keys. simpl in Hk.
        destruct Hk as [<-|[<-|[<-|[<-|[]]]]]; assumption.
      - apply initial_Bal.
      - rewrite sum_values_int by assumption. now rewrite Hsum. }
    rewrite Hw, Hp. unfold scoreRanking. fold (picksOf game). rewrite Hf.
    cbn [negb]. unfold seq.
    assert (Hread : forall q, In q (ids players) ->
              JsObj.get q
                (points
                   (sub_assign (Placements.fourth (Game.placements game)) 3
                      (sub_assign (Placements.third (Game.placements game)) 2
                         (sub_assign (Placements.second (Game.placements game)) 1
                            (add_assign (Placements.first (Game.placements game)) 6
                               (initial players))))))
              = Some (Int (if q =? Placements.first (Game.placements game) then 6
                           else if q =? Placements.second (Game.placements game) then -1
                           else if q =? Placements.third (Game.placements game) then -2
                           else if q =? Placements.fourth (Game.placements game) then -3
                           else 0))).
    { intros q Hq.
      rewrite !get_sub_assign, !get_add_assign.
      decide_keys; subst; try tauto;
        rewrite ?get_sub_assign, ?get_add_assign;
        decide_keys; try tauto;
        rewrite ?get_sub_assign, ?get_add_assign;
        decide_keys; try tauto;
        rewrite ?get_sub_assign, ?get_add_assign;
        decide_keys; try tauto;
        rewrite ?initial_get by assumption; reflexivity. }
    repeat split; auto.
    + rewrite Hread by assumption. now rewrite String.eqb_refl.
    + rewrite Hread by assumption. decide_keys; first [reflexivity|tauto].
    + rewrite Hread by assumption. decide_keys; first [reflexivity|tauto].
    + rewrite Hread by assumption. decide_keys; first [reflexivity|tauto].
    + intros q Hq Hnq. simpl in Hnq. rewrite Hread by assumption.
      decide_keys; first [reflexivity|exfalso; intuition congruence].
  - intros Hf st. subst st. unfold beforeTransfers, scoreMode.
    rewrite Hu, (chaySetOf_nil _ Hc). simpl.
    unfold scoreRanking. fold (picksOf game). rewrite <- filled4_unique, Hf. simpl.
    repeat split. intros q Hq. now apply initial_get.
Qed.

Lemma ranking_tariff_witness :
  (let r := computeGamePoints (round false (slots "p1" "p2" "p3" "p4") [] []) seats in
   JsObj.get "p1" (Summary.points r) = Some (Int 6)
   /\ JsObj.get "p2" (Summary.points r) = Some (Int (-1))
   /\ JsObj.get "p3" (Summary.points r) = Some (Int (-2))
   /\ JsObj.get "p4" (Summary.points r) = Some (Int (-3))
   /\ (forall q, In q (ids seats) -> ~ In q ["p1"; "p2"; "p3"; "p4"] ->
                 JsObj.get q (Summary.points r) = Some (Int 0))
   /\ Summary.total r = Int 0
   /\ Summary.warnings r = [])
  /\ (let st := beforeTransfers (round false (slots "p1" "p1" "p3" "") [] []) seats in
      warnings st = ["Chưa đủ xếp hạng 1-4"]
      /\ points st = points (initial seats)
      /\ forall q, In q (ids seats) -> JsObj.get q (points st) = Some (Int 0)).
Proof.
  split.
  - apply (proj1 (ranking_tariff (round false (slots "p1" "p2" "p3" "p4") [] [])
                    seats eq_refl eq_refl)); reflexivity.
  - apply (proj2 (ranking_tariff (round false (slots "p1" "p1" "p3" "") [] [])
                    seats eq_refl eq_refl)); reflexivity.
Defined.

(** ** Burn mode *)

Lemma Set_has_chaySet game q : Set_has q (chaySetOf game) = burned game q.
Proof.
  unfold burned, chaySetOf.
  destruct (Set_has q _) eqn:E.
  - apply Set_has_In in E. rewrite In_new_Set in E.
    apply filter_In in E as [Hin Ht]. rewrite Ht. simpl.
    symmetry. now apply mem_In.
  - apply Set_has_false in E. rewrite In_new_Set, filter_In in E.
    destruct (truthy q) eqn:Ht; simpl; auto.
    symmetry. apply mem_false. tauto.
Qed.

Lemma chaySet_length game : Z.of_nat (length (chaySetOf game)) = burnedCount game.
Proof.
  unfold burnedCount, chaySetOf. f_equal.
  apply Permutation_length, NoDup_Permutation.
  - apply NoDup_new_Set.
  - apply NoDup_nodup.
  - intros x. now rewrite In_new_Set, nodup_In.
Qed.

Lemma burnMode_hasChay game :
  burnMode game = true ->
  Game.u game = false /\ (0 <? length (chaySetOf game))%nat = true.
Proof.
  unfold burnMode. intros H. apply andb_true_iff in H as [Hu Hex].
  apply negb_true_iff in Hu. split; auto.
  apply existsb_exists in Hex as (t & Hin & Ht).
  assert (Hx : In (Transfer.from t) (chaySetOf game)).
  { unfold chaySetOf. rewrite In_new_Set. apply filter_In. split; auto.
    now apply in_map. }
  destruct (chaySetOf game); [contradiction|reflexivity].
Qed.

(** The loop over the burned set, read key by key. *)
Lemma get_burn_loop W S :
  NoDup S -> ~ In W S ->
  forall st w0,
    JsObj.get W (points st) = Some (Int w0) ->
    let st' := forEach S (fun playerId =>
                 if playerId =? W then skip
                 else sub_assign playerId 4 ;; add_assign W 4) st in
    JsObj.get W (points st') = Some (Int (w0 + 4 * Z.of_nat (length S)))
    /\ (forall q, q <> W ->
          JsObj.get q (points st')
          = if mem q S then Some (nsub (to_num (JsObj.get q (points st))) (Int 4))
            else JsObj.get q (points st))
    /\ warnings st' = warnings st.
Proof.
  induction 1 as [|x r Hnin Hnd IH]; intros HW st w0 Hg.
  - cbn zeta. unfold forEach. simpl. repeat split; auto.
    rewrite Hg. do 2 f_equal. lia.
  - cbn zeta. rewrite forEach_cons.
    assert (HxW : x <> W) by (intros ->; apply HW; now left).
    assert (HW' : ~ In W r) by (intros Hin; apply HW; now right).
    apply String.eqb_neq in HxW as HxWb. rewrite HxWb.
    apply String.eqb_neq in HxWb.
    specialize (IH HW' ((sub_assign x 4 ;; add_assign W 4) st) (w0 + 4)%Z).
    cbn zeta in IH.
    destruct IH as (IH1 & IH2 & IH3).
    { rewrite get_move by assumption. rewrite String.eqb_refl, Hg. reflexivity. }
    repeat split.
    + rewrite IH1. do 2 f_equal. simpl length. rewrite Nat2Z.inj_succ. lia.
    + intros q Hq. rewrite IH2 by assumption.
      rewrite !get_move by assumption.
      apply String.eqb_neq in Hq as Hqb. rewrite Hqb.
      simpl mem. rewrite (String.eqb_sym q x).
      destruct (String.eqb_spec x q) as [E|Hne]; simpl.
      * subst q. apply mem_false in Hnin. now rewrite Hnin.
      * reflexivity.
    + rewrite IH3. reflexivity.
Qed.

Lemma get_when_move (P : string -> Prop) (D : string -> Z) c a b n st :
  (c = true -> a <> b) ->
  P b ->
  (forall q, P q -> JsObj.get q (points st) = Some (Int (D q))) ->
  forall q, P q ->
    JsObj.get q (points (when c (sub_assign a n ;; add_assign b n) st))
    = Some (Int (D q + (if c && (q =? b) then n else 0)
                 - (if c && (q =? a) then n else 0))).
Proof.
  intros Hab Pb HD q Pq. destruct c; unfold when, skip; cbn [andb].
  - specialize (Hab eq_refl). rewrite get_move by assumption.
    destruct (String.eqb_spec q b) as [E|Hqb].
    + subst q. rewrite (HD b Pb). cbn [to_num nadd].
      apply String.eqb_neq in Hab. rewrite String.eqb_sym, Hab.
      do 2 f_equal. lia.
    + destruct (String.eqb_spec q a) as [E|Hqa].
      * subst q. rewrite (HD a Pq). cbn [to_num nsub]. do 2 f_equal. lia.
      * rewrite (HD q Pq). do 2 f_equal. lia.
  - rewrite (HD q Pq). do 2 f_equal. lia.
Qed.

Lemma points_when_push c w st : points (when c (push w) st) = points st.
Proof. now destruct c. Qed.

Lemma warnings_when_push c w st :
  warnings (when c (push w) st) = warnings st ++ (if c then [w] else []).
Proof. destruct c; simpl; auto. unfold when, skip. now rewrite app_nil_r. Qed.

Lemma warnings_when_move c a b n st :
  warnings (when c (sub_assign a n ;; add_assign b n) st) = warnings st.
Proof. now destruct c. Qed.

(** The burn branch once the winner has passed both guards. *)
Lemma scoreChay_unfold game players st :
  truthy (Placements.first (Game.placements game)) = true ->
  Set_has (Placements.first (Game.placements game)) (chaySetOf game) = false ->
  let winner := Placements.first (Game.placements game) in
  let second := Placements.second (Game.placements game) in
  let third := Placements.third (Game.placements game) in
  let chaySet := chaySetOf game in
  scoreChay game players st
  = when ((3 <=? length (nonChayOf game players))%nat
          && (negb (truthy third) || (third =? winner) || (third =? second)
              || Set_has third chaySet))
      (push "Thiếu người về ba")
      (when ((2 <=? length (nonChayOf game players))%nat
             && (negb (truthy second) || (second =? winner) || Set_has second chaySet))
         (push "Thiếu người về nhì")
         (when (truthy third && negb (Set_has third chaySet) && negb (third =? winner)
                && negb (third =? second))
            (sub_assign third 2 ;; add_assign winner 2)
            (when (truthy second && negb (Set_has second chaySet)
                   && negb (second =? winner))
               (sub_assign second 1 ;; add_assign winner 1)
               (forEach chaySet (fun playerId =>
                  if playerId =? winner then skip
                  else sub_assign playerId 4 ;; add_assign winner 4) st)))).
Proof.
  intros Ht Hb. unfold scoreChay. rewrite Ht, Hb. reflexivity.
Qed.

(** C2. In burn mode with a winner in slot first who is not burned, the
    deltas before the manual transfers are: every distinct burned player
    pays 4 to the winner; second pays 1 if set, not the winner and not
    burned; third pays 2 if set, not the winner, not second and not
    burned. *)
Theorem burn_mode_deltas game players :
  burnMode game = true ->
  truthy (Placements.first (Game.placements game)) = true ->
  burned game (Placements.first (Game.placements game)) = false ->
  mem (Placements.first (Game.placements game)) (ids players) = true ->
  forall q, In q (ids players) ->
    JsObj.get q (points (beforeTransfers game players))
    = Some (Int (burnDelta game q)).
Proof.
  intros Hmode Ht Hnb Hin q Hq.
  destruct (burnMode_hasChay _ Hmode) as [Hu Hhas].
  rewrite <- Set_has_chaySet in Hnb. apply mem_In in Hin.
  unfold beforeTransfers, scoreMode. rewrite Hu, Hhas.
  rewrite scoreChay_unfold by assumption. cbn zeta.
  rewrite !points_when_push.
  set (W := Placements.first (Game.placements game)) in *.
  set (s := Placements.second (Game.placements game)).
  set (t := Placements.third (Game.placements game)).
  set (S := chaySetOf game) in *.
  destruct (get_burn_loop W S (NoDup_new_Set _) (proj1 (Set_has_false _ _) Hnb)
              (initial players) 0%Z (initial_get _ _ Hin)) as (L1 & L2 & _).
  set (st1 := forEach S _ (initial players)) in *.
  set (D1 := fun k : string =>
               ((if (k =? W)%string then 4 * Z.of_nat (length S) else 0)
                - (if mem k S then 4 else 0))%Z).
  assert (H1 : forall k, In k (ids players) ->
                 JsObj.get k (points st1) = Some (Int (D1 k))).
  { intros k Hk. unfold D1. destruct (String.eqb_spec k W) as [E|Hne].
    - subst k. rewrite L1. change (mem W S) with (Set_has W S). rewrite Hnb.
      do 2 f_equal. lia.
    - rewrite L2 by assumption. rewrite (initial_get _ _ Hk).
      destruct (mem k S); reflexivity. }
  set (c2 := truthy s && negb (Set_has s S) && negb (s =? W)).
  set (c3 := truthy t && negb (Set_has t S) && negb (t =? W) && negb (t =? s)).
  assert (Hc2 : c2 = true -> s <> W).
  { unfold c2. intros H. apply andb_true_iff in H as [_ H].
    now apply negb_true_iff, String.eqb_neq in H. }
  assert (Hc3 : c3 = true -> t <> W).
  { unfold c3. intros H. apply andb_true_iff in H as [H _].
    apply andb_true_iff in H as [_ H].
    now apply negb_true_iff, String.eqb_neq in H. }
  pose proof (get_when_move (fun k => In k (ids players)) D1 c2 s W 1 st1
                Hc2 Hin H1) as H2.
  pose proof (get_when_move (fun k => In k (ids players)) _ c3 t W 2 _
                Hc3 Hin H2 q Hq) as H3.
  cbv beta in H3. rewrite H3. do 2 f_equal.
  unfold burnDelta, secondPays, thirdPays, D1.
  fold W s t. rewrite <- !Set_has_chaySet, <- chaySet_length. fold S.
  change (mem q S) with (Set_has q S).
  replace (truthy s && negb (s =? W) && negb (Set_has s S)) with c2
    by (unfold c2; destruct (truthy s), (s =? W), (Set_has s S); reflexivity).
  replace (truthy t && negb (t =? W) && negb (t =? s) && negb (Set_has t S)) with c3
    by (unfold c3; destruct (truthy t), (t =? W), (t =? s), (Set_has t S); reflexivity).
  destruct (String.eqb_spec q W) as [E|Hne].
  - subst q. rewrite Hnb.
    assert (E2 : c2 && (W =? s) = false).
    { destruct c2 eqn:C; auto. simpl. apply String.eqb_neq.
      apply not_eq_sym. now apply Hc2. }
    assert (E3 : c3 && (W =? t) = false).
    { destruct c3 eqn:C; auto. simpl. apply String.eqb_neq.
      apply not_eq_sym. now apply Hc3. }
    rewrite E2, E3, !andb_true_r. destruct c2, c3; lia.
  - rewrite !andb_false_r.
    destruct (Set_has q S), (c2 && (q =? s)), (c3 && (q =? t)); lia.
Qed.

Lemma burn_mode_deltas_witness :
  let g := round false (slots "p1" "p3" "p4" "") [] [transfer "c1" "p2" "p1" 4] in
  JsObj.get "p1" (points (beforeTransfers g seats)) = Some (Int 7)
  /\ JsObj.get "p2" (points (beforeTransfers g seats)) = Some (Int (-4))
  /\ JsObj.get "p3" (points (beforeTransfers g seats)) = Some (Int (-1))
  /\ JsObj.get "p4" (points (beforeTransfers g seats)) = Some (Int (-2)).
Proof.
  pose (g := round false (slots "p1" "p3" "p4" "") [] [transfer "c1" "p2" "p1" 4]).
  pose proof (burn_mode_deltas g seats eq_refl eq_refl eq_refl eq_refl) as H.
  repeat split; apply H; simpl; auto.
Defined.

(** ** The warnings list in closed form *)

Lemma hasChay_exists game :
  (0 <? length (chaySetOf game))%nat
  = existsb (fun entry => truthy (Transfer.from entry)) (Game.chay game).
Proof.
  destruct (existsb _ (Game.chay game)) eqn:E.
  - apply existsb_exists in E as (t & Hin & Ht).
    assert (Hx : In (Transfer.from t) (chaySetOf game)).
    { unfold chaySetOf. rewrite In_new_Set. apply filter_In. split; auto.
      now apply in_map. }
    destruct (chaySetOf game); [contradiction|reflexivity].
  - destruct (chaySetOf game) as [|x r] eqn:ES; auto.
    assert (Hx : In x (chaySetOf game)) by (rewrite ES; now left).
    unfold chaySetOf in Hx. rewrite In_new_Set in Hx.
    apply filter_In in Hx as [Hin Ht].
    apply in_map_iff in Hin as (t & <- & Hin).
    assert (existsb (fun entry => truthy (Transfer.from entry)) (Game.chay game) = true)
      by (apply existsb_exists; eauto).
    congruence.
Qed.

Lemma nonChay_length game players :
  length (nonChayOf game players) = nonBurnedPlayers game players.
Proof.
  unfold nonChayOf, nonBurnedPlayers. f_equal.
  apply filter_ext. intros q. now rewrite Set_has_chaySet.
Qed.

Lemma warnings_burn_loop W S st :
  warnings (forEach S (fun playerId =>
              if playerId =? W then skip
              else sub_assign playerId 4 ;; add_assign W 4) st)
  = warnings st.
Proof.
  apply (forEach_inv (fun s => warnings s = warnings st)); auto.
  intros x s _ Hs. now destruct (x =? W).
Qed.

Lemma warnings_scoreMode game players :
  warnings (beforeTransfers game players) = modeWarnings game players.
Proof.
  unfold beforeTransfers, scoreMode, modeWarnings.
  rewrite hasChay_exists.
  destruct (Game.u game).
  - unfold scoreU.
    destruct (truthy (Placements.first (Game.placements game))); simpl; auto.
    apply (warnings_forEach_assign
             (fun k => if k =? Placements.first (Game.placements game)
                       then Int 15 else Int (-5))).
  - destruct (existsb _ (Game.chay game)).
    + rewrite <- Set_has_chaySet.
      destruct (truthy (Placements.first (Game.placements game))) eqn:Ht;
        [|unfold scoreChay; now rewrite Ht].
      destruct (Set_has (Placements.first (Game.placements game)) (chaySetOf game))
        eqn:Hb; [unfold scoreChay; now rewrite Ht, Hb|].
      rewrite scoreChay_unfold by assumption. cbn zeta.
      rewrite !warnings_when_push, !warnings_when_move, warnings_burn_loop.
      rewrite nonChay_length. unfold secondMissing, thirdMissing.
      rewrite !Set_has_chaySet. cbn [negb]. reflexivity.
    + unfold scoreRanking. fold (picksOf game). rewrite <- filled4_unique.
      now destruct (filled4 game).
Qed.

Lemma applyTransfer_invalid entry st :
  invalidTransfer entry = true ->
  applyTransfer entry st = push "Chuyển điểm chưa hợp lệ" st.
Proof.
  unfold invalidTransfer, applyTransfer. intros H.
  replace (negb (truthy (Transfer.from entry)) || negb (truthy (Transfer.to entry))
           || (Transfer.from entry =? Transfer.to entry)) with true; auto.
  destruct (Transfer.from entry =? Transfer.to entry),
    (truthy (Transfer.from entry)), (truthy (Transfer.to entry));
    simpl in *; congruence.
Qed.

Lemma applyTransfer_valid entry st :
  invalidTransfer entry = false ->
  applyTransfer entry st
  = (sub_assign (Transfer.from entry) (Transfer.points entry) ;;
     add_assign (Transfer.to entry) (Transfer.points entry)) st.
Proof.
  unfold invalidTransfer, applyTransfer. intros H.
  replace (negb (truthy (Transfer.from entry)) || negb (truthy (Transfer.to entry))
           || (Transfer.from entry =? Transfer.to entry)) with false; auto.
  destruct (Transfer.from entry =? Transfer.to entry),
    (truthy (Transfer.from entry)), (truthy (Transfer.to entry));
    simpl in *; congruence.
Qed.

Lemma warnings_transfers entries st :
  warnings (forEach entries applyTransfer st)
  = warnings st
    ++ repeat "Chuyển điểm chưa hợp lệ" (length (filter invalidTransfer entries)).
Proof.
  revert st. induction entries as [|t r IH]; intros st.
  - simpl. now rewrite app_nil_r.
  - rewrite forEach_cons, IH. simpl filter.
    destruct (invalidTransfer t) eqn:E.
    + rewrite applyTransfer_invalid by assumption. simpl.
      now rewrite <- app_assoc.
    + rewrite applyTransfer_valid by assumption. reflexivity.
Qed.

(** The warnings of [computeGamePoints], for every input. *)
Lemma warnings_closed_form game players :
  Summary.warnings (computeGamePoints game players) = expectedWarnings game players.
Proof.
  rewrite computeGamePoints_warnings, warnings_transfers, warnings_scoreMode.
  reflexivity.
Qed.

(** ** Completeness warnings of burn mode *)

Lemma In_repeat_eq (x y : string) n : In x (repeat y n) -> x = y.
Proof. apply repeat_spec. Qed.

(** C5, as the code has it. In burn mode with a winner who is not burned,
    "missing second place" is emitted exactly when at least 2 players are
    not burned, the winner counted among them, and slot second is empty,
    the winner or burned; "missing third place" exactly when at least 3
    players are not burned and slot third is empty, the winner, equal to
    second or burned. *)
Theorem completeness_warnings game players :
  burnMode game = true ->
  truthy (Placements.first (Game.placements game)) = true ->
  burned game (Placements.first (Game.placements game)) = false ->
  let ws := Summary.warnings (computeGamePoints game players) in
  (In "Thiếu người về nhì" ws
   <-> (2 <= nonBurnedPlayers game players)%nat /\ secondMissing game = true)
  /\ (In "Thiếu người về ba" ws
      <-> (3 <= nonBurnedPlayers game players)%nat /\ thirdMissing game = true).
Proof.
  intros Hmode Ht Hnb ws. subst ws.
  rewrite warnings_closed_form. unfold expectedWarnings, modeWarnings.
  unfold burnMode in Hmode. apply andb_true_iff in Hmode as [Hu Hex].
  apply negb_true_iff in Hu. rewrite Hu, Hex, Ht, Hnb. cbn [negb].
  rewrite !in_app_iff.
  split; split.
  - intros [[H|H]|H].
    + destruct (_ && secondMissing game) eqn:E; [|contradiction].
      apply andb_true_iff in E as [E1 E2]. apply Nat.leb_le in E1. auto.
    + destruct (_ && thirdMissing game); [|contradiction].
      destruct H as [H|[]]. discriminate H.
    + apply In_repeat_eq in H. discriminate H.
  - intros [H1 H2]. apply Nat.leb_le in H1. rewrite H1, H2. left. left. now left.
  - intros [[H|H]|H].
    + destruct (_ && secondMissing game); [|contradiction].
      destruct H as [H|[]]. discriminate H.
    + destruct (_ && thirdMissing game) eqn:E; [|contradiction].
      apply andb_true_iff in E as [E1 E2]. apply Nat.leb_le in E1. auto.
    + apply In_repeat_eq in H. discriminate H.
  - intros [H1 H2]. apply Nat.leb_le in H1. rewrite H1, H2. left. right. now left.
Qed.

Lemma completeness_warnings_witness :
  let g := round false (slots "p1" "" "p4" "") []
             [transfer "c1" "p2" "p1" 4; transfer "c2" "p3" "p1" 4] in
  let ws := Summary.warnings (computeGamePoints g seats) in
  (In "Thiếu người về nhì" ws
   <-> (2 <= nonBurnedPlayers g seats)%nat /\ secondMissing g = true)
  /\ (In "Thiếu người về ba" ws
      <-> (3 <= nonBurnedPlayers g seats)%nat /\ thirdMissing g = true).
Proof.
  apply (completeness_warnings
           (round false (slots "p1" "" "p4" "") []
              [transfer "c1" "p2" "p1" 4; transfer "c2" "p3" "p1" 4]) seats);
    reflexivity.
Defined.

(** With two of four players burned and slot second empty, the warning is
    emitted although only one player is neither burned nor the winner. *)
Lemma completeness_second_counterexample :
  let g := round false (slots "p1" "" "p4" "") []
             [transfer "c1" "p2" "p1" 4; transfer "c2" "p3" "p1" 4] in
  burnMode g = true
  /\ burned g "p1" = false
  /\ nonBurnedNonWinners g seats = 1%nat
  /\ ~ (In "Thiếu người về nhì" (Summary.warnings (computeGamePoints g seats))
        <-> (2 <= nonBurnedNonWinners g seats)%nat /\ secondMissing g = true).
Proof.
  cbv zeta. repeat split.
  intros [H _].
  assert (Hw : In "Thiếu người về nhì"
                 (Summary.warnings
                    (computeGamePoints
                       (round false (slots "p1" "" "p4" "") []
                          [transfer "c1" "p2" "p1" 4; transfer "c2" "p3" "p1" 4])
                       seats))) by (vm_compute; auto).
  apply H in Hw as [Hle _]. vm_compute in Hle. lia.
Qed.

(** ** Manual transfers *)



(** ** Burn targets are never read *)

Lemma sameBurnSource_from l1 l2 :
  Forall2 sameBurnSource l1 l2 -> map Transfer.from l1 = map Transfer.from l2.
Proof.
  induction 1 as [|a b r1 r2 [_ Hf] _ IH]; simpl; auto.
  now rewrite Hf, IH.
Qed.

(** The scoring by mode reads the burn list through its [from] fields
    only. *)
Lemma scoreMode_sources g1 g2 players :
  Game.u g1 = Game.u g2 ->
  Game.placements g1 = Game.placements g2 ->
  map Transfer.from (Game.chay g1) = map Transfer.from (Game.chay g2) ->
  scoreMode g1 players = scoreMode g2 players.
Proof.
  intros Hu Hp Hc.
  assert (HS : chaySetOf g1 = chaySetOf g2) by (unfold chaySetOf; now rewrite Hc).
  unfold scoreMode, scoreU, scoreChay, scoreRanking, nonChayOf.
  now rewrite Hu, Hp, HS.
Qed.

(** C10. Two rounds that differ only in the [to] and [points] fields of
    their burn entries get the same result: burn scoring reads only the
    [from] of each entry, moves the fixed amount 4 and pays the player in
    slot first. *)
Theorem burn_targets_irrelevant g1 g2 players :
  sameButBurnTargets g1 g2 ->
  computeGamePoints g1 players = computeGamePoints g2 players.
Proof.
  intros (_ & Hu & Hp & Ha & Hc).
  apply sameBurnSource_from in Hc.
  pose proof (scoreMode_sources g1 g2 players Hu Hp Hc) as HM.
  unfold computeGamePoints. rewrite HM, Ha. reflexivity.
Qed.

Lemma burn_targets_irrelevant_witness :
  computeGamePoints
    (round false (slots "p1" "p3" "p4" "") [] [transfer "c1" "p2" "p1" 4]) seats
  = computeGamePoints
      (round false (slots "p1" "p3" "p4" "") [] [transfer "c1" "p2" "" 900]) seats.
Proof.
  apply burn_targets_irrelevant.
  repeat split; repeat constructor.
Defined.

(** A burn entry keeps the winner it was created with when slot first is
    cleared afterwards; the stale reference changes nothing. *)
Lemma clearPlacement_keeps_targets game key :
  Game.chay (clearPlacement game key) = Game.chay game.
Proof. reflexivity. Qed.

Lemma retargetChay_same_result target amount game players :
  computeGamePoints (retargetChay target amount game) players
  = computeGamePoints game players.
Proof.
  assert (HM : scoreMode (retargetChay target amount game) players
               = scoreMode game players).
  { apply scoreMode_sources; auto. simpl. rewrite map_map. reflexivity. }
  unfold computeGamePoints. rewrite HM. reflexivity.
Qed.

Example stale_burn_target :
  let g0 := round false (slots "p1" "" "" "") [] [] in
  let g1 := clearPlacement (handleDropChay "c1" g0 "p2") PlacementKey.first in
  map Transfer.to (Game.chay g1) = ["p1"]
  /\ Placements.first (Game.placements g1) = ""
  /\ computeGamePoints g1 seats = computeGamePoints (retargetChay "" 0 g1) seats.
Proof. repeat split. Qed.

(** ** A result for every input *)

Lemma keeps_assign k v : keeps_keys (assign k v).
Proof.
  intros q st H. unfold assign. simpl. apply JsObjFacts.In_keys_set. now right.
Qed.

Lemma keeps_sub_assign k n : keeps_keys (sub_assign k n).
Proof. intros q st. unfold sub_assign. apply keeps_assign. Qed.

Lemma keeps_add_assign k n : keeps_keys (add_assign k n).
Proof. intros q st. unfold add_assign. apply keeps_assign. Qed.

Lemma keeps_push w : keeps_keys (push w).
Proof. intros q st H. exact H. Qed.

Lemma keeps_skip : keeps_keys skip.
Proof. intros q st H. exact H. Qed.

Lemma keeps_seq a b : keeps_keys a -> keeps_keys b -> keeps_keys (a ;; b).
Proof. intros Ha Hb q st H. unfold seq. auto. Qed.

Lemma keeps_when c body : keeps_keys body -> keeps_keys (when c body).
Proof. intros Hb. destruct c; [exact Hb|apply keeps_skip]. Qed.

Lemma keeps_forEach {A : Type} (l : list A) (body : A -> Cmd) :
  (forall x, keeps_keys (body x)) -> keeps_keys (forEach l body).
Proof.
  intros Hb q st H.
  apply (forEach_inv (fun s => In q (map fst (points s)))); auto.
  intros x s _ Hs. now apply Hb.
Qed.

Create HintDb keys.

#[local] Hint Resolve keeps_assign keeps_sub_assign keeps_add_assign keeps_push
  keeps_skip keeps_seq keeps_when : keys.

Lemma keeps_applyTransfer entry : keeps_keys (applyTransfer entry).
Proof. unfold applyTransfer. destruct (_ || _); auto with keys. Qed.

Lemma keeps_scoreMode game players : keeps_keys (scoreMode game players).
Proof.
  unfold scoreMode, scoreU, scoreChay, scoreRanking.
  destruct (Game.u game).
  - destruct (negb _); auto with keys.
    apply keeps_forEach. auto with keys.
  - destruct (0 <? _)%nat.
    + destruct (negb _); auto with keys.
      destruct (Set_has _ _); auto with keys.
      apply keeps_seq; [|auto 10 with keys].
      apply keeps_forEach. intros x. destruct (x =? _); auto with keys.
    + destruct (negb _); auto 10 with keys.
Qed.

(** Every player has a delta in the result. *)
Lemma every_player_has_delta game players p :
  In p (ids players) ->
  exists v, JsObj.get p (Summary.points (computeGamePoints game players)) = Some v.
Proof.
  intros Hin. apply JsObjFacts.get_In.
  rewrite computeGamePoints_points.
  apply keeps_forEach; [intros x; apply keeps_applyTransfer|].
  apply keeps_scoreMode. now apply initial_keys.
Qed.

Lemma repeat_nil_iff {A : Type} (x : A) n : repeat x n = [] <-> n = 0%nat.
Proof. destruct n; simpl; split; congruence. Qed.

Lemma filter_nil_existsb {A : Type} (f : A -> bool) l :
  length (filter f l) = 0%nat <-> existsb f l = false.
Proof.
  induction l as [|x r IH]; simpl; [tauto|].
  destruct (f x); simpl; [split; discriminate|exact IH].
Qed.

(** The warnings list is non-empty exactly when one of the conditions the
    engine checks holds. *)
Lemma warnings_flagged game players :
  Summary.warnings (computeGamePoints game players) <> []
  <-> flagged game players = true.
Proof.
  rewrite warnings_closed_form.
  unfold expectedWarnings, modeWarnings, flagged.
  assert (Hinv : repeat "Chuyển điểm chưa hợp lệ"
                   (length (filter invalidTransfer (Game.anChot game))) = []
                 <-> existsb invalidTransfer (Game.anChot game) = false).
  { rewrite repeat_nil_iff. apply filter_nil_existsb. }
  destruct (existsb invalidTransfer (Game.anChot game)).
  + rewrite orb_true_r. split; auto. intros _ E.
    apply app_eq_nil in E as [_ E]. apply Hinv in E. discriminate.
  + rewrite orb_false_r. rewrite (proj2 Hinv eq_refl), app_nil_r.
    destruct (Game.u game).
    * destruct (truthy _); simpl; split; congruence.
    * destruct (existsb _ (Game.chay game)).
      -- destruct (truthy _); simpl; [|split; congruence].
         destruct (burned game _); simpl; [split; congruence|].
         destruct (_ && secondMissing game); simpl; [split; congruence|].
         destruct (_ && thirdMissing game); simpl; split; congruence.
      -- destruct (filled4 game); simpl; split; congruence.
Qed.

(** ** Session totals *)

Lemma get_addSummary ps summary :
  NoDup (ids ps) ->
  forall totals k,
    JsObj.get k (addSummary ps totals summary)
    = if mem k (ids ps)
      then Some (nadd (to_num (JsObj.get k totals))
                      (nullish (JsObj.get k (Summary.points summary)) (Int 0)))
      else JsObj.get k totals.
Proof.
  induction ps as [|p r IH]; intros Hnd totals k; [reflexivity|].
  inversion Hnd as [|? ? Hnin Hnd']; subst.
  unfold addSummary in *. simpl fold_left. rewrite IH by assumption.
  rewrite !JsObjFacts.get_set. simpl mem.
  destruct (String.eqb_spec k (Player.id p)) as [E|Hne]; simpl.
  - subst k. apply mem_false in Hnin. now rewrite Hnin.
  - reflexivity.
Qed.

Lemma keys_addSummary ps summary totals :
  (forall k, In k (ids ps) -> In k (map fst totals)) ->
  map fst (addSummary ps totals summary) = map fst totals.
Proof.
  revert totals. induction ps as [|p r IH]; intros totals Hin; [reflexivity|].
  unfold addSummary in *. simpl fold_left. rewrite IH.
  - apply JsObjFacts.keys_set_In. apply Hin. now left.
  - intros k Hk. rewrite JsObjFacts.keys_set_In; apply Hin; simpl; auto.
Qed.

Lemma get_totals_loop players summaries :
  NoDup (ids players) ->
  forall totals k,
    In k (ids players) ->
    In k (map fst totals) ->
    JsObj.get k (fold_left (addSummary players) summaries totals)
    = Some (fold_left nadd
              (map (fun summary =>
                      nullish (JsObj.get k (Summary.points summary)) (Int 0))
                   summaries)
              (to_num (JsObj.get k totals))).
Proof.
  intros Hnd. induction summaries as [|s r IH]; intros totals k Hk Hin.
  - simpl. destruct (JsObjFacts.get_In _ _ Hin) as [v Hv]. now rewrite Hv.
  - simpl. rewrite IH; auto.
    + rewrite get_addSummary by assumption.
      apply mem_In in Hk. now rewrite Hk.
    + destruct (JsObj.get k (addSummary players totals s)) eqn:E.
      * eapply JsObjFacts.get_Some_In; eauto.
      * rewrite get_addSummary in E by assumption.
        apply mem_In in Hk. rewrite Hk in E. discriminate.
Qed.


Lemma sessionTotals_unfold session :
  NoDup (ids (Session.players session)) ->
  sessionTotals (Some session)
  = fold_left (addSummary (Session.players session))
      (map (fun game => computeGamePoints game (Session.players session))
           (Session.games session))
      (map (fun player => (Player.id player, Int 0)) (Session.players session)).
Proof.
  intros Hnd. unfold sessionTotals, gameSummaries.
  rewrite JsObjFacts.fromEntries_NoDup; [reflexivity|].
  now rewrite map_map.
Qed.




(** ** The "top" statistics *)

Lemma chayCountsOf_countsOf session : chayCountsOf session = countsOf Game.chay session.
Proof. reflexivity. Qed.

Lemma anChotCountsOf_countsOf session :
  anChotCountsOf session = countsOf Game.anChot session.
Proof. reflexivity. Qed.

Lemma fold_max_perm l l' :
  Permutation l l' -> forall a, fold_left Z.max l a = fold_left Z.max l' a.
Proof.
  induction 1; intros a; simpl; auto.
  - f_equal. lia.
  - now rewrite IHPermutation1.
Qed.

Lemma filter_perm {A : Type} (f : A -> bool) l l' :
  Permutation l l' -> Permutation (filter f l) (filter f l').
Proof.
  induction 1; simpl; auto.
  - destruct (f x); auto.
  - destruct (f x), (f y); auto. apply perm_swap.
  - eapply perm_trans; eauto.
Qed.

Lemma filterBoolean_perm l l' :
  Permutation l l' -> Permutation (filterBoolean l) (filterBoolean l').
Proof.
  induction 1 as [|x l l' _ IH|x y l|l l' l'' _ IH1 _ IH2]; simpl; auto.
  - destruct x as [s|]; auto. destruct (truthy s); auto.
  - destruct x as [s|], y as [s'|]; auto;
      repeat match goal with |- context [truthy ?z] => destruct (truthy z) end;
      auto using perm_swap.
  - eapply perm_trans; eauto.
Qed.

Lemma fold_counts_flat (kind : Game.t -> list Transfer.t) games counts :
  fold_left (fun counts game => fold_left countFrom (kind game) counts) games counts
  = fold_left countFrom (flat_map kind games) counts.
Proof.
  revert counts. induction games as [|g r IH]; intros counts; simpl; auto.
  now rewrite fold_left_app, IH.
Qed.

(** The count of a non-empty key after the counting loop. *)
Lemma get_counts entries :
  forall counts k,
    truthy k = true ->
    nullish (JsObj.get k (fold_left countFrom entries counts)) 0%Z
    = (nullish (JsObj.get k counts) 0
       + Z.of_nat (length (filter (fun entry => (Transfer.from entry =? k)%string)
                                  entries)))%Z.
Proof.
  induction entries as [|e r IH]; intros counts k Hk; simpl fold_left.
  - simpl. lia.
  - rewrite IH by assumption. simpl filter. unfold countFrom.
    destruct (String.eqb_spec (Transfer.from e) k) as [E|Hne].
    + rewrite E, Hk, JsObjFacts.get_set_eq. simpl length.
      rewrite Nat2Z.inj_succ. simpl nullish. lia.
    + destruct (truthy (Transfer.from e)); auto.
      rewrite JsObjFacts.get_set_ne by auto. reflexivity.
Qed.

Lemma keys_counts players entries :
  forallb (fun entry => valid_id players (Transfer.from entry)) entries = true ->
  forall counts,
    map fst counts = ids players ->
    map fst (fold_left countFrom entries counts) = ids players.
Proof.
  induction entries as [|e r IH]; intros Hv counts Hk; simpl; auto.
  simpl in Hv. apply andb_true_iff in Hv as [He Hr].
  apply IH; auto. unfold countFrom.
  destruct (truthy (Transfer.from e)) eqn:Ht; auto.
  rewrite JsObjFacts.keys_set_In; auto.
  rewrite Hk. now apply valid_id_In.
Qed.

Lemma get_of_entry {V : Type} (o : JsObj.t V) k v :
  NoDup (map fst o) -> In (k, v) o -> JsObj.get k o = Some v.
Proof.
  induction o as [|[k' v'] r IH]; simpl; [tauto|].
  intros Hnd Hin. inversion Hnd as [|? ? Hnin Hnd']; subst.
  destruct Hin as [[= -> ->]|Hin].
  - now rewrite String.eqb_refl.
  - destruct (String.eqb_spec k k') as [E|Hne]; auto.
    subst k'. exfalso. apply Hnin. apply in_map_iff. now exists (k, v).
Qed.

(** The table of counts of a session with well-formed sources. *)
Lemma countsOf_table kind session :
  namedPlayers (Session.players session) = true ->
  validSources kind (Session.players session) (Session.games session) = true ->
  countsOf kind session
  = map (fun k => (k, timesFrom kind (Session.games session) k))
        (ids (Session.players session)).
Proof.
  intros Hn Hv. unfold namedPlayers in Hn.
  apply andb_true_iff in Hn as [Hn _]. apply andb_true_iff in Hn as [Hd Ht].
  apply distinct_NoDup in Hd. rewrite forallb_forall in Ht.
  set (players := Session.players session) in *.
  set (games := Session.games session) in *.
  assert (H0 : JsObj.fromEntries (map (fun player => (Player.id player, 0%Z)) players)
               = map (fun player => (Player.id player, 0%Z)) players).
  { apply JsObjFacts.fromEntries_NoDup. now rewrite map_map. }
  assert (Hk : map fst (countsOf kind session) = ids players).
  { unfold countsOf. rewrite fold_counts_flat. apply keys_counts; auto.
    fold players. rewrite H0. now rewrite map_map. }
  apply obj_ext.
  - rewrite Hk, map_map. simpl. now rewrite map_id.
  - now rewrite Hk.
  - intros k Hin. rewrite Hk in Hin.
    assert (Hg : JsObj.get k (map (fun k0 => (k0, timesFrom kind games k0)) (ids players))
                 = Some (timesFrom kind games k)).
    { apply get_of_entry.
      - rewrite map_map. simpl. now rewrite map_id.
      - apply in_map_iff. now exists k. }
    rewrite Hg.
    destruct (JsObjFacts.get_In k (countsOf kind session)) as [v Hv'];
      [now rewrite Hk|].
    rewrite Hv'. f_equal.
    pose proof (get_counts (flat_map kind games)
                  (map (fun player => (Player.id player, 0%Z)) players) k (Ht k Hin)) as Hc.
    unfold countsOf in Hv'. fold players games in Hv'.
    rewrite fold_counts_flat, H0 in Hv'. rewrite Hv' in Hc. simpl in Hc.
    assert (Hz : JsObj.get k (map (fun player => (Player.id player, 0%Z)) players)
                 = Some 0%Z).
    { apply get_of_entry.
      - now rewrite map_map.
      - unfold ids in Hin. apply in_map_iff in Hin as (p & <- & Hp).
        apply in_map_iff. now exists p. }
    rewrite Hz in Hc. simpl in Hc. unfold timesFrom. lia.
Qed.

Lemma find_by_id players p :
  NoDup (ids players) -> In p players ->
  find (fun player => Player.id player =? Player.id p) players = Some p.
Proof.
  induction players as [|x r IH]; simpl; [tauto|].
  intros Hnd Hin. inversion Hnd as [|? ? Hnin Hnd']; subst.
  destruct Hin as [-> |Hin].
  - now rewrite String.eqb_refl.
  - destruct (String.eqb_spec (Player.id x) (Player.id p)) as [E|Hne]; auto.
    exfalso. apply Hnin. rewrite E. now apply in_map.
Qed.

Lemma names_of_ids players L :
  NoDup (ids players) ->
  (forall p, In p L -> In p players /\ truthy (Player.name p) = true) ->
  filterBoolean
    (map (fun id => option_map Player.name
                      (find (fun player => Player.id player =? id) players))
         (map Player.id L))
  = map Player.name L.
Proof.
  intros Hnd. induction L as [|p r IH]; intros HL; simpl; auto.
  destruct (HL p (or_introl eq_refl)) as [Hp Ht].
  rewrite find_by_id by assumption. simpl. rewrite Ht. f_equal.
  apply IH. intros q Hq. apply HL. now right.
Qed.

Lemma flat_map_nil {A B : Type} (f : A -> list B) l :
  (forall x, In x l -> f x = []) -> flat_map f l = [].
Proof.
  induction l as [|x r IH]; simpl; auto.
  intros H. rewrite (H x (or_introl eq_refl)). simpl. auto.
Qed.

Lemma fold_max_zero (l : list Z) :
  (forall z, In z l -> z = 0%Z) -> fold_left Z.max l 0%Z = 0%Z.
Proof.
  induction l as [|x r IH]; simpl; auto.
  intros H. rewrite (H x (or_introl eq_refl)). simpl. auto.
Qed.

Lemma maxTimes_no_entries kind games players :
  (forall game, In game games -> kind game = []) ->
  maxTimes kind games players = 0%Z.
Proof.
  intros H. unfold maxTimes. apply fold_max_zero.
  intros z Hz. apply in_map_iff in Hz as (k & <- & _).
  unfold timesFrom. now rewrite (flat_map_nil kind games H).
Qed.

(** [getTopStat] on the table of counts. *)
Lemma getTopStat_table kind games players :
  namedPlayers players = true ->
  topStatSpec kind games players
    (getTopStat players
       (map (fun k => (k, timesFrom kind games k)) (ids players))).
Proof.
  intros Hn. unfold namedPlayers in Hn.
  apply andb_true_iff in Hn as [Hn Hnames]. apply andb_true_iff in Hn as [Hd Ht].
  apply distinct_NoDup in Hd. rewrite forallb_forall in Hnames.
  set (C := map (fun k => (k, timesFrom kind games k)) (ids players)).
  assert (HkC : map fst C = ids players)
    by (unfold C; rewrite map_map; simpl; apply map_id).
  assert (Hmax : fold_left Z.max (JsObj.values C) 0%Z = maxTimes kind games players).
  { rewrite (fold_max_perm _ _ (JsObjFacts.values_perm C)).
    unfold C, maxTimes. now rewrite map_map. }
  unfold getTopStat. rewrite Hmax.
  destruct (Z.eqb_spec (maxTimes kind games players) 0) as [E|E].
  - repeat split; auto. intros. contradiction.
  - split; [intros; contradiction|]. split.
    + intros _. split; [reflexivity|]. simpl TopStat.names.
      unfold tiedNames.
      set (M := maxTimes kind games players) in *.
      set (L := filter (fun player => (timesFrom kind games (Player.id player) =? M)%Z)
                       players).
      rewrite <- (names_of_ids players L Hd).
      * apply filterBoolean_perm, Permutation_map.
        eapply perm_trans.
        { apply filter_perm, JsObjFacts.keys_perm. }
        rewrite HkC. unfold L.
        rewrite <- (filter_map_swap (fun k => (timesFrom kind games k =? M)%Z)
                      Player.id players).
        fold (ids players).
        erewrite filter_ext_in; [apply Permutation_refl|].
        intros k Hk. cbv beta.
        assert (Hg : JsObj.get k C = Some (timesFrom kind games k)).
        { apply get_of_entry; [now rewrite HkC|].
          apply in_map_iff. now exists k. }
        now rewrite Hg.
      * intros p Hp. unfold L in Hp. apply filter_In in Hp as [Hp _]. auto.
    + intros Hnone. exfalso. apply E. now apply maxTimes_no_entries.
Qed.

(** C8. With players of distinct non-empty ids and non-empty names and
    entries whose [from] is a player id or empty, each "top" statistic
    counts, over all rounds, how often each player is the [from] side of
    a burn entry (of a manual transfer entry); it reports the largest
    count and lists every player who reaches it, and it is count 0 with
    the single label "Chưa có" when nothing was counted. *)
Theorem top_statistics session :
  namedPlayers (Session.players session) = true ->
  validSources Game.chay (Session.players session) (Session.games session) = true ->
  validSources Game.anChot (Session.players session) (Session.games session) = true ->
  topStatSpec Game.chay (Session.games session) (Session.players session)
    (FunStats.mostChay (funStats (Some session)))
  /\ topStatSpec Game.anChot (Session.games session) (Session.players session)
       (FunStats.mostAnChot (funStats (Some session))).
Proof.
  intros Hn Hc Ha. simpl. split.
  - rewrite chayCountsOf_countsOf, countsOf_table by assumption.
    now apply getTopStat_table.
  - rewrite anChotCountsOf_countsOf, countsOf_table by assumption.
    now apply getTopStat_table.
Qed.

Lemma top_statistics_witness :
  topStatSpec Game.chay (Session.games sampleSession) (Session.players sampleSession)
    (FunStats.mostChay (funStats (Some sampleSession)))
  /\ topStatSpec Game.anChot (Session.games sampleSession)
       (Session.players sampleSession)
       (FunStats.mostAnChot (funStats (Some sampleSession))).
Proof.
  apply top_statistics; reflexivity.
Defined.

(** The statistics of the sample session: one clear maximum, and a tie
    that is reported in full. *)
Example top_statistics_sample :
  funStats (Some sampleSession)
  = {| FunStats.mostChay :=
         {| TopStat.names := ["Người chơi 2"]; TopStat.count := 2 |};
       FunStats.mostAnChot :=
         {| TopStat.names := ["Người chơi 3"; "Người chơi 4"]; TopStat.count := 1 |} |}.
Proof. reflexivity. Qed.

(** ** Round editing: ranking slots *)

Lemma keyEqb_eq a b : keyEqb a b = true <-> a = b.
Proof. destruct a, b; simpl; split; congruence. Qed.

Lemma getPlacement_setPlacement placements key value k :
  getPlacement (setPlacement placements key value) k
  = if keyEqb k key then value else getPlacement placements k.
Proof. destruct key, k; reflexivity. Qed.

Lemma picksOf_getPlacement game :
  picksOf game = map (getPlacement (Game.placements game)) placementKeys.
Proof. reflexivity. Qed.

Lemma In_picksOf game slot :
  In slot (picksOf game) <-> exists k, slot = getPlacement (Game.placements game) k.
Proof.
  rewrite picksOf_getPlacement. split.
  - intros H. apply in_map_iff in H as (k & <- & _). now exists k.
  - intros [k ->]. apply in_map. destruct k; simpl; auto.
Qed.

Lemma getPlacement_handleDropPlacement current key playerId k :
  getPlacement (Game.placements (handleDropPlacement current key playerId)) k
  = if keyEqb k key then playerId
    else if getPlacement (Game.placements current) k =? playerId then ""
         else getPlacement (Game.placements current) k.
Proof.
  unfold handleDropPlacement. cbn [Game.placements].
  destruct (Game.placements current) as [a b c d].
  destruct (a =? playerId) eqn:Ea, (b =? playerId) eqn:Eb,
    (c =? playerId) eqn:Ec, (d =? playerId) eqn:Ed;
    destruct key, k;
    repeat (progress (cbn; rewrite ?Ea, ?Eb, ?Ec, ?Ed));
    reflexivity.
Qed.

Lemma keyEqb_neq k key : k <> key -> keyEqb k key = false.
Proof.
  intros H. destruct (keyEqb k key) eqn:E; auto.
  apply keyEqb_eq in E. contradiction.
Qed.

(** Dropping a player on a ranking slot puts the player there and empties
    every other slot that held the same player; the remaining slots keep
    their content, so the player is in no slot but the one dropped on. *)
Theorem handleDropPlacement_slots current key playerId :
  let next := Game.placements (handleDropPlacement current key playerId) in
  getPlacement next key = playerId
  /\ (forall k, k <> key ->
        getPlacement next k
        = if getPlacement (Game.placements current) k =? playerId then ""
          else getPlacement (Game.placements current) k)
  /\ (forall k, playerId <> "" -> getPlacement next k = playerId -> k = key).
Proof.
  intros next. subst next. split; [|split].
  - rewrite getPlacement_handleDropPlacement.
    now replace (keyEqb key key) with true by now destruct key.
  - intros k Hne. rewrite getPlacement_handleDropPlacement.
    now rewrite keyEqb_neq.
  - intros k Hp. rewrite getPlacement_handleDropPlacement.
    destruct (keyEqb k key) eqn:E; [intros _; now apply keyEqb_eq|].
    destruct (String.eqb_spec (getPlacement (Game.placements current) k) playerId);
      congruence.
Qed.

(** ** Round editing: the burn list *)

Lemma froms_filter playerId (l : list Transfer.t) :
  map Transfer.from (filter (fun item => negb (Transfer.from item =? playerId)) l)
  = filter (fun f => negb (f =? playerId)) (map Transfer.from l).
Proof.
  induction l as [|x r IH]; simpl; auto.
  destruct (Transfer.from x =? playerId); simpl; now rewrite IH.
Qed.

Lemma handleDropPlacement_froms current key playerId :
  map Transfer.from (Game.chay (handleDropPlacement current key playerId))
  = filter (fun f => negb (f =? playerId)) (map Transfer.from (Game.chay current)).
Proof.
  unfold handleDropPlacement. cbn [Game.chay].
  destruct (keyEqb key PlacementKey.first).
  - rewrite map_map. cbn [Transfer.from]. apply froms_filter.
  - apply froms_filter.
Qed.

Lemma mem_filter_neq q playerId l :
  mem q (filter (fun f => negb (f =? playerId)) l)
  = mem q l && negb (q =? playerId).
Proof.
  destruct (mem q (filter _ l)) eqn:E.
  - apply mem_In, filter_In in E as [Hin Hne].
    apply mem_In in Hin. now rewrite Hin, Hne.
  - destruct (mem q l) eqn:Hm; auto.
    destruct (q =? playerId) eqn:Hq; auto.
    apply mem_false in E. exfalso. apply E. apply filter_In.
    apply mem_In in Hm. now rewrite Hq.
Qed.

Lemma burned_handleDropPlacement current key playerId q :
  burned (handleDropPlacement current key playerId) q
  = burned current q && negb (q =? playerId).
Proof.
  unfold burned. rewrite handleDropPlacement_froms, mem_filter_neq.
  now rewrite andb_assoc.
Qed.

(** Dropping a player on a slot takes the player's entries out of the
    burn list and keeps every other entry, in order, with its id, its
    [from] and its points; on slot first every entry kept then pays the
    dropped player, on any other slot the entries kept are untouched. *)
Theorem handleDropPlacement_burns current key playerId :
  let next := handleDropPlacement current key playerId in
  let kept :=
    filter (fun item => negb (Transfer.from item =? playerId)) (Game.chay current) in
  map Transfer.from (Game.chay next)
  = filter (fun f => negb (f =? playerId)) (map Transfer.from (Game.chay current))
  /\ (forall q, burned next q = burned current q && negb (q =? playerId))
  /\ (key = PlacementKey.first ->
      forall item, In item (Game.chay next) -> Transfer.to item = playerId)
  /\ (key <> PlacementKey.first -> Game.chay next = kept)
  /\ map Transfer.id (Game.chay next) = map Transfer.id kept
  /\ map Transfer.from (Game.chay next) = map Transfer.from kept
  /\ map Transfer.points (Game.chay next) = map Transfer.points kept.
Proof.
  intros next kept. subst next kept.
  assert (Hfields :
            map Transfer.id (Game.chay (handleDropPlacement current key playerId))
            = map Transfer.id
                (filter (fun item => negb (Transfer.from item =? playerId))
                   (Game.chay current))
            /\ map Transfer.from (Game.chay (handleDropPlacement current key playerId))
               = map Transfer.from
                   (filter (fun item => negb (Transfer.from item =? playerId))
                      (Game.chay current))
            /\ map Transfer.points (Game.chay (handleDropPlacement current key playerId))
               = map Transfer.points
                   (filter (fun item => negb (Transfer.from item =? playerId))
                      (Game.chay current))).
  { unfold handleDropPlacement. cbn [Game.chay].
    destruct (keyEqb key PlacementKey.first); [|auto].
    rewrite !map_map. cbn [Transfer.id Transfer.from Transfer.points]. auto. }
  destruct Hfields as (Hid & Hfrom & Hpoints).
  split; [apply handleDropPlacement_froms|].
  split; [intros q; apply burned_handleDropPlacement|].
  split.
  { intros -> item Hin. unfold handleDropPlacement in Hin. cbn in Hin.
    apply in_map_iff in Hin as (x & <- & _). reflexivity. }
  split.
  { intros Hk. unfold handleDropPlacement. cbn [Game.chay].
    destruct (keyEqb key PlacementKey.first) eqn:E; auto.
    apply keyEqb_eq in E. contradiction. }
  auto.
Qed.

Lemma handleDropChay_refused newId game playerId :
  Game.u game || (playerId =? Placements.first (Game.placements game))
  || existsb (fun item => Transfer.from item =? playerId) (Game.chay game) = true ->
  handleDropChay newId game playerId = game.
Proof.
  unfold handleDropChay. intros H.
  destruct (Game.u game || (playerId =? Placements.first (Game.placements game)));
    auto.
  simpl in H. now rewrite H.
Qed.

Lemma handleDropChay_done newId game playerId :
  Game.u game || (playerId =? Placements.first (Game.placements game))
  || existsb (fun item => Transfer.from item =? playerId) (Game.chay game) = false ->
  let keep := fun slot => if slot =? playerId then "" else slot in
  handleDropChay newId game playerId
  = {| Game.id := Game.id game;
       Game.u := Game.u game;
       Game.placements :=
         {| Placements.first := Placements.first (Game.placements game);
            Placements.second := keep (Placements.second (Game.placements game));
            Placements.third := keep (Placements.third (Game.placements game));
            Placements.fourth := keep (Placements.fourth (Game.placements game)) |};
       Game.anChot := Game.anChot game;
       Game.chay :=
         Game.chay game
         ++ [ {| Transfer.id := newId;
                 Transfer.from := playerId;
                 Transfer.to := Placements.first (Game.placements game);
                 Transfer.points := 4 |} ] |}.
Proof.
  unfold handleDropChay. intros H.
  apply orb_false_iff in H as [H1 H2]. now rewrite H1, H2.
Qed.

(** Burning a player twice is the same as burning the player once. *)
Theorem handleDropChay_idempotent id1 id2 game playerId :
  handleDropChay id2 (handleDropChay id1 game playerId) playerId
  = handleDropChay id1 game playerId.
Proof.
  destruct (Game.u game || (playerId =? Placements.first (Game.placements game))
            || existsb (fun item => Transfer.from item =? playerId) (Game.chay game))
    eqn:G.
  - rewrite (handleDropChay_refused id1) by assumption.
    now apply handleDropChay_refused.
  - rewrite (handleDropChay_done id1) by assumption. cbv zeta.
    apply handleDropChay_refused.
    cbn [Game.u Game.placements Placements.first Game.chay].
    rewrite existsb_app. cbn [existsb Transfer.from].
    rewrite String.eqb_refl. now rewrite !orb_true_r.
Qed.

(** Taking a freshly burned player out of the burn list restores the
    list. *)
Theorem removeChayPlayer_handleDropChay newId game playerId :
  existsb (fun item => Transfer.from item =? playerId) (Game.chay game) = false ->
  Game.chay (removeChayPlayer (handleDropChay newId game playerId) playerId)
  = Game.chay game.
Proof.
  intros Hno.
  assert (Hf : filter (fun item => negb (Transfer.from item =? playerId)) (Game.chay game)
               = Game.chay game).
  { apply filter_all, forallb_forall. intros x Hx.
    destruct (Transfer.from x =? playerId) eqn:E; auto.
    assert (existsb (fun item => Transfer.from item =? playerId) (Game.chay game) = true)
      by (apply existsb_exists; eauto).
    congruence. }
  destruct (Game.u game || (playerId =? Placements.first (Game.placements game)))
    eqn:G.
  - rewrite handleDropChay_refused by (now rewrite G). exact Hf.
  - rewrite handleDropChay_done by (now rewrite G, Hno).
    unfold removeChayPlayer. cbn [Game.chay].
    rewrite filter_app, Hf. cbn [filter Transfer.from].
    rewrite String.eqb_refl. cbn. apply app_nil_r.
Qed.

Lemma removeChayPlayer_handleDropChay_witness :
  Game.chay (removeChayPlayer
               (handleDropChay "c2" (round false (slots "p1" "p2" "" "") []
                                       [transfer "c1" "p3" "p1" 4]) "p2") "p2")
  = [transfer "c1" "p3" "p1" 4].
Proof.
  apply (removeChayPlayer_handleDropChay "c2"
           (round false (slots "p1" "p2" "" "") [] [transfer "c1" "p3" "p1" 4]) "p2").
  reflexivity.
Defined.

(** ** New manual transfers *)

Lemma getDistinctPlayer_other players exclude :
  (exists player, In player players /\ Player.id player <> exclude) ->
  In (getDistinctPlayer players exclude) (ids players)
  /\ getDistinctPlayer players exclude <> exclude.
Proof.
  unfold getDistinctPlayer. intros (p & Hin & Hne).
  destruct (find _ players) as [q|] eqn:E.
  - apply find_some in E as [Hq Hneq].
    apply negb_true_iff, String.eqb_neq in Hneq.
    split; auto. now apply in_map.
  - exfalso. apply (find_none _ _ E) in Hin.
    apply negb_false_iff, String.eqb_eq in Hin. contradiction.
Qed.

(** [getDistinctPlayer] answers with the id of a player other than
    [exclude] whenever there is one, and with [exclude] itself only when
    every player carries that id. *)
Theorem getDistinctPlayer_spec players exclude :
  ((exists player, In player players /\ Player.id player <> exclude) ->
   In (getDistinctPlayer players exclude) (ids players)
   /\ getDistinctPlayer players exclude <> exclude)
  /\ ((forall player, In player players -> Player.id player = exclude) ->
      getDistinctPlayer players exclude = exclude).
Proof.
  split; [apply getDistinctPlayer_other|].
  unfold getDistinctPlayer.
  - intros Hall. destruct (find _ players) as [q|] eqn:E; auto.
    apply find_some in E as [Hq Hneq].
    apply negb_true_iff, String.eqb_neq in Hneq.
    exfalso. apply Hneq. auto.
Qed.

Lemma createTransfer_Some newId players game t :
  createTransfer newId players game = Some t ->
  exists winner from,
    (winner = Placements.first (Game.placements game) /\ truthy winner = true
     \/ truthy (Placements.first (Game.placements game)) = false
        /\ exists p0, nth_error players 0 = Some p0 /\ winner = Player.id p0)
    /\ (from = Placements.fourth (Game.placements game) /\ truthy from = true
        \/ truthy (Placements.fourth (Game.placements game)) = false
           /\ ((exists p3, nth_error players 3 = Some p3 /\ from = Player.id p3
                           /\ truthy from = true)
               \/ exists p0, nth_error players 0 = Some p0 /\ from = Player.id p0))
    /\ t = {| Transfer.id := newId;
              Transfer.from := from;
              Transfer.to := if from =? winner
                             then getDistinctPlayer players from else winner;
              Transfer.points := 4 |}.
Proof.
  unfold createTransfer. intros H.
  destruct (if truthy (Placements.first (Game.placements game))
            then Some (Placements.first (Game.placements game))
            else option_map Player.id (nth_error players 0)) as [w|] eqn:Ew;
    [|discriminate].
  destruct (if truthy (Placements.fourth (Game.placements game))
            then Some (Placements.fourth (Game.placements game))
            else match nth_error players 3 with
                 | Some player =>
                     if truthy (Player.id player) then Some (Player.id player)
                     else option_map Player.id (nth_error players 0)
                 | None => option_map Player.id (nth_error players 0)
                 end) as [f|] eqn:Ef; [|discriminate].
  injection H as <-. exists w, f. split; [|split; [|reflexivity]].
  - destruct (truthy (Placements.first (Game.placements game))) eqn:T1.
    + injection Ew as <-. left. auto.
    + right. split; auto.
      destruct (nth_error players 0) as [p0|]; [|discriminate].
      injection Ew as <-. now exists p0.
  - destruct (truthy (Placements.fourth (Game.placements game))) eqn:T4.
    + injection Ef as <-. left. auto.
    + right. split; auto.
      destruct (nth_error players 3) as [p3|] eqn:N3.
      * destruct (truthy (Player.id p3)) eqn:T3.
        -- injection Ef as <-. left. now exists p3.
        -- destruct (nth_error players 0) as [p0|]; [|discriminate].
           injection Ef as <-. right. now exists p0.
      * destruct (nth_error players 0) as [p0|]; [|discriminate].
        injection Ef as <-. right. now exists p0.
Qed.

(** With no player at all, the "+" button fails exactly when slot first
    or slot fourth is empty. *)
Theorem createTransfer_no_players newId game :
  createTransfer newId [] game = None
  <-> Placements.first (Game.placements game) = ""
      \/ Placements.fourth (Game.placements game) = "".
Proof.
  unfold createTransfer. cbn [nth_error option_map].
  unfold truthy.
  destruct (String.eqb_spec (Placements.first (Game.placements game)) "") as [E1|E1];
    destruct (String.eqb_spec (Placements.fourth (Game.placements game)) "") as [E4|E4];
    cbn; split; auto; try discriminate; intros [?|?]; contradiction.
Qed.

Lemma nth_error_ids players n p :
  nth_error players n = Some p -> In (Player.id p) (ids players).
Proof. intros H. apply in_map. eapply nth_error_In; eauto. Qed.

(** The endpoints of a new transfer are player ids or empty whenever the
    slots of the round are. *)
Lemma createTransfer_valid newId players game t :
  valid_round players game = true ->
  createTransfer newId players game = Some t ->
  valid_transfer players t = true.
Proof.
  intros Hv Hsome.
  assert (Hpick : forall s, In s (picksOf game) -> truthy s = true ->
                            In s (ids players))
    by (intros s Hs Ts; eapply valid_round_picks; eauto).
  destruct (createTransfer_Some _ _ _ _ Hsome) as (w & f & Hw & Hf & ->).
  assert (Iw : In w (ids players)).
  { destruct Hw as [[-> Tw]|[_ (q & Hq & ->)]].
    - apply Hpick; simpl; auto.
    - eapply nth_error_ids; eauto. }
  assert (If : In f (ids players)).
  { destruct Hf as [[-> Tf]|[_ [(q & Hq & -> & _)|(q & Hq & ->)]]].
    - apply Hpick; simpl; auto.
    - eapply nth_error_ids; eauto.
    - eapply nth_error_ids; eauto. }
  unfold valid_transfer, valid_id. cbn [Transfer.from Transfer.to].
  apply mem_In in If as Mf. rewrite Mf, orb_true_r. cbn [andb].
  destruct (f =? w).
  - unfold getDistinctPlayer.
    destruct (find _ players) as [q|] eqn:E.
    + apply find_some in E as [Hq _].
      assert (M : mem (Player.id q) (ids players) = true)
        by (apply mem_In; now apply in_map).
      now rewrite M, orb_true_r.
    + now rewrite Mf, orb_true_r.
  - apply mem_In in Iw. now rewrite Iw, orb_true_r.
Qed.

(** With at least two players of distinct non-empty ids, the "+" button
    always yields a transfer of 4 points between two different non-empty
    endpoints, one the engine accepts; its endpoints are players whenever
    the slots of the round hold players. *)
Theorem createTransfer_accepted newId players game :
  namedPlayers players = true ->
  (2 <= length players)%nat ->
  exists t,
    createTransfer newId players game = Some t
    /\ invalidTransfer t = false
    /\ Transfer.points t = 4%Z
    /\ (valid_round players game = true -> valid_transfer players t = true).
Proof.
  intros Hn Hlen. unfold namedPlayers in Hn.
  apply andb_true_iff in Hn as [Hn _]. apply andb_true_iff in Hn as [Hd Ht].
  apply distinct_NoDup in Hd. rewrite forallb_forall in Ht.
  destruct players as [|p0 [|p1 rest]]; simpl in Hlen; try lia.
  assert (Hsome : exists t, createTransfer newId (p0 :: p1 :: rest) game = Some t).
  { unfold createTransfer.
    remember (nth_error (p0 :: p1 :: rest) 3) as n3.
    change (nth_error (p0 :: p1 :: rest) 0) with (Some p0).
    cbn [option_map].
    destruct (truthy (Placements.first (Game.placements game))),
      (truthy (Placements.fourth (Game.placements game)));
      try (eexists; reflexivity);
      (destruct n3 as [p3|];
       [destruct (truthy (Player.id p3))|]; eexists; reflexivity). }
  destruct Hsome as [t Hsome]. exists t. split; auto.
  assert (Hval : valid_round (p0 :: p1 :: rest) game = true ->
                 valid_transfer (p0 :: p1 :: rest) t = true)
    by (intros Hv; now apply (createTransfer_valid newId _ game)).
  destruct (createTransfer_Some _ _ _ _ Hsome) as (w & f & Hw & Hf & ->).
  assert (Tw : truthy w = true).
  { destruct Hw as [[_ ?]|[_ (q & Hq & ->)]]; auto.
    apply Ht. eapply nth_error_ids; eauto. }
  assert (Tf : truthy f = true).
  { destruct Hf as [[_ ?]|[_ [(q & _ & _ & ?)|(q & Hq & ->)]]]; auto.
    apply Ht. eapply nth_error_ids; eauto. }
  split; [|split; [reflexivity|exact Hval]].
  unfold invalidTransfer. cbn [Transfer.from Transfer.to].
  rewrite Tf. cbn [negb orb]. rewrite orb_false_r.
  destruct (String.eqb_spec f w) as [E|Hne].
  - assert (Hother : exists player, In player (p0 :: p1 :: rest)
                                    /\ Player.id player <> f).
    { simpl in Hd. apply NoDup_cons_iff in Hd as [Hnin _].
      destruct (String.eqb_spec (Player.id p0) f) as [E0|N0].
      - exists p1. split; [simpl; auto|]. intros E1. apply Hnin.
        simpl. left. congruence.
      - exists p0. split; [simpl; auto|]. assumption. }
    destruct (getDistinctPlayer_other _ f Hother) as [Hin Hneq].
    apply orb_false_iff. split.
    + apply String.eqb_neq. auto.
    + apply negb_false_iff, Ht, Hin.
  - rewrite Tw. apply orb_false_iff. split; auto. now apply String.eqb_neq.
Qed.

Lemma createTransfer_accepted_witness :
  exists t,
    createTransfer "t1" seats (createGame "g1") = Some t
    /\ invalidTransfer t = false
    /\ Transfer.points t = 4%Z
    /\ (valid_round seats (createGame "g1") = true -> valid_transfer seats t = true).
Proof.
  apply createTransfer_accepted; [reflexivity|simpl; lia].
Defined.

(** ** What the edits keep *)

Lemma valid_round_iff players game :
  valid_round players game = true
  <-> (forall slot, In slot (picksOf game) -> valid_id players slot = true)
      /\ forallb (valid_transfer players) (Game.chay game) = true
      /\ forallb (valid_transfer players) (Game.anChot game) = true.
Proof.
  unfold valid_round, picksOf. rewrite !andb_true_iff. simpl. split.
  - intros [[[[[H1 H2] H3] H4] Hc] Ha]. repeat split; auto.
    intros slot [<-|[<-|[<-|[<-|[]]]]]; assumption.
  - intros (Hs & Hc & Ha). repeat split; auto; apply Hs; auto.
Qed.

Lemma valid_id_empty players : valid_id players "" = true.
Proof. reflexivity. Qed.

Lemma valid_id_player players p : In p (ids players) -> valid_id players p = true.
Proof.
  intros H. unfold valid_id. apply mem_In in H. rewrite H. apply orb_true_r.
Qed.

Lemma burned_empty game : burned game "" = false.
Proof. reflexivity. Qed.

Lemma burned_nil game q : Game.chay game = [] -> burned game q = false.
Proof. unfold burned. intros ->. simpl. apply andb_false_r. Qed.

(** Only the manual transfer list differs. *)
Lemma edited_anChot players g g' :
  Game.u g' = Game.u g ->
  Game.placements g' = Game.placements g ->
  Game.chay g' = Game.chay g ->
  forallb (valid_transfer players) (Game.anChot g') = true ->
  edited players g -> edited players g'.
Proof.
  intros Hu Hp Hc Ha (Hv & H2 & H3 & H4).
  apply valid_round_iff in Hv as (Hs & Hvc & _).
  unfold edited. rewrite valid_round_iff. unfold picksOf, burned in *.
  rewrite Hu, Hp, Hc. repeat split; auto.
Qed.

Lemma edited_createGame players newId : edited players (createGame newId).
Proof.
  repeat split; auto.
  - intros slot Hs. now apply burned_nil.
  - constructor.
Qed.

Lemma edited_handleDropPlacement players g key p :
  In p (ids players) -> edited players g ->
  edited players (handleDropPlacement g key p).
Proof.
  intros Hp (Hv & H2 & H3 & H4).
  apply valid_round_iff in Hv as (Hs & Hvc & Hva).
  pose proof (handleDropPlacement_froms g key p) as Hf.
  pose proof (burned_handleDropPlacement g key p) as Hb.
  unfold edited. rewrite valid_round_iff. repeat split.
  - intros slot Hin. apply In_picksOf in Hin as [k ->].
    rewrite getPlacement_handleDropPlacement.
    destruct (keyEqb k key); [now apply valid_id_player|].
    destruct (_ =? p); [reflexivity|]. apply Hs, In_picksOf. now exists k.
  - apply forallb_forall. intros item Hin.
    rewrite forallb_forall in Hvc.
    unfold handleDropPlacement in Hin. cbn [Game.chay] in Hin.
    destruct (keyEqb key PlacementKey.first).
    + apply in_map_iff in Hin as (x & <- & Hx).
      apply filter_In in Hx as [Hx _]. specialize (Hvc x Hx).
      unfold valid_transfer in *. cbn [Transfer.from Transfer.to].
      apply andb_true_iff in Hvc as [Hvf _]. rewrite Hvf.
      now apply valid_id_player.
    + apply filter_In in Hin as [Hx _]. auto.
  - exact Hva.
  - intros Hu. unfold handleDropPlacement. cbn [Game.chay].
    rewrite (H2 Hu). now destruct (keyEqb key PlacementKey.first).
  - intros slot Hin. apply In_picksOf in Hin as [k ->].
    rewrite Hb, getPlacement_handleDropPlacement.
    destruct (keyEqb k key).
    + rewrite String.eqb_refl. apply andb_false_r.
    + destruct (_ =? p) eqn:E; [reflexivity|].
      rewrite H3; [reflexivity|]. apply In_picksOf. now exists k.
  - rewrite Hf. now apply NoDup_filter.
Qed.

Lemma edited_handleDropChay players g newId p :
  In p (ids players) -> edited players g ->
  edited players (handleDropChay newId g p).
Proof.
  intros Hp He.
  destruct (Game.u g || (p =? Placements.first (Game.placements g))
            || existsb (fun item => Transfer.from item =? p) (Game.chay g)) eqn:G.
  - now rewrite handleDropChay_refused.
  - rewrite handleDropChay_done by assumption. cbv zeta.
    destruct He as (Hv & H2 & H3 & H4).
    apply valid_round_iff in Hv as (Hs & Hvc & Hva).
    apply orb_false_iff in G as [G Gex]. apply orb_false_iff in G as [Gu Gfirst].
    apply String.eqb_neq in Gfirst.
    assert (Hnot : ~ In p (map Transfer.from (Game.chay g))).
    { intros Hin. apply in_map_iff in Hin as (x & Hx & Hin).
      assert (existsb (fun item => Transfer.from item =? p) (Game.chay g) = true).
      { apply existsb_exists. exists x. split; auto. now apply String.eqb_eq. }
      congruence. }
    assert (Hfirst : valid_id players (Placements.first (Game.placements g)) = true)
      by (apply Hs; simpl; auto).
    unfold edited. rewrite valid_round_iff.
    cbn [Game.u Game.chay Game.anChot]. repeat split.
    + intros slot Hin. unfold picksOf in Hin. cbn in Hin.
      destruct Hin as [<-|[<-|[<-|[<-|[]]]]]; auto;
        match goal with
        | |- context [?s =? p] => destruct (s =? p); [reflexivity|]
        end; apply Hs; simpl; auto.
    + rewrite forallb_app, Hvc. cbn. unfold valid_transfer.
      cbn [Transfer.from Transfer.to].
      now rewrite (valid_id_player _ _ Hp), Hfirst.
    + exact Hva.
    + intros Hu. congruence.
    + intros slot Hin.
      assert (Hb : forall q, q <> p -> burned g q = false ->
                burned {| Game.id := Game.id g; Game.u := Game.u g;
                          Game.placements :=
                            {| Placements.first := Placements.first (Game.placements g);
                               Placements.second :=
                                 if Placements.second (Game.placements g) =? p then ""
                                 else Placements.second (Game.placements g);
                               Placements.third :=
                                 if Placements.third (Game.placements g) =? p then ""
                                 else Placements.third (Game.placements g);
                               Placements.fourth :=
                                 if Placements.fourth (Game.placements g) =? p then ""
                                 else Placements.fourth (Game.placements g) |};
                          Game.anChot := Game.anChot g;
                          Game.chay :=
                            Game.chay g
                            ++ [ {| Transfer.id := newId; Transfer.from := p;
                                    Transfer.to := Placements.first (Game.placements g);
                                    Transfer.points := 4 |} ] |} q = false).
      { intros q Hq Hbq. unfold burned in *. cbn [Game.chay].
        rewrite map_app. cbn [map Transfer.from].
        destruct (truthy q); auto. cbn [andb] in *.
        apply mem_false. apply mem_false in Hbq.
        rewrite in_app_iff. simpl. intuition. }
      unfold picksOf in Hin. cbn [Game.placements Placements.first Placements.second
                                   Placements.third Placements.fourth] in Hin.
      destruct Hin as [<-|[<-|[<-|[<-|[]]]]].
      * apply Hb; auto. apply H3. simpl; auto.
      * destruct (String.eqb_spec (Placements.second (Game.placements g)) p);
          [reflexivity|]. apply Hb; auto. apply H3. simpl; auto.
      * destruct (String.eqb_spec (Placements.third (Game.placements g)) p);
          [reflexivity|]. apply Hb; auto. apply H3. simpl; auto.
      * destruct (String.eqb_spec (Placements.fourth (Game.placements g)) p);
          [reflexivity|]. apply Hb; auto. apply H3. simpl; auto.
    + rewrite map_app. cbn [map Transfer.from].
      apply NoDup_rev in H4. rewrite <- (rev_involutive (_ ++ [p])).
      apply NoDup_rev. rewrite rev_app_distr. simpl.
      constructor; auto. now rewrite <- in_rev.
Qed.

Lemma edited_clearPlacement players g key :
  edited players g -> edited players (clearPlacement g key).
Proof.
  intros (Hv & H2 & H3 & H4).
  apply valid_round_iff in Hv as (Hs & Hvc & Hva).
  unfold edited. rewrite valid_round_iff. repeat split; auto.
  - intros slot Hin. apply In_picksOf in Hin as [k ->].
    cbn [clearPlacement Game.placements]. rewrite getPlacement_setPlacement.
    destruct (keyEqb k key); [reflexivity|]. apply Hs, In_picksOf. now exists k.
  - intros slot Hin. apply In_picksOf in Hin as [k ->].
    cbn [clearPlacement Game.placements]. rewrite getPlacement_setPlacement.
    destruct (keyEqb k key); [reflexivity|].
    apply (H3 (getPlacement (Game.placements g) k)), In_picksOf. now exists k.
Qed.

Lemma edited_removeChayPlayer players g p :
  edited players g -> edited players (removeChayPlayer g p).
Proof.
  intros (Hv & H2 & H3 & H4).
  apply valid_round_iff in Hv as (Hs & Hvc & Hva).
  unfold edited. rewrite valid_round_iff.
  cbn [removeChayPlayer Game.u Game.chay Game.anChot]. repeat split; auto.
  - apply forallb_forall. intros item Hin. apply filter_In in Hin as [Hin _].
    rewrite forallb_forall in Hvc. auto.
  - intros Hu. now rewrite (H2 Hu).
  - intros slot Hin. unfold burned, removeChayPlayer. cbn [Game.chay].
    rewrite froms_filter, mem_filter_neq.
    specialize (H3 slot Hin). unfold burned in H3.
    destruct (truthy slot); auto. cbn [andb] in *. now rewrite H3.
  - rewrite froms_filter. now apply NoDup_filter.
Qed.

Lemma edited_toggleU players g checked :
  edited players g -> edited players (toggleU g checked).
Proof.
  intros (Hv & H2 & H3 & H4).
  apply valid_round_iff in Hv as (Hs & Hvc & Hva).
  unfold edited. rewrite valid_round_iff.
  cbn [toggleU Game.u Game.chay Game.anChot]. destruct checked; repeat split; auto.
  - intros slot Hin. now apply burned_nil.
  - constructor.
  - discriminate.
Qed.

Lemma edited_selectWinner players g value :
  Game.u g = true -> In value (ids players) ->
  edited players g -> edited players (selectWinner g value).
Proof.
  intros Hu Hval (Hv & H2 & H3 & H4).
  apply valid_round_iff in Hv as (Hs & Hvc & Hva).
  unfold edited. rewrite valid_round_iff.
  cbn [selectWinner Game.u Game.chay Game.anChot]. repeat split; auto.
  - intros slot Hin. unfold picksOf in Hin. cbn in Hin.
    destruct Hin as [<-|Hin]; [now apply valid_id_player|].
    apply Hs. simpl. tauto.
  - intros slot _. apply burned_nil. cbn [Game.chay]. auto.
Qed.

Lemma forallb_map_if {A : Type} (P : A -> bool) (c : A -> bool) (f : A -> A) l :
  forallb P l = true ->
  (forall x, In x l -> c x = true -> P (f x) = true) ->
  forallb P (map (fun x => if c x then f x else x) l) = true.
Proof.
  intros Hall Hf. apply forallb_forall. intros y Hy.
  apply in_map_iff in Hy as (x & <- & Hx).
  rewrite forallb_forall in Hall.
  destruct (c x) eqn:E; auto.
Qed.

(** An offered edit keeps a round well edited. *)
Lemma edited_applyEdit players g edit g' :
  edited players g ->
  offered players g edit = true ->
  applyEdit players g edit = Some g' ->
  edited players g'.
Proof.
  intros He Hoff Happ.
  destruct edit; cbn [applyEdit offered] in *.
  - injection Happ as <-. apply andb_true_iff in Hoff as [_ Hm].
    apply edited_handleDropPlacement; auto. now apply mem_In.
  - injection Happ as <-. apply andb_true_iff in Hoff as [_ Hm].
    apply edited_handleDropChay; auto. now apply mem_In.
  - injection Happ as <-. now apply edited_clearPlacement.
  - injection Happ as <-. now apply edited_removeChayPlayer.
  - injection Happ as <-. now apply edited_toggleU.
  - injection Happ as <-. apply andb_true_iff in Hoff as [Hu Hm].
    apply edited_selectWinner; auto. now apply mem_In.
  - unfold addTransfer in Happ.
    destruct (createTransfer newId players g) as [t|] eqn:E; [|discriminate].
    injection Happ as <-.
    apply (edited_anChot players g); auto.
    cbn [Game.anChot]. rewrite forallb_app.
    pose proof He as (Hv & _).
    pose proof (createTransfer_valid _ _ _ _ Hv E) as Ht.
    apply valid_round_iff in Hv as (_ & _ & Hva).
    rewrite Hva. cbn [forallb andb]. now rewrite Ht.
  - injection Happ as <-. apply mem_In in Hoff.
    apply (edited_anChot players g); auto.
    cbn [setTransferFrom Game.anChot].
    pose proof He as (Hv & _). apply valid_round_iff in Hv as (_ & _ & Hva).
    apply (forallb_map_if _ (fun item => Transfer.id item =? transferId)); auto.
    intros x Hx _. rewrite forallb_forall in Hva. specialize (Hva x Hx).
    unfold valid_transfer in *. cbn [Transfer.from Transfer.to].
    apply andb_true_iff in Hva as [_ Hto].
    now rewrite (valid_id_player _ _ Hoff), Hto.
  - injection Happ as <-. apply mem_In in Hoff.
    apply (edited_anChot players g); auto.
    cbn [setTransferTo Game.anChot].
    pose proof He as (Hv & _). apply valid_round_iff in Hv as (_ & _ & Hva).
    apply (forallb_map_if _ (fun item => Transfer.id item =? transferId)); auto.
    intros x Hx _. rewrite forallb_forall in Hva. specialize (Hva x Hx).
    unfold valid_transfer in *. cbn [Transfer.from Transfer.to].
    apply andb_true_iff in Hva as [Hfrom _].
    now rewrite (valid_id_player _ _ Hoff), Hfrom.
  - injection Happ as <-.
    apply (edited_anChot players g); auto.
    cbn [removeTransfer Game.anChot].
    pose proof He as (Hv & _). apply valid_round_iff in Hv as (_ & _ & Hva).
    apply forallb_forall. intros x Hx. apply filter_In in Hx as [Hx _].
    rewrite forallb_forall in Hva. auto.
Qed.

Lemma edited_applyEdits players edits :
  forall g g',
    edited players g ->
    applyEdits players edits g = Some g' ->
    edited players g'.
Proof.
  induction edits as [|e r IH]; intros g g' He Hrun; simpl in Hrun.
  - now injection Hrun as <-.
  - destruct (offered players g e) eqn:Hoff; [|discriminate].
    destruct (applyEdit players g e) as [g1|] eqn:Happ; [|discriminate].
    apply (IH g1 g'); auto. now apply (edited_applyEdit players g e g1).
Qed.

(** Every round built from a blank one by edits the screen offers keeps
    the invariants of the data model: slots and endpoints are player ids
    or empty, a self-win round has no burn, no slot holds a burned player
    (so the winner is never burned), and no player is burned twice. *)
Theorem edits_keep_invariants players newId edits game :
  applyEdits players edits (createGame newId) = Some game ->
  valid_round players game = true
  /\ (Game.u game = true -> Game.chay game = [])
  /\ (forall slot, In slot (picksOf game) -> burned game slot = false)
  /\ NoDup (map Transfer.from (Game.chay game)).
Proof.
  intros Hrun.
  exact (edited_applyEdits players edits _ _ (edited_createGame players newId) Hrun).
Qed.

Lemma edits_keep_invariants_witness :
  exists game,
    applyEdits seats sampleEdits (createGame "g1") = Some game
    /\ valid_round seats game = true
    /\ (Game.u game = true -> Game.chay game = [])
    /\ (forall slot, In slot (picksOf game) -> burned game slot = false)
    /\ NoDup (map Transfer.from (Game.chay game)).
Proof.
  eexists. split; [reflexivity|].
  apply (edits_keep_invariants seats "g1" sampleEdits). reflexivity.
Defined.

(** For four players, a round built by offered edits always balances:
    its total is 0 whatever its warnings, and the warning that the winner
    is burned is never raised. *)
Theorem offered_edits_balance players newId edits game :
  four_players players = true ->
  applyEdits players edits (createGame newId) = Some game ->
  Summary.total (computeGamePoints game players) = Int 0
  /\ ~ In "Người thắng không thể bị cháy"
         (Summary.warnings (computeGamePoints game players)).
Proof.
  intros H4 Hrun.
  destruct (edited_applyEdits players edits _ _ (edited_createGame players newId) Hrun)
    as (Hv & _ & Hb & _).
  split; [now apply valid_round_total|].
  rewrite warnings_closed_form. unfold expectedWarnings, modeWarnings.
  rewrite (Hb (Placements.first (Game.placements game))) by (simpl; auto).
  intros Hin. apply in_app_iff in Hin as [Hin|Hin].
  - destruct (Game.u game).
    + destruct (truthy _); simpl in Hin; [contradiction|].
      destruct Hin as [H|[]]; discriminate H.
    + destruct (existsb _ (Game.chay game)).
      * destruct (negb _); simpl in Hin.
        -- destruct Hin as [H|[]]; discriminate H.
        -- apply in_app_iff in Hin as [Hin|Hin];
             match type of Hin with
             | In _ (if ?c then _ else _) => destruct c
             end; simpl in Hin; try contradiction;
             destruct Hin as [H|[]]; discriminate H.
      * destruct (filled4 game); simpl in Hin; [contradiction|].
        destruct Hin as [H|[]]; discriminate H.
  - apply In_repeat_eq in Hin. discriminate Hin.
Qed.

Lemma offered_edits_balance_witness :
  exists game,
    applyEdits seats sampleEdits (createGame "g1") = Some game
    /\ Summary.total (computeGamePoints game seats) = Int 0
    /\ ~ In "Người thắng không thể bị cháy"
           (Summary.warnings (computeGamePoints game seats)).
Proof.
  eexists. split; [reflexivity|].
  apply (offered_edits_balance seats "g1" sampleEdits); reflexivity.
Defined.

(** ** Slot exclusivity *)

(** Drops on a slot, burns and cleared slots never leave a player in two
    ranking slots. *)
Theorem drag_edits_keep_exclusive game :
  exclusive game ->
  (forall key playerId, exclusive (handleDropPlacement game key playerId))
  /\ (forall newId playerId, exclusive (handleDropChay newId game playerId))
  /\ (forall key, exclusive (clearPlacement game key)).
Proof.
  intros Hex. repeat split.
  - intros key p k1 k2 Hne. rewrite !getPlacement_handleDropPlacement.
    destruct (keyEqb k1 key) eqn:E1, (keyEqb k2 key) eqn:E2.
    + apply keyEqb_eq in E1, E2. congruence.
    + intros T. destruct (String.eqb_spec (getPlacement (Game.placements game) k2) p).
      * intros E. rewrite E in T. discriminate.
      * auto.
    + destruct (String.eqb_spec (getPlacement (Game.placements game) k1) p);
        [discriminate|auto].
    + destruct (String.eqb_spec (getPlacement (Game.placements game) k1) p);
        [discriminate|].
      intros T1.
      destruct (String.eqb_spec (getPlacement (Game.placements game) k2) p).
      * intros E. rewrite E in T1. discriminate.
      * now apply Hex.
  - intros newId p.
    destruct (Game.u game || (p =? Placements.first (Game.placements game))
              || existsb (fun item => Transfer.from item =? p) (Game.chay game)) eqn:G.
    + now rewrite handleDropChay_refused.
    + rewrite handleDropChay_done by assumption. cbv zeta.
      apply orb_false_iff in G as [G _]. apply orb_false_iff in G as [_ Gfirst].
      apply String.eqb_neq in Gfirst.
      intros k1 k2 Hne. cbn [Game.placements].
      pose proof (Hex k1 k2 Hne) as H12.
      destruct k1, k2; cbn in *; try congruence;
        repeat match goal with
               | |- context [?s =? p] => destruct (String.eqb_spec s p)
               end; cbn; try discriminate; try congruence; auto;
        intros T E; rewrite E in T; discriminate.
  - intros key k1 k2 Hne. cbn [clearPlacement Game.placements].
    rewrite !getPlacement_setPlacement.
    destruct (keyEqb k1 key), (keyEqb k2 key); try discriminate.
    + intros T E. rewrite E in T. discriminate.
    + now apply Hex.
Qed.

Lemma drag_edits_keep_exclusive_witness :
  (forall key playerId,
      exclusive (handleDropPlacement (round false (slots "p1" "p2" "" "") [] [])
                   key playerId))
  /\ (forall newId playerId,
         exclusive (handleDropChay newId (round false (slots "p1" "p2" "" "") [] [])
                      playerId))
  /\ (forall key, exclusive (clearPlacement (round false (slots "p1" "p2" "" "") [] [])
                               key)).
Proof.
  apply drag_edits_keep_exclusive.
  intros k1 k2 Hne. destruct k1, k2; cbn; congruence.
Defined.

(** ** Rounds the engine refuses to score *)

(** A self-win round without a winner, and a burn round without a winner
    or with a burned winner, leave every delta at its initial 0 and raise
    exactly one warning. *)
Theorem refused_rounds_score_nothing game players :
  let st := beforeTransfers game players in
  let winner := Placements.first (Game.placements game) in
  (Game.u game = true -> winner = "" ->
   points st = points (initial players) /\ warnings st = ["Chưa chọn người Ù"])
  /\ (burnMode game = true -> winner = "" ->
      points st = points (initial players)
      /\ warnings st = ["Cần chọn người thắng để tính cháy"])
  /\ (burnMode game = true -> burned game winner = true ->
      points st = points (initial players)
      /\ warnings st = ["Người thắng không thể bị cháy"]).
Proof.
  cbv zeta. unfold beforeTransfers, scoreMode. split; [|split].
  - intros Hu Hw. rewrite Hu. unfold scoreU. rewrite Hw. now split.
  - intros Hm Hw. destruct (burnMode_hasChay _ Hm) as [Hu Hh]. rewrite Hu, Hh.
    unfold scoreChay. rewrite Hw. now split.
  - intros Hm Hb. destruct (burnMode_hasChay _ Hm) as [Hu Hh]. rewrite Hu, Hh.
    unfold scoreChay. rewrite Set_has_chaySet, Hb.
    unfold burned in Hb. apply andb_true_iff in Hb as [T _]. rewrite T. now split.
Qed.

(** ** Net effect of the manual transfers *)

Lemma get_transfers (K : string -> Prop) entries :
  forall st (D : string -> Z),
    (forall q, K q -> JsObj.get q (points st) = Some (Int (D q))) ->
    (forall entry, In entry entries -> invalidTransfer entry = false ->
                   K (Transfer.from entry) /\ K (Transfer.to entry)) ->
    forall q, K q ->
      JsObj.get q (points (forEach entries applyTransfer st))
      = Some (Int (D q + netTransfers entries q)).
Proof.
  induction entries as [|e r IH]; intros st D HD HK q Kq.
  - cbn. rewrite (HD q Kq). do 2 f_equal. lia.
  - rewrite forEach_cons. cbn [netTransfers fold_right].
    fold (netTransfers r q).
    destruct (invalidTransfer e) eqn:E.
    + rewrite applyTransfer_invalid by assumption.
      rewrite (IH _ D); auto.
      * do 2 f_equal. lia.
      * intros entry Hin. apply HK. now right.
    + rewrite applyTransfer_valid by assumption.
      destruct (HK e (or_introl eq_refl) E) as [Kf Kt].
      assert (Hne : Transfer.from e <> Transfer.to e).
      { unfold invalidTransfer in E. apply orb_false_iff in E as [E _].
        apply orb_false_iff in E as [E _]. now apply String.eqb_neq. }
      pose proof (get_when_move K D true (Transfer.from e) (Transfer.to e)
                    (Transfer.points e) st (fun _ => Hne) Kt HD) as Hstep.
      unfold when in Hstep. cbn [andb] in Hstep.
      rewrite (IH _ _ Hstep); auto.
      * do 2 f_equal. lia.
      * intros entry Hin. apply HK. now right.
Qed.

(** In the data model every final delta is the delta of the
    mode-specific step plus what the accepted manual transfers bring. *)
Lemma manual_transfers_exact game players q :
  four_players players = true ->
  valid_round players game = true ->
  In q (ids players) ->
  exists d,
    JsObj.get q (points (beforeTransfers game players)) = Some (Int d)
    /\ JsObj.get q (Summary.points (computeGamePoints game players))
       = Some (Int (d + netTransfers (Game.anChot game) q)).
Proof.
  intros H4 Hv Hq.
  destruct (scoreMode_Bal game players H4 Hv) as (Hk & Hall & _).
  assert (HD : forall k, In k (ids players) ->
             JsObj.get k (points (beforeTransfers game players))
             = Some (Int (zval (to_num (JsObj.get k (points (beforeTransfers game players))))))).
  { intros k Hin. destruct (all_int_get k _ Hall) as [z Hz]; [now rewrite Hk|].
    now rewrite Hz. }
  eexists. split; [apply (HD q Hq)|].
  rewrite computeGamePoints_points.
  apply (get_transfers (fun k => In k (ids players)) (Game.anChot game)
           (beforeTransfers game players)
           (fun k => zval (to_num (JsObj.get k (points (beforeTransfers game players))))));
    auto.
  intros entry Hin Hinv.
  apply valid_round_iff in Hv as (_ & _ & Hva).
  rewrite forallb_forall in Hva. specialize (Hva entry Hin).
  apply andb_true_iff in Hva as [Vf Vt].
  unfold invalidTransfer in Hinv. apply orb_false_iff in Hinv as [Hinv Tt].
  apply orb_false_iff in Hinv as [_ Tf].
  apply negb_false_iff in Tt, Tf.
  split; now apply valid_id_In.
Qed.

Lemma netTransfers_perm l l' q :
  Permutation l l' -> netTransfers l q = netTransfers l' q.
Proof.
  induction 1; cbn [netTransfers fold_right]; auto.
  - fold (netTransfers l q) (netTransfers l' q). now rewrite IHPermutation.
  - fold (netTransfers l q). lia.
  - congruence.
Qed.

Lemma Bal_transfers K c players entries st :
  forallb (valid_transfer players) entries = true ->
  (forall k, In k (ids players) -> In k K) ->
  Bal K c st -> Bal K c (forEach entries applyTransfer st).
Proof.
  intros Hv HK HB. apply forEach_inv; auto.
  intros t s Hin Hs. eapply applyTransfer_Bal; eauto.
  rewrite forallb_forall in Hv. auto.
Qed.

Lemma endpoints_of_valid players entries :
  forallb (valid_transfer players) entries = true ->
  forall entry, In entry entries -> invalidTransfer entry = false ->
    In (Transfer.from entry) (ids players) /\ In (Transfer.to entry) (ids players).
Proof.
  intros Hva entry Hin Hinv.
  rewrite forallb_forall in Hva. specialize (Hva entry Hin).
  apply andb_true_iff in Hva as [Vf Vt].
  unfold invalidTransfer in Hinv. apply orb_false_iff in Hinv as [Hinv Tt].
  apply orb_false_iff in Hinv as [_ Tf].
  apply negb_false_iff in Tt, Tf.
  split; now apply valid_id_In.
Qed.

(** Transfers between players commute on a table of integers. *)
Lemma transfers_perm_points players c entries entries' st :
  NoDup (ids players) ->
  Bal (ids players) c st ->
  forallb (valid_transfer players) entries = true ->
  Permutation entries entries' ->
  points (forEach entries applyTransfer st)
  = points (forEach entries' applyTransfer st).
Proof.
  intros Hnd HB Hv Hperm.
  assert (Hv' : forallb (valid_transfer players) entries' = true).
  { apply forallb_forall. intros x Hx. rewrite forallb_forall in Hv.
    apply Hv. eapply Permutation_in; [apply Permutation_sym|]; eauto. }
  destruct (Bal_transfers _ c players entries st Hv (fun k H => H) HB) as (K1 & _ & _).
  destruct (Bal_transfers _ c players entries' st Hv' (fun k H => H) HB) as (K2 & _ & _).
  destruct HB as (K0 & Hall & _).
  assert (HD : forall k, In k (ids players) ->
             JsObj.get k (points st)
             = Some (Int (zval (to_num (JsObj.get k (points st)))))).
  { intros k Hin. destruct (all_int_get k _ Hall) as [z Hz]; [now rewrite K0|].
    now rewrite Hz. }
  apply obj_ext.
  - now rewrite K1, K2.
  - now rewrite K1.
  - intros k Hk. rewrite K1 in Hk.
    rewrite (get_transfers (fun q => In q (ids players)) entries st _ HD
               (endpoints_of_valid players entries Hv) k Hk).
    rewrite (get_transfers (fun q => In q (ids players)) entries' st _ HD
               (endpoints_of_valid players entries' Hv') k Hk).
    now rewrite (netTransfers_perm _ _ k Hperm).
Qed.

(** In the data model the order of the manual transfers of a valid round
    changes nothing of the result. *)
Lemma transfer_order_exact g1 g2 players :
  four_players players = true ->
  valid_round players g1 = true ->
  Game.u g1 = Game.u g2 ->
  Game.placements g1 = Game.placements g2 ->
  Game.chay g1 = Game.chay g2 ->
  Permutation (Game.anChot g1) (Game.anChot g2) ->
  computeGamePoints g1 players = computeGamePoints g2 players.
Proof.
  intros H4 Hv1 Hu Hp Hc Hperm.
  assert (HM : beforeTransfers g2 players = beforeTransfers g1 players).
  { unfold beforeTransfers. rewrite (scoreMode_sources g1 g2 players); auto.
    now rewrite Hc. }
  pose proof (scoreMode_Bal g1 players H4 Hv1) as HB.
  apply andb_true_iff in H4 as [_ Hd]. apply distinct_NoDup in Hd.
  apply valid_round_iff in Hv1 as (_ & _ & Hva).
  pose proof (transfers_perm_points players 0 _ _ _ Hd HB Hva Hperm) as HT.
  unfold computeGamePoints. unfold seq.
  change (scoreMode g1 players (initial players)) with (beforeTransfers g1 players).
  change (scoreMode g2 players (initial players)) with (beforeTransfers g2 players).
  rewrite HM, <- HT. f_equal.
  rewrite !warnings_transfers. do 2 f_equal.
  apply Permutation_length. now apply filter_perm.
Qed.

(** ** Sessions of valid rounds *)

Lemma table_of_reads (K : list string) (o : JsObj.t num) (f : string -> Z) :
  map fst o = K -> NoDup K ->
  (forall k, In k K -> JsObj.get k o = Some (Int (f k))) ->
  o = map (fun k => (k, Int (f k))) K.
Proof.
  intros HK Hnd Hget. apply obj_ext.
  - rewrite HK, map_map. simpl. now rewrite map_id.
  - now rewrite HK.
  - intros k Hin. rewrite HK in Hin. rewrite (Hget k Hin). symmetry.
    apply get_of_entry.
    + rewrite map_map. simpl. now rewrite map_id.
    + apply in_map_iff. now exists k.
Qed.

Lemma Bal_table (K : list string) (f : string -> Z) :
  all_int (map (fun k => (k, Int (f k))) K) = true
  /\ zsum (map (fun k => (k, Int (f k))) K) = fold_right Z.add 0%Z (map f K).
Proof.
  split.
  - induction K as [|k r IH]; simpl; auto.
  - induction K as [|k r IH]; [reflexivity|].
    cbn [map]. unfold zsum in *. cbn [fold_right snd zval]. now rewrite IH.
Qed.

Lemma sum_pointwise (f g : string -> Z) K :
  fold_right Z.add 0%Z (map (fun k => (f k + g k)%Z) K)
  = (fold_right Z.add 0%Z (map f K) + fold_right Z.add 0%Z (map g K))%Z.
Proof. induction K as [|k r IH]; simpl; lia. Qed.

Lemma Bal_reads K c st :
  NoDup K -> Bal K c st ->
  exists f, (forall k, In k K -> JsObj.get k (points st) = Some (Int (f k)))
            /\ fold_right Z.add 0%Z (map f K) = c.
Proof.
  intros Hnd (HK & Hall & Hsum).
  exists (fun k => zval (to_num (JsObj.get k (points st)))).
  assert (Hget : forall k, In k K ->
             JsObj.get k (points st)
             = Some (Int (zval (to_num (JsObj.get k (points st)))))).
  { intros k Hin. destruct (all_int_get k _ Hall) as [z Hz]; [now rewrite HK|].
    now rewrite Hz. }
  split; auto.
  rewrite (table_of_reads K (points st) _ HK Hnd Hget) in Hsum at 1.
  now rewrite (proj2 (Bal_table K _)) in Hsum.
Qed.

(** Adding a balanced summary to balanced totals keeps them balanced. *)
Lemma Bal_addSummary players c d totals summary :
  NoDup (ids players) ->
  Bal (ids players) c {| points := totals; warnings := [] |} ->
  Bal (ids players) d {| points := Summary.points summary; warnings := [] |} ->
  Bal (ids players) (c + d)
    {| points := addSummary players totals summary; warnings := [] |}.
Proof.
  intros Hnd HT HS.
  destruct (Bal_reads _ _ _ Hnd HT) as (f & Hf & Hfc).
  destruct (Bal_reads _ _ _ Hnd HS) as (g & Hg & Hgd).
  destruct HT as (KT & _ & _). cbn [points] in *.
  assert (Hk : map fst (addSummary players totals summary) = ids players).
  { rewrite keys_addSummary; auto. intros k Hin. now rewrite KT. }
  assert (Hget : forall k, In k (ids players) ->
             JsObj.get k (addSummary players totals summary)
             = Some (Int (f k + g k))).
  { intros k Hin. rewrite get_addSummary by assumption.
    apply mem_In in Hin as Hm. rewrite Hm, (Hf k Hin), (Hg k Hin). reflexivity. }
  rewrite (table_of_reads _ _ _ Hk Hnd Hget).
  destruct (Bal_table (ids players) (fun k => (f k + g k)%Z)) as [B1 B2].
  repeat split; cbn [points].
  - rewrite map_map. simpl. apply map_id.
  - exact B1.
  - rewrite B2, sum_pointwise. lia.
Qed.

Lemma Bal_totals_loop players summaries :
  NoDup (ids players) ->
  (forall summary, In summary summaries ->
     Bal (ids players) 0 {| points := Summary.points summary; warnings := [] |}) ->
  forall totals,
    Bal (ids players) 0 {| points := totals; warnings := [] |} ->
    Bal (ids players) 0
      {| points := fold_left (addSummary players) summaries totals; warnings := [] |}.
Proof.
  intros Hnd. induction summaries as [|s r IH]; intros Hs totals HT; simpl; auto.
  apply IH.
  - intros x Hx. apply Hs. now right.
  - change 0%Z with (0 + 0)%Z. apply Bal_addSummary; auto. apply Hs. now left.
Qed.

Lemma Bal_sessionTotals session :
  four_players (Session.players session) = true ->
  (forall game, In game (Session.games session) ->
     valid_round (Session.players session) game = true) ->
  Bal (ids (Session.players session)) 0
    {| points := sessionTotals (Some session); warnings := [] |}.
Proof.
  intros H4 Hv.
  pose proof H4 as H4'. apply andb_true_iff in H4' as [_ Hd].
  pose proof Hd as Hnd. apply distinct_NoDup in Hnd.
  set (players := Session.players session) in *.
  rewrite (sessionTotals_unfold session Hnd). fold players.
  apply Bal_totals_loop; auto.
  - intros summary Hin. apply in_map_iff in Hin as (g & <- & Hg).
    destruct (valid_round_Bal g players H4 (Hv g Hg)) as (B1 & B2 & B3).
    repeat split; assumption.
  - pose proof (initial_Bal players) as HI.
    rewrite initial_distinct in HI at 1 by assumption.
    rewrite map_map in HI. cbn [fst] in HI.
    destruct HI as (_ & I2 & I3).
    rewrite initial_distinct in I2, I3 by assumption.
    repeat split; auto. cbn [points]. rewrite map_map. reflexivity.
Qed.

(** In the data model a session of four players whose rounds all have
    valid slots and endpoints balances. *)
Lemma session_balance_exact session :
  four_players (Session.players session) = true ->
  forallb (valid_round (Session.players session)) (Session.games session) = true ->
  sessionBalance (Some session) = Int 0.
Proof.
  intros H4 Hv. rewrite forallb_forall in Hv.
  destruct (Bal_sessionTotals session H4 Hv) as (_ & Hall & Hsum).
  cbn [points] in *.
  unfold sessionBalance. rewrite sum_values_int by assumption. now rewrite Hsum.
Qed.

(** ** The "top" statistic on any table of counts *)






(** ** Totals of two runs of rounds *)

Lemma fold_nadd_acc l :
  forall a, fold_left nadd l a = nadd a (fold_left nadd l (Int 0)).
Proof.
  induction l as [|x r IH]; intros a; cbn [fold_left].
  - destruct a; simpl; auto. f_equal. lia.
  - rewrite (IH (nadd a x)), (IH (nadd (Int 0) x)).
    destruct a, x, (fold_left nadd r (Int 0)); simpl; auto. f_equal. lia.
Qed.

Lemma nsum_app l1 l2 : nsum (l1 ++ l2) = nadd (nsum l1) (nsum l2).
Proof. unfold nsum. rewrite fold_left_app. apply fold_nadd_acc. Qed.

Lemma get_sessionTotals session p :
  NoDup (ids (Session.players session)) ->
  In p (ids (Session.players session)) ->
  JsObj.get p (sessionTotals (Some session))
  = Some (nsum (map (fun game => deltaOf game (Session.players session) p)
                    (Session.games session))).
Proof.
  intros Hd Hp. set (players := Session.players session) in *.
  rewrite (sessionTotals_unfold session Hd). fold players.
  assert (Hz : JsObj.get p (map (fun player => (Player.id player, Int 0)) players)
               = Some (Int 0)).
  { apply get_of_entry; [now rewrite map_map|].
    unfold ids in Hp. apply in_map_iff in Hp as (x & <- & Hx).
    apply in_map_iff. now exists x. }
  rewrite get_totals_loop; auto.
  - rewrite Hz. cbn [to_num]. f_equal. unfold nsum. rewrite map_map.
    f_equal. apply map_ext. intros g. unfold deltaOf.
    destruct (every_player_has_delta g players p Hp) as [v Hv]. now rewrite Hv.
  - now rewrite map_map.
Qed.

(** In the data model, with distinct player ids, the totals of a list of
    rounds followed by another are the totals of the first plus the
    totals of the second. *)
Lemma sessionTotals_app_exact session games1 games2 p :
  distinct (ids (Session.players session)) = true ->
  In p (ids (Session.players session)) ->
  totalOf (withGames session (games1 ++ games2)) p
  = nadd (totalOf (withGames session games1) p)
         (totalOf (withGames session games2) p).
Proof.
  intros Hd Hp. apply distinct_NoDup in Hd.
  unfold totalOf.
  rewrite !get_sessionTotals by assumption.
  cbn [withGames Session.games Session.players to_num].
  now rewrite map_app, nsum_app.
Qed.

(** ** Drop targets *)

Lemma prefix_split p s :
  String.prefix p s = true -> exists r, s = (p ++ r)%string.
Proof.
  revert s. induction p as [|a p IH]; intros s H.
  - now exists s.
  - destruct s as [|b s]; [discriminate|]. simpl in H.
    destruct (ascii_dec a b) as [->|]; [|discriminate].
    destruct (IH s H) as [r ->]. now exists r.
Qed.

Lemma substring_all r : substring 0 (String.length r) r = r.
Proof. induction r as [|c r IH]; simpl; [reflexivity|now rewrite IH]. Qed.

Lemma substring_drop p r :
  substring (String.length p) (String.length (p ++ r) - String.length p)
            (p ++ r)%string = r.
Proof.
  induction p as [|a p IH]; simpl.
  - rewrite Nat.sub_0_r. apply substring_all.
  - exact IH.
Qed.

Lemma prefix_app p r : String.prefix p (p ++ r)%string = true.
Proof.
  induction p as [|a p IH]; simpl; [now destruct r|].
  destruct (ascii_dec a a); [exact IH|contradiction].
Qed.

Lemma replaceFirst_unfold pattern replacement s :
  replaceFirst pattern replacement s
  = if String.prefix pattern s
    then (replacement ++ substring (String.length pattern)
                           (String.length s - String.length pattern) s)%string
    else match s with
         | EmptyString => EmptyString
         | String c rest => String c (replaceFirst pattern replacement rest)
         end.
Proof. destruct s; reflexivity. Qed.

Lemma replaceFirst_prefix p r : replaceFirst p "" (p ++ r)%string = r.
Proof.
  rewrite replaceFirst_unfold, prefix_app. cbn [append]. apply substring_drop.
Qed.

Lemma parseDropTarget_inverse_aux id target :
  parseDropTarget id = Some target -> id = dropId target.
Proof.
  unfold parseDropTarget.
  destruct (String.eqb_spec id DROP_CHAY_ID) as [->|Hne].
  - intros [= <-]. reflexivity.
  - destruct (String.prefix "placement-" id) eqn:P; [|discriminate].
    apply prefix_split in P as [r ->].
    rewrite replaceFirst_prefix.
    destruct (keyOfName r) as [key|] eqn:K; [|discriminate].
    intros [= <-]. unfold keyOfName in K. apply find_some in K as [_ K].
    apply String.eqb_eq in K. subst r. reflexivity.
Qed.

(** [parseDropTarget] reads back exactly the ids the drop zones are given:
    a string is parsed as a target if and only if it is the id of that
    target's zone. *)
Theorem parseDropTarget_inverse id target :
  parseDropTarget id = Some target <-> id = dropId target.
Proof.
  split.
  - apply parseDropTarget_inverse_aux.
  - intros ->. destruct target as [[]|]; reflexivity.
Qed.

(** Wherever a chip of one of the players is dropped, the round keeps
    the invariants of [edited]; dropped outside every zone, it is left as
    it is. *)
Theorem handleDragEnd_keeps_invariants players newId game over playerId :
  edited players game ->
  In playerId (ids players) ->
  edited players (handleDragEnd newId game over playerId)
  /\ ((forall target, over <> Some (dropId target)) ->
      handleDragEnd newId game over playerId = game).
Proof.
  intros He Hp. unfold handleDragEnd. split.
  - destruct over as [overId|]; auto.
    destruct (parseDropTarget overId) as [[key|]|]; auto.
    + now apply edited_handleDropPlacement.
    + now apply edited_handleDropChay.
  - intros Hno. destruct over as [overId|]; auto.
    destruct (parseDropTarget overId) as [target|] eqn:P; auto.
    apply parseDropTarget_inverse_aux in P. subst overId.
    exfalso. now apply (Hno target).
Qed.

Lemma handleDragEnd_keeps_invariants_witness :
  edited seats (handleDragEnd "c1" (createGame "g1") (Some "placement-first") "p1")
  /\ ((forall target, Some "placement-first" <> Some (dropId target)) ->
      handleDragEnd "c1" (createGame "g1") (Some "placement-first") "p1"
      = createGame "g1").
Proof.
  apply (handleDragEnd_keeps_invariants seats "c1" (createGame "g1")
           (Some "placement-first") "p1").
  - repeat split; try reflexivity.
    + intros slot _. unfold burned. simpl. now destruct (truthy slot).
    + constructor.
  - simpl. auto.
Defined.

(** ** Sessions: removing a round *)

Lemma findIndexFrom_none {A : Type} (f : A -> bool) l i :
  (forall x, In x l -> f x = false) -> findIndexFrom f l i = (-1)%Z.
Proof.
  revert i. induction l as [|x r IH]; intros i H; simpl; auto.
  rewrite (H x (or_introl eq_refl)). apply IH. intros y Hy. apply H. now right.
Qed.

Lemma findIndexFrom_split {A : Type} (f : A -> bool) l1 x l2 i :
  (forall y, In y l1 -> f y = false) -> f x = true ->
  findIndexFrom f (l1 ++ x :: l2) i = (i + Z.of_nat (length l1))%Z.
Proof.
  revert i. induction l1 as [|y r IH]; intros i H Hx; simpl.
  - rewrite Hx. lia.
  - rewrite (H y (or_introl eq_refl)). rewrite IH; auto.
    + lia.
    + intros z Hz. apply H. now right.
Qed.

Lemma filter_none {A : Type} (f : A -> bool) l :
  (forall x, In x l -> f x = true) -> filter f l = l.
Proof. intros H. apply filter_all, forallb_forall, H. Qed.

(** A list of rounds with distinct ids around the round of a given id. *)
Lemma games_split games gameId :
  NoDup (map Game.id games) ->
  In gameId (map Game.id games) ->
  exists l1 g l2,
    games = l1 ++ g :: l2 /\ Game.id g = gameId
    /\ (forall y, In y (l1 ++ l2) -> Game.id y <> gameId).
Proof.
  intros Hnd Hin. apply in_map_iff in Hin as (g & Hg & Hin).
  apply in_split in Hin as (l1 & l2 & ->).
  exists l1, g, l2. repeat split; auto.
  intros y Hy E. rewrite map_app in Hnd. simpl in Hnd.
  apply NoDup_remove_2 in Hnd. apply Hnd.
  rewrite <- map_app. apply in_map_iff. exists y. split; auto. congruence.
Qed.

Lemma withCursor_same session :
  withCursor session (Session.games session) (Session.currentGameIndex session)
  = session.
Proof. now destruct session. Qed.

Lemma removeGame_absent session gameId :
  cursorValid session ->
  ~ In gameId (map Game.id (Session.games session)) ->
  removeGame session gameId = session.
Proof.
  intros [_ Hidx] Hno. unfold removeGame.
  destruct (length (Session.games session) =? 1)%nat; auto.
  assert (Hf : forall x, In x (Session.games session) ->
                 (Game.id x =? gameId) = false).
  { intros x Hx. apply String.eqb_neq. intros E. apply Hno.
    apply in_map_iff. now exists x. }
  unfold findIndex. rewrite findIndexFrom_none by assumption.
  rewrite filter_none.
  - cbv zeta. rewrite Z.eqb_refl. cbn [negb]. rewrite Z.min_l by lia.
    apply withCursor_same.
  - intros x Hx. now rewrite Hf.
Qed.

Lemma removeGame_present session gameId l1 g l2 :
  Session.games session = l1 ++ g :: l2 ->
  Game.id g = gameId ->
  (forall y, In y (l1 ++ l2) -> Game.id y <> gameId) ->
  (length (l1 ++ l2) <> 0)%nat ->
  (0 <= Session.currentGameIndex session < Z.of_nat (length (l1 ++ g :: l2)))%Z ->
  removeGame session gameId
  = withCursor session (l1 ++ l2)
      (let i := Session.currentGameIndex session in
       if (i >? Z.of_nat (length l1))%Z then (i - 1)%Z
       else if (i =? Z.of_nat (length l1))%Z then Z.max 0 (i - 1)
            else i).
Proof.
  intros Hg Hid Hothers Hlen Hidx. unfold removeGame. rewrite Hg.
  assert (L : length (l1 ++ g :: l2) = S (length (l1 ++ l2)))
    by (rewrite !length_app; simpl; lia).
  destruct (Nat.eqb_spec (length (l1 ++ g :: l2)) 1) as [E|_]; [lia|].
  unfold findIndex. rewrite findIndexFrom_split.
  - rewrite filter_app. cbn [filter]. rewrite Hid, String.eqb_refl. cbn [negb].
    rewrite !filter_none.
    + cbv zeta. f_equal.
      replace (0 + Z.of_nat (length l1) =? -1)%Z with false
        by (symmetry; apply Z.eqb_neq; lia).
      cbn [negb]. rewrite Z.add_0_l.
      rewrite length_app in *. simpl in Hidx.
      destruct (Z.gtb_spec (Session.currentGameIndex session) (Z.of_nat (length l1)));
        [lia|].
      destruct (Z.eqb_spec (Session.currentGameIndex session) (Z.of_nat (length l1)));
        lia.
    + intros x Hx. apply negb_true_iff, String.eqb_neq, Hothers.
      apply in_or_app. now right.
    + intros x Hx. apply negb_true_iff, String.eqb_neq, Hothers.
      apply in_or_app. now left.
  - intros y Hy. apply String.eqb_neq, Hothers. apply in_or_app. now left.
  - rewrite Hid. apply String.eqb_refl.
Qed.

Lemma removeGame_single session gameId :
  length (Session.games session) = 1%nat -> removeGame session gameId = session.
Proof. intros L. unfold removeGame. now rewrite L. Qed.

Lemma filter_others (l : list Game.t) gameId :
  (forall y, In y l -> Game.id y <> gameId) ->
  filter (fun game => negb (Game.id game =? gameId)) l = l.
Proof.
  intros H. apply filter_none. intros x Hx.
  apply negb_true_iff, String.eqb_neq, H, Hx.
Qed.

Lemma removeGame_cursorValid session gameId :
  cursorValid session -> cursorValid (removeGame session gameId).
Proof.
  intros HV. pose proof HV as [Hnd Hidx].
  destruct (Nat.eq_dec (length (Session.games session)) 1) as [L1|L1].
  { now rewrite removeGame_single. }
  destruct (in_dec string_dec gameId (map Game.id (Session.games session)))
    as [Hin|Hno].
  2:{ now rewrite removeGame_absent. }
  destruct (games_split _ _ Hnd Hin) as (l1 & g & l2 & Hg & Hid & Hothers).
  assert (Hlen : length (l1 ++ l2) <> 0%nat).
  { rewrite Hg in L1. rewrite !length_app in *. simpl in L1. lia. }
  rewrite Hg in Hidx.
  rewrite (removeGame_present session gameId l1 g l2 Hg Hid Hothers Hlen Hidx).
  cbv zeta. set (i := Session.currentGameIndex session) in *.
  assert (Ll : length (l1 ++ g :: l2) = S (length (l1 ++ l2)))
    by (rewrite !length_app; simpl; lia).
  assert (La : length (l1 ++ l2) = (length l1 + length l2)%nat) by apply length_app.
  unfold cursorValid. cbn [withCursor Session.games Session.currentGameIndex].
  split.
  - rewrite Hg, map_app in Hnd. simpl in Hnd. apply NoDup_remove_1 in Hnd.
    now rewrite map_app.
  - destruct (Z.gtb_spec i (Z.of_nat (length l1)));
      [|destruct (Z.eqb_spec i (Z.of_nat (length l1)))]; lia.
Qed.

(** Removing a round keeps the cursor on a round of the session; when
    another round than the current one is removed the cursor stays on
    the current round; a session of one round, or an id that names no
    round, is left as it is; otherwise exactly the named round goes. *)
Theorem removeGame_cursor session gameId :
  cursorValid session ->
  let next := removeGame session gameId in
  cursorValid next
  /\ (forall game, currentGame session = Some game -> Game.id game <> gameId ->
                   currentGame next = Some game)
  /\ (length (Session.games session) = 1%nat
      \/ ~ In gameId (map Game.id (Session.games session)) ->
      next = session)
  /\ (length (Session.games session) <> 1%nat ->
      Session.games next
      = filter (fun game => negb (Game.id game =? gameId)) (Session.games session)).
Proof.
  intros HV next. pose proof HV as [Hnd Hidx].
  split; [now apply removeGame_cursorValid|].
  destruct (Nat.eq_dec (length (Session.games session)) 1) as [L1|L1].
  { assert (E : next = session) by (subst next; now apply removeGame_single).
    rewrite E. split; [|split]; auto. intros; contradiction. }
  destruct (in_dec string_dec gameId (map Game.id (Session.games session)))
    as [Hin|Hno].
  2:{ assert (E : next = session) by (subst next; now apply removeGame_absent).
      rewrite E. split; [|split]; auto.
      intros _. symmetry. apply filter_others.
      intros x Hx Eid. apply Hno. apply in_map_iff. now exists x. }
  destruct (games_split _ _ Hnd Hin) as (l1 & g & l2 & Hg & Hid & Hothers).
  assert (Hlen : length (l1 ++ l2) <> 0%nat).
  { rewrite Hg in L1. rewrite !length_app in *. simpl in L1. lia. }
  rewrite Hg in Hidx.
  pose proof (removeGame_present session gameId l1 g l2 Hg Hid Hothers Hlen Hidx) as E.
  fold next in E. cbv zeta in E.
  set (i := Session.currentGameIndex session) in *.
  assert (La : length (l1 ++ l2) = (length l1 + length l2)%nat) by apply length_app.
  rewrite length_app in Hidx. simpl in Hidx.
  rewrite E. unfold currentGame.
  cbn [withCursor Session.games Session.currentGameIndex].
  split; [|split].
  - intros game Hcur Hne. fold i in Hcur. rewrite Hg in Hcur.
    destruct (Z.ltb_spec i 0); [lia|].
    assert (Hi : Z.to_nat i <> length l1).
    { intros Ei. rewrite Ei, nth_error_app2, Nat.sub_diag in Hcur by lia.
      simpl in Hcur. injection Hcur as <-. contradiction. }
    destruct (Z.gtb_spec i (Z.of_nat (length l1))) as [Hgt|Hle].
    + destruct (Z.ltb_spec (i - 1) 0); [lia|].
      rewrite nth_error_app2 in Hcur by lia.
      rewrite nth_error_app2 by lia.
      replace (Z.to_nat i - length l1)%nat
        with (S (Z.to_nat (i - 1) - length l1)) in Hcur by lia.
      exact Hcur.
    + destruct (Z.eqb_spec i (Z.of_nat (length l1))); [lia|].
      destruct (Z.ltb_spec i 0); [lia|].
      rewrite nth_error_app1 in Hcur by lia.
      rewrite nth_error_app1 by lia. exact Hcur.
  - intros [H1|Hno]; contradiction.
  - intros _. rewrite Hg, filter_app. cbn [filter].
    rewrite Hid, String.eqb_refl. cbn [negb].
    rewrite !filter_others; auto.
    + intros x Hx. apply Hothers, in_or_app. now right.
    + intros x Hx. apply Hothers, in_or_app. now left.
Qed.

Lemma removeGame_cursor_witness :
  let next := removeGame editedSession "g2" in
  cursorValid next
  /\ (forall game, currentGame editedSession = Some game -> Game.id game <> "g2" ->
                   currentGame next = Some game)
  /\ (length (Session.games editedSession) = 1%nat
      \/ ~ In "g2" (map Game.id (Session.games editedSession)) ->
      next = editedSession)
  /\ (length (Session.games editedSession) <> 1%nat ->
      Session.games next
      = filter (fun game => negb (Game.id game =? "g2")) (Session.games editedSession)).
Proof.
  apply (removeGame_cursor editedSession "g2").
  split; [|simpl; lia].
  simpl. repeat constructor; simpl; intuition discriminate.
Defined.

(** ** Sessions: the cursor under the edits of the screen *)

Lemma cursorValid_current session :
  cursorValid session -> exists game, currentGame session = Some game.
Proof.
  intros [_ H]. unfold currentGame.
  destruct (Z.ltb_spec (Session.currentGameIndex session) 0); [lia|].
  destruct (nth_error (Session.games session)
              (Z.to_nat (Session.currentGameIndex session))) eqn:E; eauto.
  apply nth_error_None in E. lia.
Qed.

Lemma cursorValid_addGame newId session :
  NoDup (map Game.id (Session.games session)) ->
  ~ In newId (map Game.id (Session.games session)) ->
  cursorValid (addGame newId session).
Proof.
  intros Hnd Hnew. unfold cursorValid, addGame.
  cbn [withCursor Session.games Session.currentGameIndex].
  split.
  - rewrite map_app. simpl.
    eapply Permutation_NoDup; [apply Permutation_cons_append|].
    now constructor.
  - rewrite length_app. simpl. lia.
Qed.

Lemma updateGame_ids session gameId updater :
  (forall game, Game.id (updater game) = Game.id game) ->
  map Game.id (Session.games (updateGame session gameId updater))
  = map Game.id (Session.games session).
Proof.
  intros H. unfold updateGame. cbn [withCursor Session.games].
  rewrite map_map. apply map_ext. intros g.
  destruct (Game.id g =? gameId); auto.
Qed.

Lemma cursorValid_updateGame session gameId updater :
  (forall game, Game.id (updater game) = Game.id game) ->
  cursorValid session -> cursorValid (updateGame session gameId updater).
Proof.
  intros H [Hnd Hidx]. split.
  - now rewrite updateGame_ids.
  - unfold updateGame. cbn [withCursor Session.games Session.currentGameIndex].
    now rewrite length_map.
Qed.

Lemma cursorValid_applySessionEdit session edit :
  cursorValid session -> sessionOffered session edit ->
  cursorValid (applySessionEdit session edit).
Proof.
  intros HV Hoff. pose proof HV as [Hnd Hidx].
  destruct edit as [newId|gameId| |newId|newId|updater]; cbn [applySessionEdit].
  - now apply cursorValid_addGame.
  - now apply removeGame_cursorValid.
  - unfold goPrev, cursorValid.
    cbn [withCursor Session.games Session.currentGameIndex]. split; [assumption|lia].
  - unfold nextButton. destruct (canGoNext session) eqn:E.
    + unfold canGoNext in E. apply Z.ltb_lt in E. unfold cursorValid.
      cbn [withCursor Session.games Session.currentGameIndex]. split; [assumption|lia].
    + now apply cursorValid_addGame.
  - unfold resetSession, cursorValid.
    cbn [withCursor Session.games Session.currentGameIndex]. split.
    + simpl. repeat constructor. intros [].
    + simpl. lia.
  - destruct (currentGame session); [|assumption].
    now apply cursorValid_updateGame.
Qed.

Lemma applySessionEdit_players session edit :
  Session.players (applySessionEdit session edit) = Session.players session
  /\ Session.id (applySessionEdit session edit) = Session.id session.
Proof.
  destruct edit; cbn [applySessionEdit]; auto.
  - unfold removeGame. now destruct (length (Session.games session) =? 1)%nat.
  - unfold nextButton. now destruct (canGoNext session).
  - now destruct (currentGame session).
Qed.

(** Whatever the screen does to the rounds of a session (add, remove,
    step back or forward, start over, edit the current round), the
    rounds keep distinct ids, the cursor stays on one of them, so there
    is always a current round, and the players stay the same. *)
Theorem session_edits_keep_cursor session edits :
  cursorValid session ->
  sessionEditsOffered session edits ->
  let next := applySessionEdits session edits in
  cursorValid next
  /\ (exists game, currentGame next = Some game)
  /\ Session.players next = Session.players session
  /\ Session.id next = Session.id session.
Proof.
  revert session. induction edits as [|edit rest IH]; intros session HV Hoff next.
  - subst next. simpl. split; [assumption|]. split; [now apply cursorValid_current|].
    split; reflexivity.
  - destruct Hoff as [Hoff Hrest].
    destruct (IH (applySessionEdit session edit)
                (cursorValid_applySessionEdit _ _ HV Hoff) Hrest)
      as (H1 & H2 & H3 & H4).
    destruct (applySessionEdit_players session edit) as [P1 P2].
    subst next. cbn [applySessionEdits fold_left] in *.
    unfold applySessionEdits in *.
    split; [assumption|]. split; [assumption|].
    split; congruence.
Qed.

Lemma session_edits_keep_cursor_witness :
  let session := createSession (fun name => name) "s1" "g1" 0 1 None in
  let next :=
    applySessionEdits session
      [ AddGame "g2"; GoPrev; RemoveGame "g1"; NextButton "g3";
        UpdateCurrent (fun game => handleDropPlacement game PlacementKey.first "p1");
        ResetSession "g4" ] in
  cursorValid next
  /\ (exists game, currentGame next = Some game)
  /\ Session.players next = Session.players session
  /\ Session.id next = Session.id session.
Proof.
  apply (session_edits_keep_cursor
           (createSession (fun name => name) "s1" "g1" 0 1 None)).
  - split; [|simpl; lia]. simpl. repeat constructor. intros [].
  - simpl. repeat split; try (intuition discriminate).
Defined.

(** With distinct round ids, editing the current round changes that
    round and no other. *)
Theorem updateGame_only_current session game updater :
  cursorValid session ->
  currentGame session = Some game ->
  let next := updateGame session (Game.id game) updater in
  currentGame next = Some (updater game)
  /\ (forall index,
        index <> Z.to_nat (Session.currentGameIndex session) ->
        nth_error (Session.games next) index
        = nth_error (Session.games session) index).
Proof.
  intros [Hnd Hidx] Hcur next. subst next. unfold currentGame in *.
  unfold updateGame. cbn [withCursor Session.games Session.currentGameIndex].
  destruct (Z.ltb_spec (Session.currentGameIndex session) 0); [lia|].
  split.
  - rewrite nth_error_map, Hcur. simpl. now rewrite String.eqb_refl.
  - intros index Hne. rewrite nth_error_map.
    destruct (nth_error (Session.games session) index) as [g|] eqn:E; auto.
    simpl. destruct (String.eqb_spec (Game.id g) (Game.id game)) as [Eid|]; auto.
    exfalso. apply Hne.
    assert (Hlt : (index < length (map Game.id (Session.games session)))%nat).
    { rewrite length_map. apply nth_error_Some. congruence. }
    apply (proj1 (NoDup_nth_error _) Hnd _ _ Hlt).
    rewrite !nth_error_map, E, Hcur. simpl. now rewrite Eid.
Qed.

Lemma updateGame_only_current_witness :
  let next :=
    updateGame editedSession (Game.id editedRound)
      (fun game => handleDropPlacement game PlacementKey.first "p2") in
  currentGame next
  = Some (handleDropPlacement editedRound PlacementKey.first "p2")
  /\ (forall index,
        index <> Z.to_nat (Session.currentGameIndex editedSession) ->
        nth_error (Session.games next) index
        = nth_error (Session.games editedSession) index).
Proof.
  apply (updateGame_only_current editedSession editedRound).
  - split; [|simpl; lia]. simpl. repeat constructor; simpl; intuition discriminate.
  - reflexivity.
Defined.

(** Stepping forward and then back, or back and then forward, returns to
    the same session: neither step makes a round when there is one to
    go to. *)
Theorem prev_next_round_trip newId session :
  cursorValid session ->
  (canGoNext session = true -> goPrev (nextButton newId session) = session)
  /\ (canGoPrev session = true -> nextButton newId (goPrev session) = session).
Proof.
  intros [_ Hidx]. split; intros H.
  - unfold nextButton. rewrite H. unfold canGoNext in H. apply Z.ltb_lt in H.
    unfold goPrev. cbn [withCursor Session.games Session.currentGameIndex].
    replace (Z.max 0 _) with (Session.currentGameIndex session) by lia.
    now destruct session.
  - unfold canGoPrev in H. apply Z.gtb_lt in H.
    unfold nextButton, canGoNext, goPrev.
    cbn [withCursor Session.games Session.currentGameIndex].
    replace (_ <? _)%Z with true by (symmetry; apply Z.ltb_lt; lia).
    cbn [withCursor Session.games Session.currentGameIndex].
    replace (Z.min _ _) with (Session.currentGameIndex session) by lia.
    now destruct session.
Qed.

Lemma prev_next_round_trip_witness :
  (canGoNext editedSession = true ->
   goPrev (nextButton "g3" editedSession) = editedSession)
  /\ (canGoPrev editedSession = true ->
      nextButton "g3" (goPrev editedSession) = editedSession).
Proof.
  apply (prev_next_round_trip "g3" editedSession).
  split; [|simpl; lia]. simpl. repeat constructor; simpl; intuition discriminate.
Defined.

(** A new round goes to the end and becomes the current one; removing
    it again gives back the rounds there were, with the cursor on the
    last of them. *)
Theorem removeGame_addGame newId session :
  cursorValid session ->
  ~ In newId (map Game.id (Session.games session)) ->
  currentGame (addGame newId session) = Some (createGame newId)
  /\ removeGame (addGame newId session) newId
     = withCursor session (Session.games session)
         (Z.of_nat (length (Session.games session)) - 1).
Proof.
  intros [Hnd Hidx] Hnew. split.
  - unfold currentGame, addGame.
    cbn [withCursor Session.games Session.currentGameIndex].
    rewrite length_app. simpl.
    destruct (Z.ltb_spec (Z.of_nat (length (Session.games session) + 1) - 1) 0);
      [lia|].
    replace (Z.to_nat _) with (length (Session.games session)) by lia.
    now rewrite nth_error_app2, Nat.sub_diag by lia.
  - assert (Hothers : forall y, In y (Session.games session ++ []) ->
                        Game.id y <> newId).
    { intros y Hy E. rewrite app_nil_r in Hy. apply Hnew, in_map_iff. now exists y. }
    rewrite (removeGame_present (addGame newId session) newId
               (Session.games session) (createGame newId) []).
    + cbv zeta. unfold addGame.
      cbn [withCursor Session.games Session.currentGameIndex
           Session.id Session.name Session.players Session.createdAt].
      rewrite app_nil_r, length_app. simpl. unfold withCursor. f_equal.
      destruct (Z.gtb_spec (Z.of_nat (length (Session.games session) + 1) - 1)
                  (Z.of_nat (length (Session.games session)))); [lia|].
      destruct (Z.eqb_spec (Z.of_nat (length (Session.games session) + 1) - 1)
                  (Z.of_nat (length (Session.games session)))); lia.
    + reflexivity.
    + reflexivity.
    + assumption.
    + rewrite app_nil_r. lia.
    + unfold addGame. cbn [withCursor Session.games Session.currentGameIndex].
      rewrite !length_app. simpl. lia.
Qed.

Lemma removeGame_addGame_witness :
  currentGame (addGame "g3" editedSession) = Some (createGame "g3")
  /\ removeGame (addGame "g3" editedSession) "g3"
     = withCursor editedSession (Session.games editedSession)
         (Z.of_nat (length (Session.games editedSession)) - 1).
Proof.
  apply (removeGame_addGame "g3" editedSession).
  - split; [|simpl; lia]. simpl. repeat constructor; simpl; intuition discriminate.
  - simpl. intuition discriminate.
Defined.

(** ** Players: creation and renaming *)

Lemma trimmedOr_truthy trim names index fallback :
  truthy fallback = true -> truthy (trimmedOr trim names index fallback) = true.
Proof.
  intros H. unfold trimmedOr. destruct names as [l|]; auto.
  destruct (nth_error l index) as [name|]; auto.
  destruct (truthy (trim name)) eqn:E; auto.
Qed.

(** Whatever names are typed, and whatever trimming leaves of them, the
    four seats p1..p4 are made, in this order, each with a name that is
    not empty. *)
Theorem createPlayers_named trim names :
  let players := createPlayers trim names in
  ids players = ["p1"; "p2"; "p3"; "p4"]
  /\ four_players players = true
  /\ namedPlayers players = true.
Proof.
  intros players. subst players. unfold createPlayers, mapi. cbn [mapi_from].
  split; [reflexivity|]. split; [reflexivity|].
  unfold namedPlayers. apply andb_true_intro. split; [reflexivity|].
  cbn [forallb Player.name].
  repeat (rewrite trimmedOr_truthy by reflexivity). reflexivity.
Qed.

Lemma forEach_ids (body : string -> Cmd) players st :
  forEach players (fun player => body (Player.id player)) st
  = forEach (ids players) body st.
Proof.
  unfold forEach. revert st.
  induction players as [|p r IH]; intros st; simpl; auto.
Qed.

Lemma fold_left_ids {A : Type} (f : A -> string -> A) players a :
  fold_left (fun acc player => f acc (Player.id player)) players a
  = fold_left f (ids players) a.
Proof.
  revert a. induction players as [|p r IH]; intros a; simpl; auto.
Qed.

Lemma fold_left_pointwise {A B : Type} (f g : A -> B -> A) l a :
  (forall x y, f x y = g x y) -> fold_left f l a = fold_left g l a.
Proof.
  intros H. revert a. induction l as [|b r IH]; intros a; simpl; auto.
  now rewrite H, IH.
Qed.

Lemma initial_ids players players' :
  ids players = ids players' -> initial players = initial players'.
Proof.
  intros H. unfold initial. f_equal. f_equal.
  transitivity (map (fun id => (id, Int 0)) (ids players)).
  - unfold ids. now rewrite map_map.
  - rewrite H. unfold ids. now rewrite map_map.
Qed.

Lemma scoreMode_ids game players players' st :
  ids players = ids players' ->
  scoreMode game players st = scoreMode game players' st.
Proof.
  intros H. unfold scoreMode. destruct (Game.u game).
  - unfold scoreU.
    destruct (negb (truthy (Placements.first (Game.placements game)))); auto.
    rewrite (forEach_ids
               (fun id => assign id
                  (if id =? Placements.first (Game.placements game)
                   then Int 15 else Int (-5))) players).
    rewrite (forEach_ids
               (fun id => assign id
                  (if id =? Placements.first (Game.placements game)
                   then Int 15 else Int (-5))) players').
    now rewrite H.
  - cbv zeta. destruct (0 <? length (chaySetOf game))%nat; auto.
    unfold scoreChay, nonChayOf. now rewrite H.
Qed.

(** The points of a round depend on the players through their ids
    only. *)
Lemma computeGamePoints_ids game players players' :
  ids players = ids players' ->
  computeGamePoints game players = computeGamePoints game players'.
Proof.
  intros H. unfold computeGamePoints, seq.
  now rewrite (initial_ids _ _ H), (scoreMode_ids game _ _ _ H).
Qed.

Lemma sessionTotals_ids session session' :
  ids (Session.players session) = ids (Session.players session') ->
  Session.games session = Session.games session' ->
  sessionTotals (Some session) = sessionTotals (Some session').
Proof.
  intros H G. unfold sessionTotals, gameSummaries. rewrite G.
  rewrite (map_ext _ _ (fun game =>
             computeGamePoints_ids game _ _ H)).
  replace (map (fun player => (Player.id player, Int 0)) (Session.players session))
    with (map (fun player => (Player.id player, Int 0)) (Session.players session')).
  2:{ transitivity (map (fun id => (id, Int 0)) (ids (Session.players session'))).
      - unfold ids. now rewrite map_map.
      - rewrite <- H. unfold ids. now rewrite map_map. }
  apply fold_left_pointwise. intros totals summary.
  rewrite (fold_left_ids
             (fun totals id =>
                JsObj.set id
                  (nadd (to_num (JsObj.get id totals))
                        (nullish (JsObj.get id (Summary.points summary)) (Int 0)))
                  totals) (Session.players session)).
  rewrite (fold_left_ids
             (fun totals id =>
                JsObj.set id
                  (nadd (to_num (JsObj.get id totals))
                        (nullish (JsObj.get id (Summary.points summary)) (Int 0)))
                  totals) (Session.players session')).
  now rewrite H.
Qed.

Lemma renamed_ids (rename : Player.t -> nat -> string) players index :
  ids (mapi_from (fun player index =>
                    {| Player.id := Player.id player;
                       Player.name := rename player index |}) players index)
  = ids players.
Proof.
  revert index. induction players as [|p r IH]; intros index; simpl; auto.
  f_equal. apply IH.
Qed.

Lemma renamed_truthy trim editNames players index :
  forallb (fun player => truthy (Player.name player)) players = true ->
  forallb (fun player => truthy (Player.name player))
    (mapi_from (fun player index =>
                  {| Player.id := Player.id player;
                     Player.name :=
                       trimmedOr trim (Some editNames) index (Player.name player) |})
               players index) = true.
Proof.
  revert index. induction players as [|p r IH]; intros index H;
    cbn [mapi_from forallb Player.name] in *; auto.
  apply andb_true_iff in H as [H1 H2].
  rewrite IH by assumption. now rewrite trimmedOr_truthy.
Qed.

(** Saving edited names changes names only: the seats keep their ids, no
    round scores differently, the totals are the same, the rounds and
    the cursor stay, and no name becomes empty. *)
Theorem saveEditSession_keeps_scores trim editNames session :
  let next := saveEditSession trim editNames session in
  ids (Session.players next) = ids (Session.players session)
  /\ (forall game,
        computeGamePoints game (Session.players next)
        = computeGamePoints game (Session.players session))
  /\ sessionTotals (Some next) = sessionTotals (Some session)
  /\ Session.games next = Session.games session
  /\ Session.currentGameIndex next = Session.currentGameIndex session
  /\ (namedPlayers (Session.players session) = true ->
      namedPlayers (Session.players next) = true).
Proof.
  intros next.
  assert (Hids : ids (Session.players next) = ids (Session.players session)).
  { subst next. unfold saveEditSession, mapi. cbn [Session.players].
    apply renamed_ids. }
  split; [assumption|].
  split; [intros game; now apply computeGamePoints_ids|].
  split; [now apply sessionTotals_ids|].
  split; [reflexivity|]. split; [reflexivity|].
  unfold namedPlayers. rewrite Hids. intros H.
  apply andb_true_iff in H as [H1 H2]. rewrite H1. cbn [andb].
  subst next. unfold saveEditSession, mapi. cbn [Session.players].
  now apply renamed_truthy.
Qed.

(** A name left blank, or one that trims to nothing, keeps the name the
    seat had; any other becomes the seat's name, trimmed. *)
Theorem saveEditSession_names trim editNames session index player :
  nth_error (Session.players session) index = Some player ->
  exists renamed,
    nth_error (Session.players (saveEditSession trim editNames session)) index
    = Some renamed
    /\ Player.id renamed = Player.id player
    /\ Player.name renamed
       = match nth_error editNames index with
         | Some name => if trim name =? "" then Player.name player else trim name
         | None => Player.name player
         end.
Proof.
  unfold saveEditSession, mapi. cbn [Session.players].
  assert (G : forall players start index,
             nth_error players index = Some player ->
             nth_error
               (mapi_from (fun player index =>
                  {| Player.id := Player.id player;
                     Player.name :=
                       trimmedOr trim (Some editNames) index (Player.name player) |})
                  players start) index
             = Some {| Player.id := Player.id player;
                       Player.name :=
                         trimmedOr trim (Some editNames) (start + index)
                           (Player.name player) |}).
  { induction players as [|p r IH]; intros start [|i] H;
      cbn [mapi_from nth_error] in *; try discriminate.
    - injection H as ->. now rewrite Nat.add_0_r.
    - rewrite (IH (S start) i H).
      now replace (S start + i)%nat with (start + S i)%nat by lia. }
  intros H. rewrite (G _ 0%nat _ H). eexists. split; [reflexivity|].
  split; [reflexivity|]. cbn [Player.name trimmedOr Nat.add].
  destruct (nth_error editNames index) as [name|]; auto.
  unfold truthy. now destruct (trim name =? "").
Qed.

Lemma saveEditSession_names_witness :
  exists renamed,
    nth_error
      (Session.players
         (saveEditSession (fun name => name) ["An"; ""; "Chi"] editedSession)) 1
    = Some renamed
    /\ Player.id renamed = Player.id (seat "p2" "Người chơi 2")
    /\ Player.name renamed
       = match nth_error ["An"; ""; "Chi"] 1 with
         | Some name =>
             if (fun name => name) name =? ""
             then Player.name (seat "p2" "Người chơi 2")
             else (fun name => name) name
         | None => Player.name (seat "p2" "Người chơi 2")
         end.
Proof.
  apply (saveEditSession_names (fun name => name) ["An"; ""; "Chi"] editedSession 1
           (seat "p2" "Người chơi 2")).
  reflexivity.
Defined.

(** ** The session screen as a whole *)

Lemma applyEdit_id players game edit next :
  applyEdit players game edit = Some next -> Game.id next = Game.id game.
Proof.
  destruct edit; cbn [applyEdit]; intros H; try (injection H as <-).
  - reflexivity.
  - unfold handleDropChay.
    repeat match goal with
           | |- context [if ?c then _ else _] => destruct c
           end; reflexivity.
  - reflexivity.
  - reflexivity.
  - reflexivity.
  - reflexivity.
  - unfold addTransfer in H. destruct (createTransfer newId players game); [|discriminate].
    now injection H as <-.
  - reflexivity.
  - reflexivity.
  - reflexivity.
Qed.

Lemma roundEdit_id players edit game :
  Game.id (roundEdit players edit game) = Game.id game.
Proof.
  unfold roundEdit. destruct (applyEdit players game edit) eqn:E; auto.
  now apply applyEdit_id in E.
Qed.

Lemma roundEdit_edited players edit game :
  edited players game -> offered players game edit = true ->
  edited players (roundEdit players edit game).
Proof.
  intros He Hoff. unfold roundEdit.
  destruct (applyEdit players game edit) eqn:E; auto.
  now apply (edited_applyEdit players game edit).
Qed.

Lemma same_id_same_round (games : list Game.t) g h :
  NoDup (map Game.id games) -> In g games -> In h games ->
  Game.id g = Game.id h -> g = h.
Proof.
  induction games as [|x r IH]; intros Hnd Hg Hh E; [contradiction|].
  simpl in Hnd. apply NoDup_cons_iff in Hnd as [Hx Hr].
  destruct Hg as [<-|Hg], Hh as [<-|Hh]; auto.
  - exfalso. apply Hx. rewrite E. now apply in_map.
  - exfalso. apply Hx. rewrite <- E. now apply in_map.
Qed.

Lemma currentGame_In session game :
  currentGame session = Some game -> In game (Session.games session).
Proof.
  unfold currentGame. destruct (_ <? _)%Z; [discriminate|]. apply nth_error_In.
Qed.

Lemma rounds_applySessionEdit session edit game :
  (forall updater, edit <> UpdateCurrent updater) ->
  In game (Session.games (applySessionEdit session edit)) ->
  In game (Session.games session) \/ exists newId, game = createGame newId.
Proof.
  intros Hno. destruct edit as [newId|gameId| |newId|newId|updater];
    cbn [applySessionEdit].
  - unfold addGame. cbn [withCursor Session.games]. intros H.
    apply in_app_iff in H as [H|[<-|[]]]; eauto.
  - unfold removeGame. destruct (length (Session.games session) =? 1)%nat; auto.
    cbn [withCursor Session.games]. intros H. apply filter_In in H. tauto.
  - auto.
  - unfold nextButton, addGame. destruct (canGoNext session);
      cbn [withCursor Session.games]; auto.
    intros H. apply in_app_iff in H as [H|[<-|[]]]; eauto.
  - unfold resetSession. cbn [withCursor Session.games]. intros [<-|[]]. eauto.
  - now destruct (Hno updater).
Qed.

Lemma sessionEdited_applyScreenEdit session edit :
  sessionEdited session -> screenOffered session edit ->
  sessionEdited (applyScreenEdit session edit)
  /\ Session.players (applyScreenEdit session edit) = Session.players session.
Proof.
  intros [HV Hall] Hoff.
  assert (P : Session.players (applyScreenEdit session edit)
              = Session.players session).
  { destruct edit; apply applySessionEdit_players. }
  split; [|assumption]. split.
  - destruct edit as [edit|edit]; cbn [applyScreenEdit].
    + apply cursorValid_applySessionEdit; auto.
      destruct edit; auto. contradiction.
    + apply cursorValid_applySessionEdit; auto.
      intros game. apply roundEdit_id.
  - rewrite P. destruct edit as [edit|edit]; cbn [applyScreenEdit].
    + intros game Hin.
      apply rounds_applySessionEdit in Hin as [Hin|[newId ->]]; auto.
      * apply edited_createGame.
      * intros updater ->. contradiction.
    + destruct Hoff as (cur & Hcur & Hoff). cbn [applySessionEdit].
      rewrite Hcur. unfold updateGame. cbn [withCursor Session.games].
      intros game Hin. apply in_map_iff in Hin as (g & <- & Hg).
      destruct (String.eqb_spec (Game.id g) (Game.id cur)) as [E|_]; auto.
      assert (g = cur) as ->.
      { apply (same_id_same_round (Session.games session)); auto.
        - apply HV.
        - now apply currentGame_In. }
      apply roundEdit_edited; auto.
Qed.

Lemma sessionEdited_applyScreenEdits session edits :
  sessionEdited session -> screenEditsOffered session edits ->
  sessionEdited (applyScreenEdits session edits)
  /\ Session.players (applyScreenEdits session edits) = Session.players session.
Proof.
  revert session. induction edits as [|edit rest IH]; intros session He Hoff.
  - now split.
  - destruct Hoff as [Hoff Hrest].
    destruct (sessionEdited_applyScreenEdit session edit He Hoff) as [He1 P1].
    destruct (IH _ He1 Hrest) as [He2 P2].
    unfold applyScreenEdits in *. cbn [fold_left]. split; [assumption|congruence].
Qed.

(** From a new session, whatever is done on the session screen (rounds
    added, removed, stepped through, started over; the current round
    edited by the controls it shows), there is always a current round,
    every round sums to 0 and so does the session. *)
Theorem screen_keeps_balance trim sessionId gameId now index names edits :
  screenEditsOffered (createSession trim sessionId gameId now index names) edits ->
  let next :=
    applyScreenEdits (createSession trim sessionId gameId now index names) edits in
  (exists game, currentGame next = Some game)
  /\ (forall game, In game (Session.games next) ->
        Summary.total (computeGamePoints game (Session.players next)) = Int 0)
  /\ sessionBalance (Some next) = Int 0.
Proof.
  intros Hoff next.
  assert (H0 : sessionEdited (createSession trim sessionId gameId now index names)).
  { split.
    - split; [|simpl; lia]. simpl. repeat constructor. intros [].
    - intros game [<-|[]]. apply edited_createGame. }
  destruct (sessionEdited_applyScreenEdits _ edits H0 Hoff) as [[HV Hall] P].
  fold next in HV, Hall, P.
  assert (H4 : four_players (Session.players next) = true).
  { rewrite P. cbn [createSession Session.players].
    unfold createPlayers, mapi. reflexivity. }
  assert (Hv : forall game, In game (Session.games next) ->
                 valid_round (Session.players next) game = true).
  { intros game Hin. apply (Hall game Hin). }
  split; [now apply cursorValid_current|].
  split.
  - intros game Hin. apply valid_round_total; auto.
  - destruct (Bal_sessionTotals next H4 Hv) as (_ & Hints & Hsum).
    cbn [points] in *.
    unfold sessionBalance. rewrite sum_values_int by assumption. now rewrite Hsum.
Qed.

Lemma screen_keeps_balance_witness :
  let next :=
    applyScreenEdits (createSession (fun name => name) "s1" "g1" 0 1 None)
      [ OnCurrent (DropPlacement PlacementKey.first "p1");
        OnCurrent (DropChay "c1" "p2");
        OnCurrent (AddTransfer "t1");
        OnRounds (NextButton "g2");
        OnCurrent (ToggleU true);
        OnCurrent (SelectWinner "p3");
        OnRounds GoPrev;
        OnRounds (RemoveGame "g2") ] in
  (exists game, currentGame next = Some game)
  /\ (forall game, In game (Session.games next) ->
        Summary.total (computeGamePoints game (Session.players next)) = Int 0)
  /\ sessionBalance (Some next) = Int 0.
Proof.
  apply (screen_keeps_balance (fun name => name) "s1" "g1" 0 1 None).
  simpl. repeat split; try (eexists; split; reflexivity);
    try (intuition discriminate).
Defined.

(** ** Opening and closing the name editor *)

Lemma unedited_names trim (before players : list Player.t) :
  (forall player, In player players -> trim (Player.name player) = Player.name player) ->
  mapi_from (fun player index =>
               {| Player.id := Player.id player;
                  Player.name :=
                    trimmedOr trim (Some (map Player.name (before ++ players)))
                      index (Player.name player) |})
            players (length before)
  = players.
Proof.
  revert before. induction players as [|p r IH]; intros before H; cbn [mapi_from]; auto.
  f_equal.
  - unfold trimmedOr. rewrite nth_error_map, nth_error_app2, Nat.sub_diag by lia.
    cbn [nth_error option_map]. rewrite (H p) by now left.
    destruct p as [id name]. cbn [Player.id Player.name].
    now destruct (truthy name).
  - replace (before ++ p :: r) with ((before ++ [p]) ++ r)
      by now rewrite <- app_assoc.
    replace (S (length before)) with (length (before ++ [p]))
      by (rewrite length_app; simpl; lia).
    apply IH. intros q Hq. apply H. now right.
Qed.

(** Opening the name editor and saving at once changes nothing, when the
    names have nothing left to trim. *)
Theorem saveEditSession_unedited trim session :
  (forall player, In player (Session.players session) ->
     trim (Player.name player) = Player.name player) ->
  saveEditSession trim (startEditSession session) session = session.
Proof.
  intros H. unfold saveEditSession, startEditSession, mapi.
  pose proof (unedited_names trim [] (Session.players session) H) as E.
  change ([] ++ Session.players session) with (Session.players session) in E.
  change (length (@nil Player.t)) with 0%nat in E. cbn [Session.players]. rewrite E.
  now destruct session.
Qed.

Lemma saveEditSession_unedited_witness :
  saveEditSession (fun name => name) (startEditSession editedSession) editedSession
  = editedSession.
Proof.
  apply (saveEditSession_unedited (fun name => name) editedSession).
  reflexivity.
Defined.

(** ** The list of sessions *)

Lemma find_last_fresh (sessions : list Session.t) (session : Session.t) id :
  find (fun s => Session.id s =? id) (sessions ++ [session])
  = match find (fun s => Session.id s =? id) sessions with
    | Some found => Some found
    | None => if Session.id session =? id then Some session else None
    end.
Proof.
  induction sessions as [|s r IH]; simpl.
  - reflexivity.
  - now destruct (Session.id s =? id).
Qed.

Lemma find_fresh (sessions : list Session.t) id :
  ~ In id (map Session.id sessions) ->
  find (fun s => Session.id s =? id) sessions = None.
Proof.
  intros H. destruct (find _ sessions) as [s|] eqn:E; auto.
  apply find_some in E as [Hin Hid]. apply String.eqb_eq in Hid.
  exfalso. apply H. rewrite <- Hid. now apply in_map.
Qed.

(** An update of one session reaches the active session exactly when it
    is addressed to it: the active session afterwards is the updated
    one, and under any other id the same session is found as before. *)
Theorem updateSession_active sessions id updater activeId :
  (forall session, Session.id (updater session) = Session.id session) ->
  activeSession (updateSession sessions id updater) (Some activeId)
  = if activeId =? id
    then option_map updater (activeSession sessions (Some activeId))
    else activeSession sessions (Some activeId).
Proof.
  intros H. unfold activeSession, updateSession.
  induction sessions as [|s r IH]; cbn [map find].
  - now destruct (activeId =? id).
  - destruct (String.eqb_spec (Session.id s) id) as [E|N].
    + rewrite H.
      destruct (String.eqb_spec (Session.id s) activeId) as [E2|N2]; [|exact IH].
      replace (activeId =? id) with true; [reflexivity|].
      symmetry. apply String.eqb_eq. congruence.
    + destruct (String.eqb_spec (Session.id s) activeId) as [E2|N2]; [|exact IH].
      replace (activeId =? id) with false; [reflexivity|].
      symmetry. apply String.eqb_neq. congruence.
Qed.

Lemma updateSession_active_witness :
  activeSession (updateSession [sampleSession; editedSession] "s2" (addGame "g3"))
    (Some "s2")
  = if "s2" =? "s2"
    then option_map (addGame "g3")
           (activeSession [sampleSession; editedSession] (Some "s2"))
    else activeSession [sampleSession; editedSession] (Some "s2").
Proof.
  apply (updateSession_active [sampleSession; editedSession] "s2" (addGame "g3") "s2").
  reflexivity.
Defined.

(** A new session whose id is new becomes the active one, with one blank
    round under the cursor, and every session there was is still found
    under its id. *)
Theorem createNewSession_active trim sessionId gameId now names sessions :
  ~ In sessionId (map Session.id sessions) ->
  let result := createNewSession trim sessionId gameId now names sessions in
  activeSession (fst result) (snd result)
  = Some (createSession trim sessionId gameId now (length sessions + 1) (Some names))
  /\ option_map currentGame (activeSession (fst result) (snd result))
     = Some (Some (createGame gameId))
  /\ (forall id, id <> sessionId ->
        activeSession (fst result) (Some id) = activeSession sessions (Some id)).
Proof.
  intros Hnew result. subst result. unfold createNewSession. cbv zeta.
  cbn [fst snd activeSession].
  assert (E : find (fun s => Session.id s =? sessionId)
                (sessions ++
                 [createSession trim sessionId gameId now (length sessions + 1)
                    (Some names)])
              = Some (createSession trim sessionId gameId now (length sessions + 1)
                        (Some names))).
  { rewrite find_last_fresh, find_fresh by assumption.
    cbn [createSession Session.id]. now rewrite String.eqb_refl. }
  cbn [createSession Session.id] in *.
  split; [exact E|]. split.
  - rewrite E. reflexivity.
  - intros id Hne. rewrite find_last_fresh.
    destruct (find _ sessions); auto.
    cbn [createSession Session.id].
    now replace (sessionId =? id) with false
      by (symmetry; apply String.eqb_neq; congruence).
Qed.

Lemma createNewSession_active_witness :
  let result :=
    createNewSession (fun name => name) "s3" "g1" 0 ["An"; "Binh"; ""; ""]
      [sampleSession; editedSession] in
  activeSession (fst result) (snd result)
  = Some (createSession (fun name => name) "s3" "g1" 0
            (length [sampleSession; editedSession] + 1)
            (Some ["An"; "Binh"; ""; ""]))
  /\ option_map currentGame (activeSession (fst result) (snd result))
     = Some (Some (createGame "g1"))
  /\ (forall id, id <> "s3" ->
        activeSession (fst result) (Some id)
        = activeSession [sampleSession; editedSession] (Some id)).
Proof.
  apply (createNewSession_active (fun name => name) "s3" "g1" 0
           ["An"; "Binh"; ""; ""] [sampleSession; editedSession]).
  simpl. intuition discriminate.
Defined.

(** ** Doubles: exact below [2^53] *)

Lemma pow53_lt_pow1024 : (2 ^ 53 < 2 ^ 1024)%Z.
Proof. apply Z.pow_lt_mono_r; lia. Qed.

Lemma ofZ_small z : (Z.abs z < 2 ^ 53)%Z -> Double.ofZ z = Double.Fin z.
Proof.
  intros H. unfold Double.ofZ, Double.round53. cbv zeta.
  destruct (Z.ltb_spec (Z.abs z) (2 ^ 53)) as [_|H']; [|lia].
  pose proof pow53_lt_pow1024.
  destruct (Z.leb_spec (2 ^ 1024) (Z.abs z)); [lia|reflexivity].
Qed.

Lemma add_small x y :
  (Z.abs (x + y) < 2 ^ 53)%Z ->
  Double.add (Double.Fin x) (Double.Fin y) = Double.Fin (x + y).
Proof. intros H. cbn [Double.add]. now apply ofZ_small. Qed.

Lemma sub_small x y :
  (Z.abs (x - y) < 2 ^ 53)%Z ->
  Double.sub (Double.Fin x) (Double.Fin y) = Double.Fin (x - y).
Proof.
  intros H. unfold Double.sub. cbn [Double.neg Double.add].
  replace (x + - y)%Z with (x - y)%Z by lia. now apply ofZ_small.
Qed.

(** ** Embedded tables *)

Lemma get_emb k o :
  JsObj.get k (emb o) = option_map (fun v => Js.Num (inj v)) (JsObj.get k o).
Proof.
  induction o as [|[k' v] r IH]; simpl; auto.
  destruct (k =? k'); auto.
Qed.

Lemma set_emb k v o :
  JsObj.set k (Js.Num (inj v)) (emb o) = emb (JsObj.set k v o).
Proof.
  induction o as [|[k' v'] r IH]; simpl; auto.
  destruct (k =? k'); simpl; auto. now rewrite IH.
Qed.

Lemma keys_emb o : map fst (emb o) = map fst o.
Proof. unfold emb. rewrite map_map. apply map_ext. now intros [k v]. Qed.

Lemma Js_get_emb k o v :
  JsObj.get k o = Some v -> Js.get k (emb o) = Js.Num (inj v).
Proof. intros H. unfold Js.get. now rewrite get_emb, H. Qed.

Lemma Js_set_emb k v w o :
  JsObj.get k o = Some w ->
  Js.set k (Js.Num (inj v)) (emb o) = emb (JsObj.set k v o).
Proof. intros H. unfold Js.set. rewrite get_emb, H. cbn [option_map]. apply set_emb. Qed.

Lemma fromEntries_emb_from (es : list (string * num)) :
  forall acc,
    fold_left (fun o e => JsObj.set (fst e) (snd e) o)
      (map (fun e => (fst e, Js.Num (inj (snd e)))) es) (emb acc)
    = emb (fold_left (fun o e => JsObj.set (fst e) (snd e) o) es acc).
Proof.
  induction es as [|[k v] r IH]; intros acc; cbn [map fold_left fst snd]; auto.
  now rewrite set_emb, IH.
Qed.

Lemma fromEntries_emb (es : list (string * num)) :
  JsObj.fromEntries (map (fun e => (fst e, Js.Num (inj (snd e)))) es)
  = emb (JsObj.fromEntries es).
Proof. unfold JsObj.fromEntries. apply (fromEntries_emb_from es []). Qed.

Lemma initial_emb players : Js.initial players = embSt (initial players).
Proof.
  unfold Js.initial, initial, embSt. cbn [points warnings]. f_equal.
  rewrite <- fromEntries_emb. now rewrite map_map.
Qed.

Lemma insert_index_emb (n : N) (kv : string * num) l :
  JsObj.insert_index (n, (fst kv, Js.Num (inj (snd kv))))
    (map (fun e => (fst e, (fst (snd e), Js.Num (inj (snd (snd e)))))) l)
  = map (fun e => (fst e, (fst (snd e), Js.Num (inj (snd (snd e))))))
      (JsObj.insert_index (n, kv) l).
Proof.
  induction l as [|h r IH]; cbn [JsObj.insert_index map fst snd]; auto.
  destruct (n <=? fst h)%N; cbn [map fst snd]; auto. now rewrite IH.
Qed.

Lemma indexed_emb o :
  JsObj.indexed (emb o)
  = map (fun e => (fst e, (fst (snd e), Js.Num (inj (snd (snd e))))))
      (JsObj.indexed o).
Proof.
  induction o as [|kv r IH]; cbn [emb map JsObj.indexed fst snd]; auto.
  destruct (JsObj.array_index (fst kv)); auto.
  fold (emb r). rewrite IH. apply insert_index_emb.
Qed.

Lemma entries_emb o : JsObj.entries (emb o) = emb (JsObj.entries o).
Proof.
  unfold JsObj.entries. rewrite indexed_emb.
  change (emb (map snd (JsObj.indexed o)
               ++ filter (fun kv => negb (JsObj.is_index (fst kv))) o))
    with (map (fun kv => (fst kv, Js.Num (inj (snd kv))))
            (map snd (JsObj.indexed o)
             ++ filter (fun kv => negb (JsObj.is_index (fst kv))) o)).
  rewrite map_app, !map_map. f_equal.
  induction o as [|kv r IH]; cbn [emb map filter fst snd]; auto.
  destruct (negb (JsObj.is_index (fst kv))); cbn [map]; now rewrite <- IH.
Qed.

Lemma values_emb o :
  JsObj.values (emb o) = map (fun v => Js.Num (inj v)) (JsObj.values o).
Proof.
  unfold JsObj.values. rewrite entries_emb. unfold emb. rewrite !map_map.
  reflexivity.
Qed.

(** ** Commands of the two readings, step by step *)

Lemma Good_weaken K b b' st : (b <= b')%Z -> Good K b st -> Good K b' st.
Proof.
  intros Hle [HK Hb]. split; auto.
  intros k v Hg. destruct (Hb k v Hg) as (z & -> & Hz). exists z. split; auto. lia.
Qed.

Lemma Good_get K b st k :
  Good K b st -> In k K ->
  exists z, JsObj.get k (points st) = Some (Int z) /\ (Z.abs z <= b)%Z.
Proof.
  intros [HK Hb] Hk. rewrite <- HK in Hk.
  destruct (JsObjFacts.get_In k (points st) Hk) as [v Hv].
  destruct (Hb k v Hv) as (z & -> & Hz). eauto.
Qed.

Lemma Good_assign K b st k z :
  Good K b st -> In k K -> (Z.abs z <= b)%Z -> Good K b (assign k (Int z) st).
Proof.
  intros [HK Hb] Hk Hz. unfold assign. split; cbn [points].
  - rewrite JsObjFacts.keys_set_In; auto. now rewrite HK.
  - intros k' v. rewrite JsObjFacts.get_set.
    destruct (k' =? k); [intros [= <-]; eauto|apply Hb].
Qed.

Lemma Refines_weaken K c c' cost cost' :
  (cost <= cost')%Z -> Refines K cost c c' -> Refines K cost' c c'.
Proof.
  intros Hle [H0 H]. split; [lia|].
  intros st b Hb HG Hlt. destruct (H st b Hb HG) as [E G]; [lia|].
  split; auto. eapply Good_weaken; [|exact G]. lia.
Qed.

Lemma Refines_skip K : Refines K 0 skip Js.skip.
Proof.
  split; [lia|]. intros st b _ HG _. split; [reflexivity|].
  now rewrite Z.add_0_r.
Qed.

Lemma Refines_seq K c1 c2 a a' b b' :
  Refines K c1 a a' -> Refines K c2 b b' ->
  Refines K (c1 + c2) (a ;; b) (Js.seq a' b').
Proof.
  intros [H1 Ha] [H2 Hb]. split; [lia|].
  intros st b0 Hb0 HG Hlt. unfold seq, Js.seq.
  destruct (Ha st b0 Hb0 HG) as [Ea Ga]; [lia|].
  destruct (Hb (a st) (b0 + c1)%Z) as [Eb Gb]; auto; try lia.
  rewrite Ea, Eb. split; auto. now rewrite Z.add_assoc.
Qed.

Lemma Refines_when K cost cond body body' :
  (0 <= cost)%Z ->
  (cond = true -> Refines K cost body body') ->
  Refines K cost (when cond body) (Js.when cond body').
Proof.
  intros H0 H. destruct cond; cbn [when Js.when]; auto.
  apply (Refines_weaken K skip Js.skip 0); [exact H0|apply Refines_skip].
Qed.

Lemma sumCost_nonneg {A : Type} (f : A -> Z) l :
  (forall x, In x l -> 0 <= f x)%Z -> (0 <= sumCost f l)%Z.
Proof.
  induction l as [|x r IH]; intros H; simpl; [lia|].
  pose proof (H x (or_introl eq_refl)).
  assert (0 <= sumCost f r)%Z by (apply IH; intros y Hy; apply H; now right).
  lia.
Qed.

Lemma Refines_forEach {A : Type} K (f : A -> Z) l body body' :
  (forall x, In x l -> Refines K (f x) (body x) (body' x)) ->
  Refines K (sumCost f l) (forEach l body) (Js.forEach l body').
Proof.
  induction l as [|x r IH]; intros H.
  - apply Refines_skip.
  - change (forEach (x :: r) body) with (body x ;; forEach r body).
    change (Js.forEach (x :: r) body') with (Js.seq (body' x) (Js.forEach r body')).
    cbn [sumCost fold_right]. apply Refines_seq.
    + apply H. now left.
    + apply IH. intros y Hy. apply H. now right.
Qed.

Lemma Refines_push K w : Refines K 0 (push w) (Js.push w).
Proof.
  split; [lia|]. intros st b _ HG _. split; [reflexivity|].
  rewrite Z.add_0_r. exact HG.
Qed.

Lemma Refines_assign K k z :
  In k K -> Refines K (Z.abs z) (assign k (Int z)) (Js.assign k (Js.Num (Double.Fin z))).
Proof.
  intros Hk. split; [lia|]. intros st b Hb HG Hlt.
  destruct (Good_get K b st k HG Hk) as (z0 & Hg & _). split.
  - unfold Js.assign, assign, embSt. cbn [Js.points Js.warnings points warnings].
    f_equal. apply (Js_set_emb k (Int z) (Int z0)); auto.
  - apply Good_assign; auto; [|lia]. eapply Good_weaken; [|exact HG]. lia.
Qed.

Lemma Refines_sub_assign K k n :
  In k K -> Refines K (Z.abs n) (sub_assign k n) (Js.sub_assign k n).
Proof.
  intros Hk. split; [lia|]. intros st b Hb HG Hlt.
  destruct (Good_get K b st k HG Hk) as (z0 & Hg & Hz0).
  unfold sub_assign, Js.sub_assign. rewrite Hg. cbn [to_num nsub].
  split.
  - unfold Js.assign, assign, embSt. cbn [Js.points Js.warnings points warnings].
    f_equal. rewrite (Js_get_emb k _ (Int z0)) by assumption.
    unfold Js.minus. cbn [Js.ToNumber inj].
    rewrite ofZ_small by lia. rewrite sub_small by lia.
    apply (Js_set_emb k (Int (z0 - n)) (Int z0)); auto.
  - apply Good_assign; auto; [|lia]. eapply Good_weaken; [|exact HG]. lia.
Qed.

Lemma Refines_add_assign K k n :
  In k K -> Refines K (Z.abs n) (add_assign k n) (Js.add_assign k n).
Proof.
  intros Hk. split; [lia|]. intros st b Hb HG Hlt.
  destruct (Good_get K b st k HG Hk) as (z0 & Hg & Hz0).
  unfold add_assign, Js.add_assign. rewrite Hg. cbn [to_num nadd].
  split.
  - unfold Js.assign, assign, embSt. cbn [Js.points Js.warnings points warnings].
    f_equal. rewrite (Js_get_emb k _ (Int z0)) by assumption.
    unfold Js.plus. cbn [Js.ToNumber inj].
    rewrite ofZ_small by lia. rewrite add_small by lia.
    apply (Js_set_emb k (Int (z0 + n)) (Int z0)); auto.
  - apply Good_assign; auto; [|lia]. eapply Good_weaken; [|exact HG]. lia.
Qed.

Lemma Refines_move K a b n :
  In a K -> In b K ->
  Refines K (2 * Z.abs n) (sub_assign a n ;; add_assign b n)
    (Js.seq (Js.sub_assign a n) (Js.add_assign b n)).
Proof.
  intros Ha Hb. replace (2 * Z.abs n)%Z with (Z.abs n + Z.abs n)%Z by lia.
  apply Refines_seq; [now apply Refines_sub_assign|now apply Refines_add_assign].
Qed.

(** ** The engine of the two readings on a valid round *)

Lemma sumCost_const {A : Type} (c : Z) (l : list A) :
  sumCost (fun _ => c) l = (c * Z.of_nat (length l))%Z.
Proof.
  induction l as [|x r IH]; cbn [sumCost fold_right length]; [lia|].
  fold (sumCost (fun _ : A => c) r). rewrite IH. lia.
Qed.

Lemma sumCost_sumAbs entries :
  sumCost (fun entry => 2 * Z.abs (Transfer.points entry))%Z entries
  = (2 * sumAbs entries)%Z.
Proof.
  induction entries as [|x r IH]; cbn [sumCost sumAbs fold_right]; [lia|].
  fold (sumCost (fun entry => 2 * Z.abs (Transfer.points entry))%Z r).
  fold (sumAbs r). lia.
Qed.

Lemma sumAbs_nonneg entries : (0 <= sumAbs entries)%Z.
Proof.
  induction entries as [|x r IH]; cbn [sumAbs fold_right]; [lia|].
  fold (sumAbs r). lia.
Qed.

Lemma Refines_applyTransfer players transfer :
  valid_transfer players transfer = true ->
  Refines (ids players) (2 * Z.abs (Transfer.points transfer))
    (applyTransfer transfer) (Js.applyTransfer transfer).
Proof.
  intros Hv. unfold applyTransfer, Js.applyTransfer.
  apply andb_true_iff in Hv as [Hf Ht].
  destruct (truthy (Transfer.from transfer)) eqn:Tf; cbn [negb orb].
  2:{ eapply Refines_weaken; [|apply Refines_push]. lia. }
  destruct (truthy (Transfer.to transfer)) eqn:Tt; cbn [negb orb].
  2:{ eapply Refines_weaken; [|apply Refines_push]. lia. }
  destruct (Transfer.from transfer =? Transfer.to transfer).
  { eapply Refines_weaken; [|apply Refines_push]. lia. }
  apply Refines_move; now apply valid_id_In.
Qed.

Lemma Refines_transfers players entries :
  forallb (valid_transfer players) entries = true ->
  Refines (ids players) (2 * sumAbs entries)
    (forEach entries applyTransfer) (Js.forEach entries Js.applyTransfer).
Proof.
  intros Hv. rewrite <- sumCost_sumAbs. apply Refines_forEach.
  intros x Hx. apply Refines_applyTransfer.
  rewrite forallb_forall in Hv. auto.
Qed.

Lemma Refines_scoreU game players :
  Refines (ids players) (15 * Z.of_nat (length players))
    (scoreU game players) (Js.scoreU game players).
Proof.
  unfold scoreU, Js.scoreU. cbv zeta.
  destruct (negb (truthy (Placements.first (Game.placements game)))).
  { eapply Refines_weaken; [|apply Refines_push]. lia. }
  rewrite <- sumCost_const. apply Refines_forEach.
  intros p Hp. assert (Hk : In (Player.id p) (ids players)) by now apply in_map.
  destruct (Player.id p =? Placements.first (Game.placements game)).
  - eapply Refines_weaken; [|apply Refines_assign; exact Hk]. lia.
  - eapply Refines_weaken; [|apply Refines_assign; exact Hk]. lia.
Qed.

Lemma Refines_scoreChay game players :
  valid_round players game = true ->
  Refines (ids players) (8 * Z.of_nat (length (chaySetOf game)) + 6)
    (scoreChay game players) (Js.scoreChay game players).
Proof.
  intros Hv. pose proof Hv as Hv'. apply valid_round_iff in Hv' as (Hs & Hc & _).
  assert (Hpick : forall k, In k (picksOf game) -> truthy k = true ->
                            In k (ids players))
    by (intros k Hk Tk; eapply valid_round_picks; eauto).
  unfold scoreChay, Js.scoreChay. cbv zeta.
  destruct (truthy (Placements.first (Game.placements game))) eqn:Tw; cbn [negb].
  2:{ eapply Refines_weaken; [|apply Refines_push]. lia. }
  destruct (Set_has (Placements.first (Game.placements game)) (chaySetOf game)).
  { eapply Refines_weaken; [|apply Refines_push]. lia. }
  assert (Hw : In (Placements.first (Game.placements game)) (ids players))
    by (apply Hpick; simpl; auto).
  apply (Refines_weaken _ _ _
           (sumCost (fun _ => 8%Z) (chaySetOf game) + (2 + (4 + (0 + 0))))%Z).
  { rewrite sumCost_const. lia. }
  apply Refines_seq.
  { apply Refines_forEach. intros x Hx.
    destruct (x =? Placements.first (Game.placements game)).
    - eapply Refines_weaken; [|apply Refines_skip]. lia.
    - apply (Refines_move (ids players) x _ 4); auto.
      eapply chaySet_valid; eauto. }
  apply Refines_seq.
  { apply Refines_when; [lia|]. intros Hcond.
    apply andb_true_iff in Hcond as [Hcond _].
    apply andb_true_iff in Hcond as [T2 _].
    apply (Refines_move (ids players) _ _ 1); auto. apply Hpick; simpl; auto. }
  apply Refines_seq.
  { apply Refines_when; [lia|]. intros Hcond.
    apply andb_true_iff in Hcond as [Hcond _].
    apply andb_true_iff in Hcond as [Hcond _].
    apply andb_true_iff in Hcond as [T3 _].
    apply (Refines_move (ids players) _ _ 2); auto. apply Hpick; simpl; auto. }
  apply Refines_seq; (apply Refines_when; [lia|]; intros _; apply Refines_push).
Qed.

Lemma Refines_scoreRanking game players :
  valid_round players game = true ->
  Refines (ids players) 12 (scoreRanking game) (Js.scoreRanking game).
Proof.
  intros Hv.
  assert (Hpick : forall k, In k (picksOf game) -> truthy k = true ->
                            In k (ids players))
    by (intros k Hk Tk; eapply valid_round_picks; eauto).
  unfold scoreRanking, Js.scoreRanking. cbv zeta.
  fold (picksOf game).
  destruct (Nat.eqb_spec (length (new_Set (filter truthy (picksOf game)))) 4)
    as [E|_]; cbn [negb].
  2:{ eapply Refines_weaken; [|apply Refines_push]. lia. }
  change 4%nat with (length (picksOf game)) in E.
  apply unique_size in E as [Ht _]. rewrite forallb_forall in Ht.
  assert (Hin : forall k, In k (picksOf game) -> In k (ids players))
    by (intros k Hk; apply Hpick; auto).
  apply (Refines_weaken _ _ _ (Z.abs 6 + (Z.abs 1 + (Z.abs 2 + Z.abs 3)))%Z); [lia|].
  apply Refines_seq; [apply Refines_add_assign; apply Hin; simpl; auto|].
  apply Refines_seq; [apply Refines_sub_assign; apply Hin; simpl; auto|].
  apply Refines_seq; apply Refines_sub_assign; apply Hin; simpl; auto.
Qed.

Lemma chaySet_small game players :
  four_players players = true ->
  valid_round players game = true ->
  (length (chaySetOf game) <= 4)%nat.
Proof.
  intros H4 Hv. apply andb_true_iff in H4 as [Hl Hd].
  apply Nat.eqb_eq in Hl. apply valid_round_iff in Hv as (_ & Hc & _).
  replace 4%nat with (length (ids players)) by (unfold ids; now rewrite length_map).
  apply NoDup_incl_length.
  - apply NoDup_new_Set.
  - intros x Hx. eapply chaySet_valid; eauto.
Qed.

Lemma Refines_scoreMode game players :
  four_players players = true ->
  valid_round players game = true ->
  Refines (ids players) 60 (scoreMode game players) (Js.scoreMode game players).
Proof.
  intros H4 Hv. unfold scoreMode, Js.scoreMode. cbv zeta.
  pose proof (chaySet_small game players H4 Hv) as Hsmall.
  apply andb_true_iff in H4 as [Hl _]. apply Nat.eqb_eq in Hl.
  destruct (Game.u game).
  - eapply Refines_weaken; [|apply Refines_scoreU]. rewrite Hl. lia.
  - destruct (0 <? length (chaySetOf game))%nat.
    + eapply Refines_weaken; [|now apply Refines_scoreChay]. lia.
    + eapply Refines_weaken; [|now apply Refines_scoreRanking]. lia.
Qed.

Lemma Refines_round game players :
  four_players players = true ->
  valid_round players game = true ->
  Refines (ids players) (60 + 2 * sumAbs (Game.anChot game))
    (scoreMode game players ;; forEach (Game.anChot game) applyTransfer)
    (Js.seq (Js.scoreMode game players)
            (Js.forEach (Game.anChot game) Js.applyTransfer)).
Proof.
  intros H4 Hv. apply Refines_seq; [now apply Refines_scoreMode|].
  apply Refines_transfers. now apply valid_round_iff in Hv as (_ & _ & Ha).
Qed.

Lemma Good_initial players :
  four_players players = true -> Good (ids players) 0 (initial players).
Proof.
  intros H4. apply andb_true_iff in H4 as [_ Hd]. split.
  - rewrite (initial_distinct players Hd). now rewrite map_map.
  - intros k v Hg. apply get_Some_In_entry, initial_zero in Hg.
    cbn [snd] in Hg. subst v. exists 0%Z. split; [reflexivity|lia].
Qed.

Lemma pow53 : (2 ^ 53 = 9007199254740992)%Z.
Proof. reflexivity. Qed.

Lemma pow49 : (2 ^ 49 = 562949953421312)%Z.
Proof. reflexivity. Qed.

(** The state the two readings reach before the total is taken. *)
Lemma round_states_agree game players :
  four_players players = true ->
  valid_round players game = true ->
  safeAmounts game = true ->
  Js.seq (Js.scoreMode game players)
         (Js.forEach (Game.anChot game) Js.applyTransfer) (Js.initial players)
  = embSt ((scoreMode game players ;; forEach (Game.anChot game) applyTransfer)
             (initial players))
  /\ Good (ids players) (60 + 2 * sumAbs (Game.anChot game))
       ((scoreMode game players ;; forEach (Game.anChot game) applyTransfer)
          (initial players)).
Proof.
  intros H4 Hv Hs. unfold safeAmounts in Hs. apply Z.leb_le in Hs.
  destruct (Refines_round game players H4 Hv) as [_ H].
  rewrite initial_emb.
  apply (H (initial players) 0%Z); [lia|now apply Good_initial|].
  rewrite pow53. rewrite pow49 in Hs. lia.
Qed.

Lemma fold_plus_emb b l :
  (0 <= b)%Z ->
  Forall (fun v => exists z, v = Int z /\ (Z.abs z <= b)%Z) l ->
  forall acc,
    (Z.abs acc + Z.of_nat (length l) * b < 2 ^ 53)%Z ->
    fold_left Js.plus (map (fun v => Js.Num (inj v)) l) (Js.Num (Double.Fin acc))
    = Js.Num (inj (fold_left nadd l (Int acc))).
Proof.
  intros Hb Hall. induction Hall as [|v r (z & -> & Hz) Hr IH]; intros acc Hlt.
  - reflexivity.
  - cbn [map fold_left length inj nadd] in *.
    rewrite Nat2Z.inj_succ, Z.mul_succ_l in Hlt.
    cbn [Js.plus Js.ToNumber]. rewrite add_small by lia.
    apply IH. lia.
Qed.

Lemma sum_values_emb o b :
  (0 <= b)%Z ->
  NoDup (map fst o) ->
  (forall k v, JsObj.get k o = Some v -> exists z, v = Int z /\ (Z.abs z <= b)%Z) ->
  (Z.of_nat (length o) * b < 2 ^ 53)%Z ->
  Js.sum_values (emb o) = Js.Num (inj (sum_values o)).
Proof.
  intros Hb Hnd Hall Hlt. unfold Js.sum_values, sum_values.
  rewrite values_emb. apply (fold_plus_emb b); auto.
  - apply Forall_forall. intros v Hv.
    eapply Permutation_in in Hv; [|apply JsObjFacts.values_perm].
    apply in_map_iff in Hv as ([k v'] & <- & Hin). cbn [snd].
    apply (Hall k). now apply get_of_entry.
  - rewrite (Permutation_length (JsObjFacts.values_perm o)), length_map.
    cbn [Z.abs]. lia.
Qed.

(** On a round of four players with valid slots and endpoints and safe
    amounts, the engine run with doubles and property lookup gives what
    the engine of the data model gives. *)
Lemma rounds_agree game players :
  four_players players = true ->
  valid_round players game = true ->
  safeAmounts game = true ->
  Js.computeGamePoints game players = embSummary (computeGamePoints game players).
Proof.
  intros H4 Hv Hs.
  destruct (round_states_agree game players H4 Hv Hs) as [E [HK Hb]].
  unfold Js.computeGamePoints, computeGamePoints, embSummary. cbv zeta.
  cbn [Summary.points Summary.total Summary.warnings].
  rewrite E. cbn [embSt Js.points Js.warnings]. f_equal.
  apply (sum_values_emb _ (60 + 2 * sumAbs (Game.anChot game))).
  - pose proof (sumAbs_nonneg (Game.anChot game)). lia.
  - rewrite HK. apply andb_true_iff in H4 as [_ Hd]. now apply distinct_NoDup.
  - exact Hb.
  - replace (length _) with (length (ids players))
      by (now rewrite <- HK, length_map).
    apply andb_true_iff in H4 as [Hl _]. apply Nat.eqb_eq in Hl.
    unfold ids. rewrite length_map, Hl.
    unfold safeAmounts in Hs. apply Z.leb_le in Hs.
    rewrite pow53. rewrite pow49 in Hs. lia.
Qed.

(** ** What holds of the engine on every input *)

Lemma Rel2_skip R : Rel2 R skip Js.skip.
Proof. intros st js H. exact H. Qed.

Lemma Rel2_seq R a a' b b' :
  Rel2 R a a' -> Rel2 R b b' -> Rel2 R (a ;; b) (Js.seq a' b').
Proof. intros Ha Hb st js H. apply Hb, Ha, H. Qed.

Lemma Rel2_when R cond body body' :
  (cond = true -> Rel2 R body body') ->
  Rel2 R (when cond body) (Js.when cond body').
Proof. intros H. destruct cond; [now apply H|apply Rel2_skip]. Qed.

Lemma Rel2_forEach {A : Type} R (l : list A) body body' :
  (forall x, In x l -> Rel2 R (body x) (body' x)) ->
  Rel2 R (forEach l body) (Js.forEach l body').
Proof.
  induction l as [|x r IH]; intros H.
  - apply Rel2_skip.
  - change (forEach (x :: r) body) with (body x ;; forEach r body).
    change (Js.forEach (x :: r) body') with (Js.seq (body' x) (Js.forEach r body')).
    apply Rel2_seq; [apply H; now left|apply IH; intros y Hy; apply H; now right].
Qed.

Section Engine.

Variable R : St -> Js.St -> Prop.
Variable okAdd : string -> Prop.

Hypothesis Hpush : forall w, Rel2 R (push w) (Js.push w).
Hypothesis Hassign :
  forall k z, Rel2 R (assign k (Int z)) (Js.assign k (Js.Num (Double.Fin z))).
Hypothesis Hsub : forall k n, Rel2 R (sub_assign k n) (Js.sub_assign k n).
Hypothesis Hadd : forall k n, okAdd k -> Rel2 R (add_assign k n) (Js.add_assign k n).

Lemma Rel2_applyTransfer transfer :
  okAdd (Transfer.to transfer) ->
  Rel2 R (applyTransfer transfer) (Js.applyTransfer transfer).
Proof.
  intros Hok. unfold applyTransfer, Js.applyTransfer.
  destruct (_ || _ || _); [apply Hpush|].
  apply Rel2_seq; [apply Hsub|now apply Hadd].
Qed.

Lemma Rel2_scoreU game players :
  Rel2 R (scoreU game players) (Js.scoreU game players).
Proof.
  unfold scoreU, Js.scoreU. cbv zeta.
  destruct (negb _); [apply Hpush|].
  apply Rel2_forEach. intros p _.
  destruct (Player.id p =? _); apply Hassign.
Qed.

Lemma Rel2_scoreChay game players :
  okAdd (Placements.first (Game.placements game)) ->
  Rel2 R (scoreChay game players) (Js.scoreChay game players).
Proof.
  intros Hok. unfold scoreChay, Js.scoreChay. cbv zeta.
  destruct (negb _); [apply Hpush|].
  destruct (Set_has _ _); [apply Hpush|].
  apply Rel2_seq.
  { apply Rel2_forEach. intros x _. destruct (x =? _); [apply Rel2_skip|].
    apply Rel2_seq; [apply Hsub|now apply Hadd]. }
  apply Rel2_seq.
  { apply Rel2_when. intros _. apply Rel2_seq; [apply Hsub|now apply Hadd]. }
  apply Rel2_seq.
  { apply Rel2_when. intros _. apply Rel2_seq; [apply Hsub|now apply Hadd]. }
  apply Rel2_seq; apply Rel2_when; intros _; apply Hpush.
Qed.

Lemma Rel2_scoreRanking game :
  okAdd (Placements.first (Game.placements game)) ->
  Rel2 R (scoreRanking game) (Js.scoreRanking game).
Proof.
  intros Hok. unfold scoreRanking, Js.scoreRanking. cbv zeta.
  destruct (negb _); [apply Hpush|].
  apply Rel2_seq; [now apply Hadd|].
  apply Rel2_seq; [apply Hsub|]. apply Rel2_seq; apply Hsub.
Qed.

Lemma Rel2_round game players :
  okAdd (Placements.first (Game.placements game)) ->
  (forall transfer, In transfer (Game.anChot game) -> okAdd (Transfer.to transfer)) ->
  Rel2 R (scoreMode game players ;; forEach (Game.anChot game) applyTransfer)
    (Js.seq (Js.scoreMode game players)
            (Js.forEach (Game.anChot game) Js.applyTransfer)).
Proof.
  intros Hok Hto. apply Rel2_seq.
  - unfold scoreMode, Js.scoreMode. cbv zeta. destruct (Game.u game).
    + apply Rel2_scoreU.
    + destruct (0 <? _)%nat; [now apply Rel2_scoreChay|now apply Rel2_scoreRanking].
  - apply Rel2_forEach. intros x Hx. apply Rel2_applyTransfer. auto.
Qed.

End Engine.

(** The warnings do not depend on the numbers. *)
Lemma Js_warnings game players :
  Js.Summary.warnings (Js.computeGamePoints game players)
  = Summary.warnings (computeGamePoints game players).
Proof.
  unfold Js.computeGamePoints, computeGamePoints. cbv zeta.
  cbn [Js.Summary.warnings Summary.warnings].
  apply (Rel2_round (fun st js => Js.warnings js = warnings st) (fun _ => True));
    auto; try reflexivity.
  - intros w st js H. unfold push, Js.push. cbn [Js.warnings warnings]. now rewrite H.
  - intros k z st js H. exact H.
  - intros k n st js H. exact H.
  - intros k n _ st js H. exact H.
Qed.

Lemma Js_set_keys k k' v (o : Js.obj) :
  In k (map fst o) -> In k (map fst (Js.set k' v o)).
Proof.
  intros H. unfold Js.set.
  destruct (JsObj.get k' o); [apply JsObjFacts.In_keys_set; auto|].
  destruct (k' =? "__proto__"); [assumption|].
  apply JsObjFacts.In_keys_set; auto.
Qed.

Lemma Js_set_allnum k v (o : Js.obj) :
  forallb (fun kv => Js.isNum (snd kv)) o = true ->
  Js.isNum v = true ->
  forallb (fun kv => Js.isNum (snd kv)) (Js.set k v o) = true.
Proof.
  intros Ho Hv.
  assert (G : forallb (fun kv => Js.isNum (snd kv)) (JsObj.set k v o) = true).
  { apply forallb_forall. intros kv Hin. apply In_set_inv in Hin as [->|Hin]; auto.
    rewrite forallb_forall in Ho. auto. }
  unfold Js.set. destruct (JsObj.get k o); auto.
  destruct (k =? "__proto__"); auto.
Qed.

Lemma Owns_assign K k v js : Owns K js -> Owns K (Js.assign k v js).
Proof.
  intros H k' Hk'. unfold Js.assign. cbn [Js.points]. apply Js_set_keys. auto.
Qed.

Lemma AllNum_assign k v js :
  AllNum js -> Js.isNum v = true -> AllNum (Js.assign k v js).
Proof. intros H Hv. unfold AllNum, Js.assign. cbn [Js.points]. now apply Js_set_allnum. Qed.

(** Every player keeps an own entry in the table, on every input. *)
Lemma Js_owns game players p :
  In p (ids players) ->
  exists v, JsObj.get p (Js.Summary.points (Js.computeGamePoints game players)) = Some v.
Proof.
  intros Hp. apply JsObjFacts.get_In.
  unfold Js.computeGamePoints. cbv zeta. cbn [Js.Summary.points].
  apply (Rel2_round (fun _ js => Owns (ids players) js) (fun _ => True))
    with (st := initial players); auto.
  - intros w st js H. exact H.
  - intros k z st js H. now apply Owns_assign.
  - intros k n st js H. now apply Owns_assign.
  - intros k n _ st js H. now apply Owns_assign.
  - intros k Hk. unfold Js.initial. cbn [Js.points].
    apply JsObjFacts.In_keys_fromEntries. now rewrite map_map.
Qed.

Lemma AllNum_get js k :
  AllNum js -> (Js.inherited k = false \/ In k (map fst (Js.points js))) ->
  Js.get k (Js.points js) = Js.Undefined
  \/ exists d, Js.get k (Js.points js) = Js.Num d.
Proof.
  intros Hall Hk. unfold Js.get.
  destruct (JsObj.get k (Js.points js)) as [v|] eqn:E.
  - right. apply get_Some_In_entry in E. unfold AllNum in Hall.
    rewrite forallb_forall in Hall. specialize (Hall _ E). cbn [snd] in Hall.
    destruct v; try discriminate. eauto.
  - destruct Hk as [Hk|Hk].
    + rewrite Hk. now left.
    + destruct (JsObjFacts.get_In k _ Hk) as [v Hv]. congruence.
Qed.

Lemma fold_plus_num l :
  Forall (fun v => Js.isNum v = true) l ->
  forall acc, Js.isNum acc = true -> Js.isNum (fold_left Js.plus l acc) = true.
Proof.
  intros H. induction H as [|v r Hv Hr IH]; intros acc Ha; auto.
  cbn [fold_left]. apply IH. now destruct acc, v.
Qed.

(** When the keys that receive [+=] are plain, every delta and the total
    are numbers. *)
Lemma Js_typed game players :
  plainTargets game players = true ->
  Js.wellTyped (Js.computeGamePoints game players) = true.
Proof.
  intros Hp. unfold plainTargets in Hp. cbn [forallb] in Hp.
  apply andb_true_iff in Hp as [H1 Hto]. rewrite forallb_forall in Hto.
  set (ok := fun k => Js.inherited k = false \/ In k (ids players)).
  assert (Hok : forall k, negb (Js.inherited k) || mem k (ids players) = true -> ok k).
  { intros k H. apply orb_true_iff in H as [H|H].
    - left. now apply negb_true_iff.
    - right. now apply mem_In. }
  assert (T : Owns (ids players)
                (Js.seq (Js.scoreMode game players)
                   (Js.forEach (Game.anChot game) Js.applyTransfer)
                   (Js.initial players))
              /\ AllNum
                   (Js.seq (Js.scoreMode game players)
                      (Js.forEach (Game.anChot game) Js.applyTransfer)
                      (Js.initial players))).
  { apply (Rel2_round (fun _ js => Owns (ids players) js /\ AllNum js) ok)
      with (st := initial players).
    - intros w st js H. exact H.
    - intros k z st js [H1' H2']. split; [now apply Owns_assign|now apply AllNum_assign].
    - intros k n st js [H1' H2']. split; [now apply Owns_assign|now apply AllNum_assign].
    - intros k n Hk st js [H1' H2']. split; [now apply Owns_assign|].
      apply AllNum_assign; auto.
      destruct (AllNum_get js k H2') as [E|[d E]].
      + destruct Hk as [Hk|Hk]; [now left|right; now apply H1'].
      + now rewrite E.
      + now rewrite E.
    - now apply Hok.
    - intros t Ht. apply Hok, Hto. now apply in_map.
    - split.
      + intros k Hk. unfold Js.initial. cbn [Js.points].
        apply JsObjFacts.In_keys_fromEntries. now rewrite map_map.
      + unfold AllNum, Js.initial. cbn [Js.points]. apply forallb_forall.
        intros kv Hin.
        assert (C : forall e,
                     In e (map (fun player =>
                                  (Player.id player, Js.Num (Double.Fin 0))) players) ->
                     snd e = Js.Num (Double.Fin 0)).
        { intros e He. apply in_map_iff in He as (q & <- & _). reflexivity. }
        now rewrite (fromEntries_const _ _ kv C Hin). }
  destruct T as [_ Hall]. unfold Js.wellTyped, Js.computeGamePoints. cbv zeta.
  cbn [Js.Summary.points Js.Summary.total]. unfold AllNum in Hall. rewrite Hall.
  cbn [andb]. unfold Js.sum_values. apply fold_plus_num; auto.
  apply Forall_forall. intros v Hv.
  eapply Permutation_in in Hv; [|apply JsObjFacts.values_perm].
  apply in_map_iff in Hv as (kv & <- & Hin).
  rewrite forallb_forall in Hall. auto.
Qed.

(** ** The aggregator of the two readings on a session of valid rounds *)

Lemma sessionWeight_nonneg games : (0 <= sessionWeight games)%Z.
Proof.
  induction games as [|g r IH]; cbn [sessionWeight fold_right]; [lia|].
  fold (sessionWeight r). pose proof (sumAbs_nonneg (Game.anChot g)). lia.
Qed.

Lemma addSummary_emb players B D (summary : Summary.t) :
  (B + D < 2 ^ 53)%Z ->
  (forall p, In p (ids players) ->
     exists z, JsObj.get p (Summary.points summary) = Some (Int z)
               /\ (Z.abs z <= D)%Z) ->
  NoDup (ids players) ->
  forall totals,
    (forall p, In p (ids players) ->
       exists z, JsObj.get p totals = Some (Int z) /\ (Z.abs z <= B)%Z) ->
    Js.addSummary players (emb totals) (embSummary summary)
    = emb (addSummary players totals summary).
Proof.
  intros Hlt Hpts. unfold Js.addSummary, addSummary.
  induction players as [|p r IH]; intros Hnd totals Htot; [reflexivity|].
  cbn [fold_left]. cbn [ids map] in Hnd, Hpts, Htot.
  apply NoDup_cons_iff in Hnd as [Hnin Hnd].
  destruct (Htot (Player.id p) (or_introl eq_refl)) as (t & Ht & Bt).
  destruct (Hpts (Player.id p) (or_introl eq_refl)) as (d & Hd & Bd).
  cbn [embSummary Js.Summary.points].
  rewrite (Js_get_emb _ _ _ Ht), (Js_get_emb _ _ _ Hd), Ht, Hd.
  cbn [Js.nullish Js.plus Js.ToNumber inj to_num nullish nadd].
  rewrite add_small by lia.
  rewrite (Js_set_emb (Player.id p) (Int (t + d)) (Int t)) by assumption.
  apply IH; auto.
  - intros q Hq. apply Hpts. now right.
  - intros q Hq. rewrite JsObjFacts.get_set_ne.
    + apply Htot. now right.
    + intros ->. contradiction.
Qed.

Lemma Good_addSummary players B D totals (summary : Summary.t) :
  NoDup (ids players) ->
  Good (ids players) B {| points := totals; warnings := [] |} ->
  Good (ids players) D {| points := Summary.points summary; warnings := [] |} ->
  Good (ids players) (B + D)
    {| points := addSummary players totals summary; warnings := [] |}.
Proof.
  intros Hnd [HK HB] [HK' HD]. cbn [points] in *. split; cbn [points].
  - rewrite keys_addSummary; auto. intros k Hk. now rewrite HK.
  - intros k v. rewrite get_addSummary by assumption.
    destruct (mem k (ids players)) eqn:M.
    + apply mem_In in M.
      assert (M1 : In k (map fst totals)) by now rewrite HK.
      assert (M2 : In k (map fst (Summary.points summary))) by now rewrite HK'.
      destruct (JsObjFacts.get_In _ _ M1) as [t Ht].
      destruct (JsObjFacts.get_In _ _ M2) as [d Hd].
      destruct (HB _ _ Ht) as (zt & -> & Bt).
      destruct (HD _ _ Hd) as (zd & -> & Bd).
      rewrite Ht, Hd. cbn [to_num nullish nadd]. intros [= <-].
      exists (zt + zd)%Z. split; [reflexivity|lia].
    + intros Hg. apply JsObjFacts.get_Some_In in Hg. rewrite HK in Hg.
      apply mem_In in Hg. congruence.
Qed.

Lemma Good_reads K b o :
  Good K b {| points := o; warnings := [] |} ->
  forall p, In p K -> exists z, JsObj.get p o = Some (Int z) /\ (Z.abs z <= b)%Z.
Proof. intros HG p Hp. exact (Good_get K b _ p HG Hp). Qed.

Lemma Good_summary game players :
  four_players players = true ->
  valid_round players game = true ->
  safeAmounts game = true ->
  Good (ids players) (2 * (30 + sumAbs (Game.anChot game)))
    {| points := Summary.points (computeGamePoints game players); warnings := [] |}.
Proof.
  intros H4 Hv Hs.
  destruct (round_states_agree game players H4 Hv Hs) as [_ [HK Hb]].
  split; cbn [points].
  - exact HK.
  - intros k v Hg. destruct (Hb k v Hg) as (z & -> & Hz). exists z.
    split; [reflexivity|lia].
Qed.

Lemma session_loop_agree players games :
  four_players players = true ->
  (forall game, In game games -> valid_round players game = true) ->
  (sessionWeight games <= 2 ^ 49)%Z ->
  forall totals B,
    (0 <= B)%Z ->
    Good (ids players) B {| points := totals; warnings := [] |} ->
    (B + 2 * sessionWeight games < 2 ^ 53)%Z ->
    fold_left (Js.addSummary players)
      (map (fun game => Js.computeGamePoints game players) games) (emb totals)
    = emb (fold_left (addSummary players)
             (map (fun game => computeGamePoints game players) games) totals)
    /\ Good (ids players) (B + 2 * sessionWeight games)
         {| points :=
              fold_left (addSummary players)
                (map (fun game => computeGamePoints game players) games) totals;
            warnings := [] |}.
Proof.
  intros H4 Hv Hw.
  assert (Hnd : NoDup (ids players)).
  { apply andb_true_iff in H4 as [_ Hd]. now apply distinct_NoDup. }
  induction games as [|g r IH]; intros totals B HB HG Hlt.
  - cbn [map fold_left sessionWeight fold_right]. split; [reflexivity|].
    now rewrite Z.mul_0_r, Z.add_0_r.
  - cbn [sessionWeight fold_right] in Hw, Hlt |- *. fold (sessionWeight r) in *.
    pose proof (sessionWeight_nonneg r) as Hr.
    pose proof (sumAbs_nonneg (Game.anChot g)) as Ha.
    assert (Hs : safeAmounts g = true) by (apply Z.leb_le; lia).
    assert (Hvg : valid_round players g = true) by (apply Hv; now left).
    pose proof (Good_summary g players H4 Hvg Hs) as HGs.
    cbn [map fold_left].
    rewrite (rounds_agree g players H4 Hvg Hs).
    rewrite (addSummary_emb players B (2 * (30 + sumAbs (Game.anChot g)))).
    + destruct (IH (fun game Hin => Hv game (or_intror Hin)) ltac:(lia)
                  (addSummary players totals (computeGamePoints g players))
                  (B + 2 * (30 + sumAbs (Game.anChot g)))%Z) as [E G].
      * lia.
      * now apply Good_addSummary.
      * lia.
      * split; [exact E|].
        eapply Good_weaken; [|exact G]. lia.
    + lia.
    + apply (Good_reads _ _ _ HGs).
    + exact Hnd.
    + apply (Good_reads _ _ _ HG).
Qed.

Lemma Good_zero_totals players :
  four_players players = true ->
  Good (ids players) 0
    {| points :=
         JsObj.fromEntries (map (fun player => (Player.id player, Int 0)) players);
       warnings := [] |}.
Proof. intros H4. exact (Good_initial players H4). Qed.

(** On a session of four players whose rounds are valid and whose
    amounts are safe, the totals computed with doubles are the totals of
    the data model, each at most twice the weight of the session. *)
Lemma sessions_agree session :
  four_players (Session.players session) = true ->
  (forall game, In game (Session.games session) ->
     valid_round (Session.players session) game = true) ->
  safeSession session = true ->
  Js.sessionTotals (Some session) = emb (sessionTotals (Some session))
  /\ Good (ids (Session.players session))
       (2 * sessionWeight (Session.games session))
       {| points := sessionTotals (Some session); warnings := [] |}.
Proof.
  intros H4 Hv Hs. unfold safeSession in Hs. apply Z.leb_le in Hs.
  pose proof (sessionWeight_nonneg (Session.games session)) as Hw.
  destruct (session_loop_agree (Session.players session) (Session.games session)
              H4 Hv Hs _ 0%Z ltac:(lia) (Good_zero_totals _ H4)) as [E G].
  { rewrite pow53. rewrite pow49 in Hs. lia. }
  split; [|exact G].
  change (sessionTotals (Some session))
    with (fold_left (addSummary (Session.players session))
            (map (fun game => computeGamePoints game (Session.players session))
               (Session.games session))
            (JsObj.fromEntries
               (map (fun player => (Player.id player, Int 0))
                  (Session.players session)))).
  rewrite <- E. unfold Js.sessionTotals, Js.gameSummaries. cbv zeta.
  rewrite <- fromEntries_emb, map_map. reflexivity.
Qed.

(** ** Zero-sum *)

(** C1, as the code has it. On a round of four players in which every
    ranking slot and every transfer endpoint is a player id or empty, and
    whose manual transfer amounts add up, in absolute value, to at most
    [2^49], an empty warnings list implies that the returned total is 0.
    The bound keeps every number of the computation below [2^53], where
    the arithmetic of doubles is exact. *)
Theorem zero_sum_without_warnings game players :
  four_players players = true ->
  valid_round players game = true ->
  safeAmounts game = true ->
  Js.Summary.warnings (Js.computeGamePoints game players) = [] ->
  Js.Summary.total (Js.computeGamePoints game players) = Js.Num (Double.Fin 0).
Proof.
  intros H4 Hv Hs _. rewrite rounds_agree by assumption.
  cbn [embSummary Js.Summary.total]. now rewrite valid_round_total.
Qed.

Lemma zero_sum_without_warnings_witness :
  Js.Summary.total
    (Js.computeGamePoints
       (round false (slots "p1" "p3" "p4" "")
          [transfer "t1" "p4" "p2" 4] [transfer "c1" "p2" "p1" 4])
       seats)
  = Js.Num (Double.Fin 0).
Proof.
  apply zero_sum_without_warnings; reflexivity.
Defined.

(** Without the bound the claim fails: a complete ranking with one
    manual transfer of [2^53] from the fourth to the first is a valid
    round and raises no warning, yet the fourth player's [-3 - 2^53] is
    rounded to [-(2^53 + 4)] and the total comes out as [-2]. *)
Lemma zero_sum_large_amount :
  let g :=
    round false (slots "p1" "p2" "p3" "p4")
      [transfer "t1" "p4" "p1" 9007199254740992] [] in
  four_players seats = true
  /\ valid_round seats g = true
  /\ Js.Summary.warnings (Js.computeGamePoints g seats) = []
  /\ JsObj.get "p4" (Js.Summary.points (Js.computeGamePoints g seats))
     = Some (Js.Num (Double.Fin (-9007199254740996)))
  /\ Js.Summary.total (Js.computeGamePoints g seats) = Js.Num (Double.Fin (-2)).
Proof. vm_compute. repeat split. Qed.

(** ** A result for every input *)

(** C9, as the code has it. For every round and player list, well formed
    or not, the result holds a delta for every player, and the warnings
    list is non-empty exactly when one of the reported conditions holds:
    self-win without a winner; burn mode without a winner, with a burned
    winner or with a missing second or third place; ranking mode without
    four distinct filled slots; a manual transfer with an empty endpoint
    or with [from] equal to [to].  Every delta and the total are numbers
    when slot first and the [to] side of every manual transfer are player
    ids or at least no property names of [Object.prototype]. *)
Theorem result_for_every_input game players :
  let r := Js.computeGamePoints game players in
  (forall p, In p (ids players) ->
     exists v, JsObj.get p (Js.Summary.points r) = Some v)
  /\ (Js.Summary.warnings r <> [] <-> flagged game players = true)
  /\ (plainTargets game players = true -> Js.wellTyped r = true).
Proof.
  intros r. subst r. split; [|split].
  - intros p Hp. now apply Js_owns.
  - rewrite Js_warnings. apply warnings_flagged.
  - apply Js_typed.
Qed.

(** Two malformed rounds.  A self-win round whose slot first names nobody
    at the table: every player is charged 5 and nothing is reported.  A
    ranked round with a manual transfer to ["toString"]: nothing is
    reported either, the table gets a string under that name and the
    total is a string. *)
Lemma malformed_input_counterexample :
  let g1 := round true (slots "zz" "" "" "") [] [] in
  let g2 :=
    round false (slots "p1" "p2" "p3" "p4") [transfer "t1" "p1" "toString" 4] [] in
  (wellFormedRound seats g1 = false
   /\ Js.Summary.warnings (Js.computeGamePoints g1 seats) = []
   /\ Js.Summary.total (Js.computeGamePoints g1 seats) = Js.Num (Double.Fin (-20)))
  /\ (wellFormedRound seats g2 = false
      /\ Js.Summary.warnings (Js.computeGamePoints g2 seats) = []
      /\ JsObj.get "toString" (Js.Summary.points (Js.computeGamePoints g2 seats))
         = Some Js.Str
      /\ Js.Summary.total (Js.computeGamePoints g2 seats) = Js.Str
      /\ Js.wellTyped (Js.computeGamePoints g2 seats) = false).
Proof. vm_compute. repeat split. Qed.

(** ** Manual transfers with safe amounts *)

Lemma beforeTransfers_agree game players :
  four_players players = true ->
  valid_round players game = true ->
  Js.beforeTransfers game players = embSt (beforeTransfers game players).
Proof.
  intros H4 Hv. unfold Js.beforeTransfers, beforeTransfers.
  destruct (Refines_scoreMode game players H4 Hv) as [_ H].
  rewrite initial_emb.
  apply (H (initial players) 0%Z); [lia|now apply Good_initial|].
  rewrite pow53. lia.
Qed.

(** On a valid round of four players with safe amounts every final delta
    is the delta of the mode-specific step plus what the accepted manual
    transfers bring: the amounts received minus the amounts paid. *)
Theorem manual_transfers_net game players q :
  four_players players = true ->
  valid_round players game = true ->
  safeAmounts game = true ->
  In q (ids players) ->
  exists d,
    Js.get q (Js.points (Js.beforeTransfers game players)) = Js.Num (Double.Fin d)
    /\ Js.get q (Js.Summary.points (Js.computeGamePoints game players))
       = Js.Num (Double.Fin (d + netTransfers (Game.anChot game) q)).
Proof.
  intros H4 Hv Hs Hq.
  destruct (manual_transfers_exact game players q H4 Hv Hq) as (d & Hd & Hf).
  exists d. rewrite beforeTransfers_agree, rounds_agree by assumption.
  cbn [embSt Js.points embSummary Js.Summary.points].
  now rewrite (Js_get_emb _ _ _ Hd), (Js_get_emb _ _ _ Hf).
Qed.

Lemma manual_transfers_net_witness :
  let g := round false (slots "p1" "p2" "p3" "p4")
             [transfer "t1" "p4" "p1" 4; transfer "t2" "p2" "p2" 4;
              transfer "t3" "p1" "p3" 4] [] in
  exists d,
    Js.get "p1" (Js.points (Js.beforeTransfers g seats)) = Js.Num (Double.Fin d)
    /\ Js.get "p1" (Js.Summary.points (Js.computeGamePoints g seats))
       = Js.Num (Double.Fin (d + netTransfers (Game.anChot g) "p1")).
Proof.
  apply manual_transfers_net; [reflexivity|reflexivity|reflexivity|simpl; auto].
Defined.

Lemma sumAbs_perm l l' : Permutation l l' -> sumAbs l = sumAbs l'.
Proof.
  induction 1; cbn [sumAbs fold_right]; auto.
  - fold (sumAbs l) (sumAbs l'). now rewrite IHPermutation.
  - fold (sumAbs l). lia.
  - congruence.
Qed.

(** The order in which the manual transfers of a valid round with safe
    amounts are listed changes nothing of the result: deltas, total and
    warnings. *)
Theorem transfer_order_irrelevant g1 g2 players :
  four_players players = true ->
  valid_round players g1 = true ->
  safeAmounts g1 = true ->
  Game.u g1 = Game.u g2 ->
  Game.placements g1 = Game.placements g2 ->
  Game.chay g1 = Game.chay g2 ->
  Permutation (Game.anChot g1) (Game.anChot g2) ->
  Js.computeGamePoints g1 players = Js.computeGamePoints g2 players.
Proof.
  intros H4 Hv1 Hs1 Hu Hp Hc Hperm.
  assert (Hv2 : valid_round players g2 = true).
  { apply valid_round_iff in Hv1 as (Hs & Hvc & Hva). apply valid_round_iff.
    unfold picksOf in *. rewrite <- Hp, <- Hc. repeat split; auto.
    apply forallb_forall. intros x Hx. rewrite forallb_forall in Hva.
    apply Hva. eapply Permutation_in; [apply Permutation_sym|]; eauto. }
  assert (Hs2 : safeAmounts g2 = true).
  { unfold safeAmounts in *. now rewrite <- (sumAbs_perm _ _ Hperm). }
  rewrite !rounds_agree by assumption.
  f_equal. now apply transfer_order_exact.
Qed.

Lemma transfer_order_irrelevant_witness :
  Js.computeGamePoints
    (round false (slots "p1" "p2" "p3" "p4")
       [transfer "t1" "p4" "p1" 4; transfer "t2" "p2" "p2" 4] []) seats
  = Js.computeGamePoints
      (round false (slots "p1" "p2" "p3" "p4")
         [transfer "t2" "p2" "p2" 4; transfer "t1" "p4" "p1" 4] []) seats.
Proof.
  apply transfer_order_irrelevant; try reflexivity.
  apply perm_swap.
Defined.

(** ** Sessions with safe amounts *)

(** A session of four players whose rounds all have valid slots and
    endpoints, and whose amounts are safe, balances: the sum of the
    players' totals is 0. *)
Theorem valid_session_balances session :
  four_players (Session.players session) = true ->
  forallb (valid_round (Session.players session)) (Session.games session) = true ->
  safeSession session = true ->
  Js.sessionBalance (Some session) = Js.Num (Double.Fin 0).
Proof.
  intros H4 Hv Hs. pose proof (session_balance_exact session H4 Hv) as Hbal.
  rewrite forallb_forall in Hv.
  destruct (sessions_agree session H4 Hv Hs) as [E [HK Hb]].
  cbn [points] in HK, Hb.
  unfold Js.sessionBalance. rewrite E.
  unfold sessionBalance in Hbal.
  rewrite (sum_values_emb _ (2 * sessionWeight (Session.games session))), Hbal;
    auto.
  - pose proof (sessionWeight_nonneg (Session.games session)). lia.
  - rewrite HK. apply andb_true_iff in H4 as [_ Hd]. now apply distinct_NoDup.
  - replace (length _) with (length (ids (Session.players session)))
      by (now rewrite <- HK, length_map).
    apply andb_true_iff in H4 as [Hl _]. apply Nat.eqb_eq in Hl.
    unfold ids. rewrite length_map, Hl.
    unfold safeSession in Hs. apply Z.leb_le in Hs.
    rewrite pow53. rewrite pow49 in Hs. lia.
Qed.

Lemma valid_session_balances_witness :
  Js.sessionBalance (Some sampleSession) = Js.Num (Double.Fin 0).
Proof.
  apply valid_session_balances; reflexivity.
Defined.

Lemma sessionWeight_app l1 l2 :
  sessionWeight (l1 ++ l2) = (sessionWeight l1 + sessionWeight l2)%Z.
Proof.
  induction l1 as [|g r IH].
  - rewrite app_nil_l. change (sessionWeight []) with 0%Z. lia.
  - rewrite <- app_comm_cons.
    change (sessionWeight (g :: r ++ l2))
      with (30 + sumAbs (Game.anChot g) + sessionWeight (r ++ l2))%Z.
    change (sessionWeight (g :: r))
      with (30 + sumAbs (Game.anChot g) + sessionWeight r)%Z.
    rewrite IH. lia.
Qed.

Lemma Js_total_read session p :
  four_players (Session.players session) = true ->
  (forall game, In game (Session.games session) ->
     valid_round (Session.players session) game = true) ->
  safeSession session = true ->
  In p (ids (Session.players session)) ->
  exists z,
    totalOf session p = Int z
    /\ Js.get p (Js.sessionTotals (Some session)) = Js.Num (Double.Fin z)
    /\ (Z.abs z <= 2 * sessionWeight (Session.games session))%Z.
Proof.
  intros H4 Hv Hs Hp.
  destruct (sessions_agree session H4 Hv Hs) as [E HG].
  destruct (Good_reads _ _ _ HG p Hp) as (z & Hz & Bz).
  exists z. unfold totalOf. rewrite E, Hz, (Js_get_emb _ _ _ Hz). auto.
Qed.

(** For four players, valid rounds and safe amounts, a player's total
    over a list of rounds followed by another is the total over the
    first plus the total over the second. *)
Theorem sessionTotals_app session games1 games2 p :
  four_players (Session.players session) = true ->
  forallb (valid_round (Session.players session)) (games1 ++ games2) = true ->
  safeSession (withGames session (games1 ++ games2)) = true ->
  In p (ids (Session.players session)) ->
  Js.get p (Js.sessionTotals (Some (withGames session (games1 ++ games2))))
  = Js.plus (Js.get p (Js.sessionTotals (Some (withGames session games1))))
            (Js.get p (Js.sessionTotals (Some (withGames session games2)))).
Proof.
  intros H4 Hv Hs Hp. rewrite forallb_forall in Hv.
  unfold safeSession in Hs. cbn [withGames Session.games] in Hs.
  apply Z.leb_le in Hs. rewrite sessionWeight_app in Hs.
  pose proof (sessionWeight_nonneg games1) as W1.
  pose proof (sessionWeight_nonneg games2) as W2.
  destruct (Js_total_read (withGames session (games1 ++ games2)) p)
    as (z & Tz & Jz & Bz); auto.
  { apply Z.leb_le. cbn [withGames Session.games]. rewrite sessionWeight_app. lia. }
  destruct (Js_total_read (withGames session games1) p) as (z1 & T1 & J1 & B1); auto.
  { intros g Hg. apply Hv, in_or_app. now left. }
  { apply Z.leb_le. cbn [withGames Session.games]. lia. }
  destruct (Js_total_read (withGames session games2) p) as (z2 & T2 & J2 & B2); auto.
  { intros g Hg. apply Hv, in_or_app. now right. }
  { apply Z.leb_le. cbn [withGames Session.games]. lia. }
  cbn [withGames Session.games] in Bz, B1, B2.
  assert (Hd : distinct (ids (Session.players session)) = true)
    by now apply andb_true_iff in H4 as [_ Hd].
  pose proof (sessionTotals_app_exact session games1 games2 p Hd Hp) as Happ.
  rewrite Tz, T1, T2 in Happ. cbn [nadd] in Happ. injection Happ as ->.
  rewrite Jz, J1, J2. cbn [Js.plus Js.ToNumber].
  rewrite add_small; [reflexivity|].
  rewrite pow53. rewrite pow49 in Hs. lia.
Qed.

Lemma sessionTotals_app_witness :
  Js.get "p1"
    (Js.sessionTotals
       (Some (withGames sampleSession (Session.games sampleSession ++ [editedRound]))))
  = Js.plus
      (Js.get "p1"
         (Js.sessionTotals
            (Some (withGames sampleSession (Session.games sampleSession)))))
      (Js.get "p1" (Js.sessionTotals (Some (withGames sampleSession [editedRound])))).
Proof.
  apply sessionTotals_app; [reflexivity|reflexivity|reflexivity|simpl; auto].
Defined.
